(** * TruthTable-Generator: a shallow embedding of [script.js]

    The development follows the source file top to bottom: the operator
    registry, the lexeme tables, [tokenize], [toRPN], [rpnToAst],
    [formatNode], [collectSubexpressions], [computeValue], [evalRPN],
    [uniqueVariables], [renderTable] and [handleSubmit].

    JavaScript strings are sequences of UTF-16 code units; they are
    modelled as lists of code units ([N]).  JavaScript numbers that the
    program only uses as integers are [Z]; the 32-bit bitwise operators
    are written out with their wrap-around.  Exceptions are values of
    the type [error], threaded through the [result] monad. *)

From Stdlib Require Import ZArith List Ascii String Lia Bool.
From stdpp Require Import base tactics option list numbers gmap sorting lexico.

Local Open Scope Z_scope.

(** ** Strings *)

Abbreviation jsstring := (list N).

(** Code unit of an ASCII character, and the string of an ASCII literal. *)
Definition cu (c : ascii) : N := N_of_ascii c.
Definition js (s : string) : jsstring := map N_of_ascii (list_ascii_of_string s).

Definition inRange (lo hi ch : N) : bool := (N.leb lo ch && N.leb ch hi)%bool.

(** [/[A-Za-z]/], [/[0-9]/], [/[A-Za-z_]/], [/[A-Za-z0-9_]/] on a single
    code unit. *)
Definition isLetter (ch : N) : bool :=
  (inRange (cu "A") (cu "Z") ch || inRange (cu "a") (cu "z") ch)%bool.
Definition isDigit (ch : N) : bool := inRange (cu "0") (cu "9") ch.
Definition isIdentStart (ch : N) : bool := (isLetter ch || N.eqb ch (cu "_"))%bool.
Definition isIdentPart (ch : N) : bool :=
  (isLetter ch || isDigit ch || N.eqb ch (cu "_"))%bool.

(** [String.prototype.toLowerCase]; the program applies it to runs of
    [[A-Za-z0-9_]] only, where it maps [A-Z] to [a-z] and nothing else. *)
Definition toLowerCaseUnit (ch : N) : N :=
  if inRange (cu "A") (cu "Z") ch then (ch + 32)%N else ch.
Definition toLowerCase (s : jsstring) : jsstring := toLowerCaseUnit <$> s.

(** White space and line terminators stripped by [String.prototype.trim]. *)
Definition isTrimSpace (ch : N) : bool :=
  (inRange 9 13 ch || N.eqb ch 32 || N.eqb ch 160 || N.eqb ch 5760
   || inRange 8192 8202 ch || N.eqb ch 8232 || N.eqb ch 8233
   || N.eqb ch 8239 || N.eqb ch 8287 || N.eqb ch 12288 || N.eqb ch 65279)%bool.

Fixpoint takeWhile {A} (p : A → bool) (l : list A) : list A :=
  match l with
  | x :: l' => if p x then x :: takeWhile p l' else []
  | [] => []
  end.

Fixpoint dropWhile {A} (p : A → bool) (l : list A) : list A :=
  match l with
  | x :: l' => if p x then dropWhile p l' else l
  | [] => []
  end.

Definition trim (s : jsstring) : jsstring :=
  rev (dropWhile isTrimSpace (rev (dropWhile isTrimSpace s))).

(** [s.startsWith(m, idx)], on the suffix of [s] that starts at [idx]. *)
Fixpoint startsWith (m rest : jsstring) : bool :=
  match m, rest with
  | [], _ => true
  | c :: m', d :: rest' => (N.eqb c d && startsWith m' rest')%bool
  | _ :: _, [] => false
  end.

(** ** Errors *)

(** One constructor per [throw new Error(...)] of the source, in source
    order, then the messages of [handleSubmit], then the run-time
    [TypeError] of a property read on [undefined]. *)
Inductive error : Type :=
  | UnexpectedNumber (numStr : jsstring)
  | UnexpectedCharacter (ch : N) (position : Z)
  | MissingLeftParen
  | MismatchedParentheses
  | MissingUnaryOperand
  | MissingBinaryOperands
  | UnsupportedArity
  | UnexpectedTokenInAst
  | CouldNotBuildAst
  | UnboundVariable (name : jsstring)
  | UnexpectedTokenInEvaluation
  | LeftoverValues
  | EmptyExpression
  | TooManyVariables (count : Z)
  | TypeError
  | LoopBound.

Inductive result (A : Type) : Type :=
  | OK (a : A)
  | Err (e : error).
Arguments OK {A} a.
Arguments Err {A} e.

Global Instance result_ret : MRet result := λ A a, OK a.
Global Instance result_bind : MBind result := λ A B f m,
  match m with
  | OK a => f a
  | Err e => Err e
  end.

Definition isOK {A} (r : result A) : bool :=
  match r with OK _ => true | Err _ => false end.

(** [try { ... } catch (e) { fallback }] *)
Definition tryCatch {A} (body : result A) (fallback : A) : A :=
  match body with
  | OK a => a
  | Err _ => fallback
  end.

(** ** Operator registry *)

Inductive OpKey : Type := NOT | AND | XOR | OR | IMP | IFF.
Inductive Assoc : Type := AssocLeft | AssocRight.

Global Instance OpKey_eq_dec : EqDecision OpKey.
Proof. solve_decision. Defined.
Global Instance Assoc_eq_dec : EqDecision Assoc.
Proof. solve_decision. Defined.

(** [fn] takes its operands as JavaScript passes them: a call with one
    argument leaves the second parameter unused. *)
Record OpInfo : Type := mkOp {
  sym : OpKey;
  arity : nat;
  prec : Z;
  assoc : Assoc;
  fn : bool → bool → bool
}.

Definition Operators (k : OpKey) : OpInfo :=
  match k with
  | NOT => mkOp NOT 1 5 AssocRight (λ a _, negb a)
  | AND => mkOp AND 2 4 AssocLeft (λ a b, a && b)
  | XOR => mkOp XOR 2 3 AssocLeft (λ a b, xorb a b)
  | OR => mkOp OR 2 2 AssocLeft (λ a b, a || b)
  | IMP => mkOp IMP 2 1 AssocRight (λ a b, negb a || b)
  | IFF => mkOp IFF 2 0 AssocLeft (λ a b, Bool.eqb a b)
  end.

(** ** Lexeme tables *)

Definition OperatorLexemes : list (jsstring * OpKey) :=
  [ (js "<=>", IFF); (js "<->", IFF); ([8596%N], IFF); (js "iff", IFF);
    (js "->", IMP); (js "=>", IMP); ([8594%N], IMP); (js "implies", IMP);
    ([8853%N], XOR); (js "^", XOR); (js "xor", XOR);
    ([8743%N], AND); (js "&", AND); (js "and", AND);
    ([8744%N], OR); (js "|", OR); (js "or", OR);
    ([172%N], NOT); (js "~", NOT); (js "!", NOT); (js "not", NOT) ].

Definition ConstLexemes : list (jsstring * bool) :=
  [ (js "true", true); (js "t", true); (js "1", true);
    (js "false", false); (js "f", false); (js "0", false) ].

(** [Map.prototype.get] / [Array.prototype.find] on a table keyed by the
    surface form. *)
Fixpoint lookupLexeme {V} (table : list (jsstring * V)) (word : jsstring) : option V :=
  match table with
  | (m, v) :: table' => if decide (m = word) then Some v else lookupLexeme table' word
  | [] => None
  end.

(** ** Tokens *)

Inductive token : Type :=
  | TLParen
  | TRParen
  | TOp (value : OpKey) (raw : jsstring)
  | TConst (value : bool) (raw : jsstring)
  | TIdent (value : jsstring).

Global Instance token_eq_dec : EqDecision token.
Proof. solve_decision. Defined.

(** ** tokenize *)

(** The closure [matchOperatorAt], on the suffix that starts at [idx]:
    the first entry of [OperatorLexemes], in table order, that the
    suffix starts with. *)
Fixpoint matchOperatorIn (table : list (jsstring * OpKey)) (rest : jsstring)
  : option (jsstring * OpKey) :=
  match table with
  | (m, op) :: table' =>
      if startsWith m rest then Some (m, op) else matchOperatorIn table' rest
  | [] => None
  end.

Definition matchOperatorAt (rest : jsstring) : option (jsstring * OpKey) :=
  matchOperatorIn OperatorLexemes rest.

(** The token of a maximal word [wordRaw]: a constant, a word-form
    operator, or else an identifier. *)
Definition classifyWord (wordRaw : jsstring) : token :=
  let word := toLowerCase wordRaw in
  match lookupLexeme ConstLexemes word with
  | Some v => TConst v wordRaw
  | None =>
      match lookupLexeme OperatorLexemes word with
      | Some op => TOp op wordRaw
      | None => TIdent wordRaw
      end
  end.

Definition isBlank (ch : N) : bool :=
  (N.eqb ch 32 || N.eqb ch 9 || N.eqb ch 10 || N.eqb ch 13)%bool.

(** The body of the [while (i < s.length)] loop.  [rest] is the suffix
    [s.slice(i)]; every iteration consumes at least one code unit, so a
    bound of [length rest] iterations is never exhausted (see
    [tokenizeLoop_bounds] and [tokenize_terminates]). *)
Fixpoint tokenizeLoop (bound : nat) (rest : jsstring) (i : Z) (tokens : list token)
  : result (list token) :=
  match rest with
  | [] => OK tokens
  | ch :: tl =>
    match bound with
    | O => Err LoopBound
    | S bound' =>
      if isBlank ch then tokenizeLoop bound' tl (i + 1) tokens
      else if N.eqb ch (cu "(") then tokenizeLoop bound' tl (i + 1) (tokens ++ [TLParen])
      else if N.eqb ch (cu ")") then tokenizeLoop bound' tl (i + 1) (tokens ++ [TRParen])
      else
        match matchOperatorAt rest with
        | Some (m, op) =>
            tokenizeLoop bound' (drop (length m) rest) (i + Z.of_nat (length m))
                         (tokens ++ [TOp op m])
        | None =>
            if isIdentStart ch then
              let wordRaw := ch :: takeWhile isIdentPart tl in
              tokenizeLoop bound' (dropWhile isIdentPart tl)
                           (i + Z.of_nat (length wordRaw))
                           (tokens ++ [classifyWord wordRaw])
            else if isDigit ch then
              let numStr := takeWhile isDigit rest in
              if decide (numStr = js "0" ∨ numStr = js "1") then
                tokenizeLoop bound' (dropWhile isDigit rest)
                             (i + Z.of_nat (length numStr))
                             (tokens ++ [TConst (bool_decide (numStr = js "1")) numStr])
              else Err (UnexpectedNumber numStr)
            else Err (UnexpectedCharacter ch (i + 1))
        end
    end
  end.

Definition tokenize (input : jsstring) : result (list token) :=
  let s := trim input in
  tokenizeLoop (length s) s 0 [].

(** ** toRPN *)

(** The operator stack [ops] is kept with its top at the head of the
    list; [output.push(t)] appends.  [prevType] is written but never read
    in the source and is left out.  The guards for an operator key that is
    missing from [Operators] and for a token of an unknown type have no
    counterpart: [OpKey] and [token] list every key and every type. *)

(** The pop condition of the inner [while (ops.length)] loop. *)
Definition popsBefore (topInfo opInfo : OpInfo) : bool :=
  ((prec topInfo >? prec opInfo)
   || ((prec topInfo =? prec opInfo) && bool_decide (assoc opInfo = AssocLeft)))%bool.

Fixpoint popOperators (opInfo : OpInfo) (output ops : list token)
  : list token * list token :=
  match ops with
  | TOp topValue topRaw :: ops' =>
      if popsBefore (Operators topValue) opInfo
      then popOperators opInfo (output ++ [TOp topValue topRaw]) ops'
      else (output, ops)
  | _ => (output, ops)
  end.

(** The loop of the [rparen] case; [None] is [found === false]. *)
Fixpoint popToLeftParen (output ops : list token) : option (list token * list token) :=
  match ops with
  | [] => None
  | TLParen :: ops' => Some (output, ops')
  | t :: ops' => popToLeftParen (output ++ [t]) ops'
  end.

(** The final [while (ops.length)] loop. *)
Fixpoint drainOperators (output ops : list token) : result (list token) :=
  match ops with
  | [] => OK output
  | TLParen :: _ | TRParen :: _ => Err MismatchedParentheses
  | t :: ops' => drainOperators (output ++ [t]) ops'
  end.

Definition toRPNStep (st : list token * list token) (tok : token)
  : result (list token * list token) :=
  let '(output, ops) := st in
  match tok with
  | TIdent _ | TConst _ _ => OK (output ++ [tok], ops)
  | TOp value _ =>
      let '(output', ops') := popOperators (Operators value) output ops in
      OK (output', tok :: ops')
  | TLParen => OK (output, tok :: ops)
  | TRParen =>
      match popToLeftParen output ops with
      | Some st' => OK st'
      | None => Err MissingLeftParen
      end
  end.

Fixpoint toRPNLoop (tokens : list token) (st : list token * list token)
  : result (list token * list token) :=
  match tokens with
  | [] => OK st
  | tok :: tokens' => st' ← toRPNStep st tok; toRPNLoop tokens' st'
  end.

Definition toRPN (tokens : list token) : result (list token) :=
  st ← toRPNLoop tokens ([], []);
  drainOperators st.1 st.2.

(** ** rpnToAst *)

Inductive node : Type :=
  | NVar (id : Z) (name : jsstring)
  | NConst (id : Z) (value : bool)
  | NOp1 (id : Z) (op : OpKey) (a : node)
  | NOp2 (id : Z) (op : OpKey) (a b : node).

Global Instance node_eq_dec : EqDecision node.
Proof. solve_decision. Defined.

Definition nodeId (n : node) : Z :=
  match n with
  | NVar id _ | NConst id _ | NOp1 id _ _ | NOp2 id _ _ _ => id
  end.

(** [node.type === 'op'] *)
Definition isOpNode (n : node) : bool :=
  match n with
  | NOp1 _ _ _ | NOp2 _ _ _ _ => true
  | _ => false
  end.

(** The closure [makeLeaf], with the value of [nextId] at the call.  It
    is only called on identifier and constant tokens; on any other token
    its [else] branch would store [Boolean] of a non-empty string. *)
Definition makeLeaf (nextId : Z) (tok : token) : node :=
  match tok with
  | TIdent name => NVar nextId name
  | TConst value _ => NConst nextId value
  | _ => NConst nextId true
  end.

(** One iteration of [for (const tok of rpn)]; the state is [nextId] and
    the node stack, top at the head. *)
Definition rpnToAstStep (st : Z * list node) (tok : token) : result (Z * list node) :=
  let '(nextId, stack) := st in
  match tok with
  | TIdent _ | TConst _ _ => OK (nextId + 1, makeLeaf nextId tok :: stack)
  | TOp value _ =>
      let info := Operators value in
      if (arity info =? 1)%nat then
        match stack with
        | a :: stack' => OK (nextId + 1, NOp1 nextId value a :: stack')
        | [] => Err MissingUnaryOperand
        end
      else if (arity info =? 2)%nat then
        match stack with
        | b :: a :: stack' => OK (nextId + 1, NOp2 nextId value a b :: stack')
        | _ => Err MissingBinaryOperands
        end
      else Err UnsupportedArity
  | TLParen | TRParen => Err UnexpectedTokenInAst
  end.

Fixpoint rpnToAstLoop (rpn : list token) (st : Z * list node) : result (Z * list node) :=
  match rpn with
  | [] => OK st
  | tok :: rpn' => st' ← rpnToAstStep st tok; rpnToAstLoop rpn' st'
  end.

Definition rpnToAst (rpn : list token) : result node :=
  st ← rpnToAstLoop rpn (1, []);
  match st.2 with
  | [root] => OK root
  | _ => Err CouldNotBuildAst
  end.

(** ** formatNode *)

Definition OpLabel (k : OpKey) : jsstring :=
  match k with
  | NOT => js "!"
  | AND => js "&"
  | OR => js "|"
  | XOR => js "^"
  | IMP => js "->"
  | IFF => js "<->"
  end.

(** The [NOT] branch of [formatNode], given the rendering of [node.a]. *)
Definition formatNot (a : node) (inner : jsstring) : jsstring :=
  OpLabel NOT ++ (if isOpNode a then js "(" ++ inner ++ js ")" else inner).

(** A node built in the arity-1 branch of [rpnToAst] has no [b]; were its
    operator not [NOT], [formatNode(node.b)] would read [undefined.type]. *)
Fixpoint formatNode (n : node) : result jsstring :=
  match n with
  | NVar _ name => OK name
  | NConst _ value => OK (if value then js "T" else js "F")
  | NOp1 _ op a =>
      if decide (op = NOT) then inner ← formatNode a; OK (formatNot a inner)
      else _ ← formatNode a; Err TypeError
  | NOp2 _ op a b =>
      if decide (op = NOT) then inner ← formatNode a; OK (formatNot a inner)
      else
        left ← formatNode a;
        right ← formatNode b;
        OK (js "(" ++ left ++ js " " ++ OpLabel op ++ js " " ++ right ++ js ")")
  end.

(** ** collectSubexpressions *)

(** The closure [visit], over the captured [order] and [seen]. *)
Definition record (n : node) (st : list (node * jsstring) * gset jsstring)
  : result (list (node * jsstring) * gset jsstring) :=
  label ← formatNode n;
  if decide (label ∈ st.2) then OK st
  else OK (st.1 ++ [(n, label)], {[label]} ∪ st.2).

Fixpoint visit (n : node) (st : list (node * jsstring) * gset jsstring)
  : result (list (node * jsstring) * gset jsstring) :=
  match n with
  | NOp1 _ _ a => st1 ← visit a st; record n st1
  | NOp2 _ _ a b => st1 ← visit a st; st2 ← visit b st1; record n st2
  | _ => OK st
  end.

Definition collectSubexpressions (root : node) : result (list (node * jsstring)) :=
  st ← visit root ([], ∅);
  OK st.1.

(** ** computeValue *)

(** [env] is the object built by [renderTable] with [Object.create(null)];
    [cache] is the [Map] shared by the calls of one row and updated in
    place, so it is threaded through the result. *)
Fixpoint computeValue (n : node) (env : gmap jsstring bool) (cache : gmap Z bool)
  : result (bool * gmap Z bool) :=
  match cache !! nodeId n with
  | Some v => OK (v, cache)
  | None =>
      r ← match n with
          | NVar _ name =>
              match env !! name with
              | Some b => OK (b, cache)
              | None => Err (UnboundVariable name)
              end
          | NConst _ value => OK (value, cache)
          | NOp1 _ op a =>
              let info := Operators op in
              if (arity info =? 1)%nat then
                ra ← computeValue a env cache;
                OK (fn info ra.1 false, ra.2)
              else if (arity info =? 2)%nat then
                _ ← computeValue a env cache;
                Err TypeError
              else Err UnsupportedArity
          | NOp2 _ op a b =>
              let info := Operators op in
              if (arity info =? 1)%nat then
                ra ← computeValue a env cache;
                OK (fn info ra.1 false, ra.2)
              else if (arity info =? 2)%nat then
                ra ← computeValue a env cache;
                rb ← computeValue b env ra.2;
                OK (fn info ra.1 rb.1, rb.2)
              else Err UnsupportedArity
          end;
      OK (r.1, <[nodeId n := r.1]> r.2)
  end.

(** ** evalRPN *)

Definition evalRPNStep (env : gmap jsstring bool) (stack : list bool) (tok : token)
  : result (list bool) :=
  match tok with
  | TIdent name =>
      match env !! name with
      | Some b => OK (b :: stack)
      | None => Err (UnboundVariable name)
      end
  | TConst value _ => OK (value :: stack)
  | TOp value _ =>
      let info := Operators value in
      if (arity info =? 1)%nat then
        match stack with
        | a :: stack' => OK (fn info a false :: stack')
        | [] => Err MissingUnaryOperand
        end
      else if (arity info =? 2)%nat then
        match stack with
        | b :: a :: stack' => OK (fn info a b :: stack')
        | _ => Err MissingBinaryOperands
        end
      else Err UnsupportedArity
  | TLParen | TRParen => Err UnexpectedTokenInEvaluation
  end.

Fixpoint evalRPNLoop (env : gmap jsstring bool) (rpn : list token) (stack : list bool)
  : result (list bool) :=
  match rpn with
  | [] => OK stack
  | tok :: rpn' => stack' ← evalRPNStep env stack tok; evalRPNLoop env rpn' stack'
  end.

Definition evalRPN (rpn : list token) (env : gmap jsstring bool) : result bool :=
  stack ← evalRPNLoop env rpn [];
  match stack with
  | [v] => OK v
  | _ => Err LeftoverValues
  end.

(** ** uniqueVariables *)

(** [Set.prototype.add] on a [Set] read back in insertion order. *)
Definition setAdd (x : jsstring) (set : list jsstring) : list jsstring :=
  if decide (x ∈ set) then set else set ++ [x].

Fixpoint collectIdents (tokens : list token) (set : list jsstring) : list jsstring :=
  match tokens with
  | [] => set
  | TIdent value :: tokens' => collectIdents tokens' (setAdd value set)
  | _ :: tokens' => collectIdents tokens' set
  end.

Section WithCollation.

(** [String.prototype.localeCompare] is supplied by the host; the program
    is parameterised by it. *)
Variable localeCompare : jsstring → jsstring → Z.

(** [a] may stay in front of [b] under [sort((a,b) => a.localeCompare(b))]. *)
Definition collateLe (a b : jsstring) : Prop := localeCompare a b ≤ 0.

Global Instance collateLe_dec a b : Decision (collateLe a b).
Proof. unfold collateLe. apply _. Defined.

(** [Array.prototype.sort] is a stable sort by the comparator. *)
Definition uniqueVariables (tokens : list token) : list jsstring :=
  merge_sort collateLe (collectIdents tokens []).

End WithCollation.

(** ** renderTable *)

(** The 32-bit integer operators of JavaScript. *)
Definition toInt32 (x : Z) : Z := (x + 2 ^ 31) mod 2 ^ 32 - 2 ^ 31.
Definition jsShl (a b : Z) : Z := toInt32 (Z.shiftl (toInt32 a) (b mod 32)).
Definition jsSar (a b : Z) : Z := Z.shiftr (toInt32 a) (b mod 32).
Definition jsAnd (a b : Z) : Z := toInt32 (Z.land (toInt32 a) (toInt32 b)).

Inductive RowOrder : Type := F_FIRST | T_FIRST.

Record Options : Type := mkOptions {
  showTF : bool;
  showRowIndex : bool;
  showSteps : bool;
  rowOrder : RowOrder
}.

(** What [renderTable] puts into the document: the header cells and one
    record per body row.  A value cell carries its boolean; its class name
    and text are [cellText] of it. *)
Record TableRow : Type := mkRow {
  indexCell : option Z;
  varCells : list bool;
  stepCells : list bool;
  resultCell : bool
}.

Record Table : Type := mkTable {
  indexHeader : bool;
  varHeaders : list jsstring;
  stepHeaders : list jsstring;
  bodyRows : list TableRow
}.

Definition cellText (showTF val : bool) : jsstring :=
  if showTF then (if val then js "T" else js "F") else (if val then js "1" else js "0").

(** [1 << vars.length] *)
Definition rowCount (vars : list jsstring) : Z := jsShl 1 (Z.of_nat (length vars)).

(** The value given to [vars[j]] in row [i]; [n] is [vars.length]. *)
Definition assignedValue (order : RowOrder) (n i j : Z) : bool :=
  let bit := jsAnd (jsSar i (n - j - 1)) 1 in
  match order with F_FIRST => bit =? 1 | T_FIRST => bit =? 0 end.

(** The inner loop [for (let j = 0; j < vars.length; j++)], from index [j]
    on. *)
Fixpoint assignFrom (order : RowOrder) (n i j : Z) (vars : list jsstring)
  (env : gmap jsstring bool) : gmap jsstring bool :=
  match vars with
  | [] => env
  | v :: vars' =>
      assignFrom order n i (j + 1) vars' (<[v := assignedValue order n i j]> env)
  end.

Definition rowEnv (order : RowOrder) (vars : list jsstring) (i : Z) : gmap jsstring bool :=
  assignFrom order (Z.of_nat (length vars)) i 0 vars ∅.

(** The step cells of one row: [computeValue] on every step node, all
    sharing the row's [cache]. *)
Fixpoint stepValues (steps : list (node * jsstring)) (env : gmap jsstring bool)
  (cache : gmap Z bool) : result (list bool) :=
  match steps with
  | [] => OK []
  | (n, _) :: steps' =>
      r ← computeValue n env cache;
      rest ← stepValues steps' env r.2;
      OK (r.1 :: rest)
  end.

(** The [try] block of a row. *)
Definition rowValue (opts : Options) (ast : option node) (rpn : list token)
  (env : gmap jsstring bool) : result bool :=
  _ ← (if showSteps opts
       then match ast with Some _ => OK () | None => _ ← rpnToAst rpn; OK () end
       else OK ());
  evalRPN rpn env.

Definition renderRow (vars : list jsstring) (rpn : list token) (opts : Options)
  (ast : option node) (steps : list (node * jsstring)) (i : Z) : result TableRow :=
  let env := rowEnv (rowOrder opts) vars i in
  let value := tryCatch (rowValue opts ast rpn env) false in
  svals ← (if showSteps opts then stepValues steps env ∅ else OK []);
  OK (mkRow (if showRowIndex opts then Some (i + 1) else None)
            ((λ v, default false (env !! v)) <$> vars)
            svals value).

(** The body loop [for (let i = 0; i < rowCount; i++)]: an exception in a
    row leaves the loop. *)
Fixpoint renderRows (row : Z → result TableRow) (indices : list Z) : result (list TableRow) :=
  match indices with
  | [] => OK []
  | i :: indices' => r ← row i; rest ← renderRows row indices'; OK (r :: rest)
  end.

Definition renderTable (vars : list jsstring) (rpn : list token) (opts : Options)
  : result Table :=
  prep ← (if showSteps opts
          then ast ← rpnToAst rpn; steps ← collectSubexpressions ast; OK (Some ast, steps)
          else OK (None, []));
  rows ← renderRows (renderRow vars rpn opts prep.1 prep.2) (seqZ 0 (rowCount vars));
  OK (mkTable (showRowIndex opts) vars (snd <$> prep.2) rows).

(** ** handleSubmit *)

(** [Err e] stands for [showError] with the message of [e]; the summary
    line and the form plumbing are left out. *)
Definition handleSubmit (localeCompare : jsstring → jsstring → Z)
  (exprInput : jsstring) (opts : Options) : result Table :=
  let expr := trim exprInput in
  if decide (expr = []) then Err EmptyExpression
  else
    tokens ← tokenize expr;
    let vars := uniqueVariables localeCompare tokens in
    if Z.of_nat (length vars) >? 12 then Err (TooManyVariables (Z.of_nat (length vars)))
    else
      rpn ← toRPN tokens;
      renderTable vars rpn opts.

(** The code-unit order, an instance of a collation. *)
Definition codeUnitCompare (a b : jsstring) : Z :=
  if decide (a = b) then 0 else if decide (lexico a b) then -1 else 1.

(** ** escapeHtml and updateSummary *)

(** [String.prototype.replaceAll] with a pattern of a single code unit and
    a replacement without [$]: every occurrence is replaced. *)
Fixpoint replaceAll (pattern : N) (replacement : jsstring) (s : jsstring) : jsstring :=
  match s with
  | [] => []
  | c :: s' => (if N.eqb c pattern then replacement else [c])
               ++ replaceAll pattern replacement s'
  end.

Definition escapeHtml (x : jsstring) : jsstring :=
  replaceAll (cu ">") (js "&gt;")
    (replaceAll (cu "<") (js "&lt;")
       (replaceAll (cu "&") (js "&amp;") x)).

(** [Array.prototype.join] on an array of strings. *)
Fixpoint join (sep : jsstring) (l : list jsstring) : jsstring :=
  match l with
  | [] => []
  | [x] => x
  | x :: l' => x ++ sep ++ join sep l'
  end.

(** The three values that [updateSummary] interpolates into the markup of
    the summary line: the text after [Variables:], the number after
    [Rows:] and the text after [Expression:]. *)
Record Summary : Type := mkSummary {
  variablesText : jsstring;
  rowsNumber : Z;
  expressionHtml : jsstring
}.

Definition updateSummary (expr : jsstring) (vars : list jsstring) : Summary :=
  let joined := join (js ", ") vars in
  mkSummary (if decide (joined = []) then js "(none)" else joined)
            (jsShl 1 (Z.of_nat (length vars)))
            (escapeHtml expr).


(** * Specification-side definitions

    The definitions below restate, in the words of the specification,
    what the functions above are compared with. *)

(** The pop rule of the parser: the stack top is an operator of higher
    precedence, or of equal precedence while the incoming operator is
    left-associative. *)
Definition popRule (op : OpKey) (top : token) : Prop :=
  ∃ topValue topRaw, top = TOp topValue topRaw
    ∧ (prec (Operators topValue) > prec (Operators op)
       ∨ (prec (Operators topValue) = prec (Operators op)
          ∧ assoc (Operators op) = AssocLeft)).

(** A node as [rpnToAst] builds it: one operand exactly for the arity-1
    operator, two for the others. *)
Fixpoint wfNode (n : node) : Prop :=
  match n with
  | NVar _ _ | NConst _ _ => True
  | NOp1 _ op a => arity (Operators op) = 1%nat ∧ wfNode a
  | NOp2 _ op a b => arity (Operators op) = 2%nat ∧ wfNode a ∧ wfNode b
  end.

(** The canonical rendering. *)
Fixpoint render (n : node) : jsstring :=
  match n with
  | NVar _ name => name
  | NConst _ value => if value then js "T" else js "F"
  | NOp1 _ _ a => js "!" ++ (if isOpNode a then js "(" ++ render a ++ js ")" else render a)
  | NOp2 _ op a b => js "(" ++ render a ++ js " " ++ OpLabel op ++ js " " ++ render b ++ js ")"
  end.

(** The combinator nodes in post-order: operands before their combinator. *)
Fixpoint postorderOps (n : node) : list node :=
  match n with
  | NVar _ _ | NConst _ _ => []
  | NOp1 _ _ a => postorderOps a ++ [n]
  | NOp2 _ _ a b => postorderOps a ++ postorderOps b ++ [n]
  end.

Definition labelled (nodes : list node) : list (node * jsstring) :=
  (λ n, (n, render n)) <$> nodes.

(** Keep an entry only where its label occurs for the first time. *)
Fixpoint firstOccurrences (seen : gset jsstring) (l : list (node * jsstring))
  : list (node * jsstring) :=
  match l with
  | [] => []
  | x :: l' =>
      if decide (x.2 ∈ seen) then firstOccurrences seen l'
      else x :: firstOccurrences ({[x.2]} ∪ seen) l'
  end.

(** A node and all its descendants. *)
Fixpoint subnodes (n : node) : list node :=
  n :: match n with
       | NVar _ _ | NConst _ _ => []
       | NOp1 _ _ a => subnodes a
       | NOp2 _ _ a b => subnodes a ++ subnodes b
       end.

(** The truth value of a node under an assignment, by the truth
    functions of the registry; [None] when a variable is unbound. *)
Fixpoint nodeValue (env : gmap jsstring bool) (n : node) : option bool :=
  match n with
  | NVar _ name => env !! name
  | NConst _ value => Some value
  | NOp1 _ op a => va ← nodeValue env a; Some (fn (Operators op) va false)
  | NOp2 _ op a b =>
      va ← nodeValue env a; vb ← nodeValue env b; Some (fn (Operators op) va vb)
  end.

(** The variable names of a node. *)
Fixpoint nodeVars (n : node) : list jsstring :=
  match n with
  | NVar _ name => [name]
  | NConst _ _ => []
  | NOp1 _ _ a => nodeVars a
  | NOp2 _ _ a b => nodeVars a ++ nodeVars b
  end.

(** The labels of a list of entries, as a set. *)
Definition labelSet (l : list (node * jsstring)) : gset jsstring :=
  list_to_set (snd <$> l).

(** All nodes reachable from a stack of nodes. *)
Fixpoint forest (stack : list node) : list node :=
  match stack with
  | [] => []
  | n :: stack' => subnodes n ++ forest stack'
  end.

(** A cache is sound for the nodes [U] when every entry stored under the
    identity of a node of [U] is the value of that node. *)
Definition cacheSound (env : gmap jsstring bool) (U : list node) (cache : gmap Z bool)
  : Prop :=
  ∀ m v, m ∈ U → cache !! nodeId m = Some v → nodeValue env m = Some v.

(** The value stack of [evalRPN] holds the values of the node stack of
    [rpnToAst]. *)
Definition stackRel (env : gmap jsstring bool) (values : list bool) (nodes : list node)
  : Prop :=
  Forall2 (λ v n, nodeValue env n = Some v) values nodes.

(** The loop of [tokenize] on the suffix [rest], with the bound that
    [tokenize] gives it. *)
Definition tokenizeFrom (rest : jsstring) (i : Z) (tokens : list token)
  : result (list token) :=
  tokenizeLoop (length rest) rest i tokens.

(** A name that the tokenizer reads as an identifier: a word that starts
    with none of the operator lexemes and is neither a constant word nor
    an operator word. *)
Definition isIdentifier (x : jsstring) : bool :=
  match x with
  | [] => false
  | ch :: tl =>
      isIdentStart ch && forallb isIdentPart tl
      && bool_decide (matchOperatorAt x = None)
      && bool_decide (classifyWord x = TIdent x)
  end.

(** What follows a word in the text: nothing, or a code unit that cannot
    continue the word. *)
Definition delimited (rest : jsstring) : Prop :=
  match rest with
  | [] => True
  | c :: _ => isIdentPart c = false
  end.

(** The tokens of the canonical rendering of a node. *)
Fixpoint tokensOf (n : node) : list token :=
  match n with
  | NVar _ name => [TIdent name]
  | NConst _ value => [TConst value (if value then js "T" else js "F")]
  | NOp1 _ _ a =>
      TOp NOT (js "!")
      :: (if isOpNode a then TLParen :: tokensOf a ++ [TRParen] else tokensOf a)
  | NOp2 _ op a b =>
      TLParen :: tokensOf a ++ [TOp op (OpLabel op)] ++ tokensOf b ++ [TRParen]
  end.

(** The postfix sequence of a node, with the tokens of its rendering. *)
Fixpoint postfixOf (n : node) : list token :=
  match n with
  | NVar _ name => [TIdent name]
  | NConst _ value => [TConst value (if value then js "T" else js "F")]
  | NOp1 _ _ a => postfixOf a ++ [TOp NOT (js "!")]
  | NOp2 _ op a b => postfixOf a ++ postfixOf b ++ [TOp op (OpLabel op)]
  end.

(** While the tokens of a [NOT] node are read, its operator waits on the
    operator stack and its operand is already in the output. *)
Definition pendingOf (n : node) : list token :=
  match n with
  | NOp1 _ _ _ => [TOp NOT (js "!")]
  | _ => []
  end.

Definition emittedOf (n : node) : list token :=
  match n with
  | NOp1 _ _ a => postfixOf a
  | _ => postfixOf n
  end.

(** The text of a token in the input: its [raw] field, or its [value]
    where the source stores no [raw] (parentheses and identifiers). *)
Definition tokenText (tok : token) : jsstring :=
  match tok with
  | TLParen => js "("
  | TRParen => js ")"
  | TOp _ raw => raw
  | TConst _ raw => raw
  | TIdent value => value
  end.

(** What the lexeme tables say about a token. *)
Definition classified (tok : token) : Prop :=
  match tok with
  | TLParen | TRParen => True
  | TOp op raw => lookupLexeme OperatorLexemes (toLowerCase raw) = Some op
  | TConst value raw => lookupLexeme ConstLexemes (toLowerCase raw) = Some value
  | TIdent name =>
      lookupLexeme ConstLexemes (toLowerCase name) = None
      ∧ lookupLexeme OperatorLexemes (toLowerCase name) = None
  end.

(** The nesting depth after [tokens], starting at [depth]; [None] when a
    right parenthesis has no left parenthesis to close. *)
Fixpoint parenDepth (tokens : list token) (depth : nat) : option nat :=
  match tokens with
  | [] => Some depth
  | TLParen :: tokens' => parenDepth tokens' (S depth)
  | TRParen :: tokens' =>
      match depth with
      | O => None
      | S depth' => parenDepth tokens' depth'
      end
  | _ :: tokens' => parenDepth tokens' depth
  end.

Definition isParenToken (tok : token) : bool :=
  match tok with
  | TLParen | TRParen => true
  | _ => false
  end.

Definition isOperandToken (tok : token) : bool :=
  match tok with
  | TIdent _ | TConst _ _ => true
  | _ => false
  end.

(** The number of left parentheses on the operator stack. *)
Definition openCount (ops : list token) : nat :=
  length (filter (λ t, t = TLParen) ops).

(** A token without its surface text. *)
Definition eraseRaw (tok : token) : token :=
  match tok with
  | TOp value _ => TOp value []
  | TConst value _ => TConst value []
  | _ => tok
  end.

(** A tree read in post-order, as tokens without surface text. *)
Fixpoint postorderTokens (n : node) : list token :=
  match n with
  | NVar _ name => [TIdent name]
  | NConst _ value => [TConst value []]
  | NOp1 _ op a => postorderTokens a ++ [TOp op []]
  | NOp2 _ op a b => postorderTokens a ++ postorderTokens b ++ [TOp op []]
  end.

(** A token of an operator that takes two operands. *)
Definition isBinaryToken (tok : token) : bool :=
  match tok with
  | TOp value _ => (arity (Operators value) =? 2)%nat
  | _ => false
  end.

(** What [escapeHtml] makes of one code unit. *)
Definition escapeUnit (c : N) : jsstring :=
  if N.eqb c (cu "&") then js "&amp;"
  else if N.eqb c (cu "<") then js "&lt;"
  else if N.eqb c (cu ">") then js "&gt;"
  else [c].

(** A code unit that starts markup or an entity. *)
Definition isMarkupUnit (c : N) : bool :=
  (N.eqb c (cu "&") || N.eqb c (cu "<") || N.eqb c (cu ">"))%bool.

(** An expression as it is written: operands, parenthesised expressions,
    negations and binary combinations, the operators with their surface
    text. *)
Inductive surface : Type :=
  | SAtom (tok : token)
  | SParen (e : surface)
  | SNot (raw : jsstring) (e : surface)
  | SBin (op : OpKey) (raw : jsstring) (l r : surface).

(** The tokens of a written expression, left to right. *)
Fixpoint surfaceTokens (e : surface) : list token :=
  match e with
  | SAtom tok => [tok]
  | SParen e => TLParen :: surfaceTokens e ++ [TRParen]
  | SNot raw e => TOp NOT raw :: surfaceTokens e
  | SBin op raw l r => surfaceTokens l ++ TOp op raw :: surfaceTokens r
  end.

(** Its postfix form: operands before their operator, left before right. *)
Fixpoint surfacePostfix (e : surface) : list token :=
  match e with
  | SAtom tok => [tok]
  | SParen e => surfacePostfix e
  | SNot raw e => surfacePostfix e ++ [TOp NOT raw]
  | SBin op raw l r => surfacePostfix l ++ surfacePostfix r ++ [TOp op raw]
  end.

(** The precedence of the operator at the top of a written expression;
    an operand or a parenthesised expression binds tighter than any
    operator. *)
Definition bindingLevel (e : surface) : Z :=
  match e with
  | SAtom _ | SParen _ => 6
  | SNot _ _ => prec (Operators NOT)
  | SBin op _ _ _ => prec (Operators op)
  end.

(** A written expression needs no further parentheses: an operand of a
    negation binds at least as tight as the negation, and an operand of a
    binary operator binds tighter than the operator, or as tight on the
    side to which the operator associates. *)
Fixpoint precedenceOk (e : surface) : Prop :=
  match e with
  | SAtom tok => isOperandToken tok = true
  | SParen e => precedenceOk e
  | SNot _ e => prec (Operators NOT) ≤ bindingLevel e ∧ precedenceOk e
  | SBin op _ l r =>
      op ≠ NOT
      ∧ match assoc (Operators op) with
        | AssocLeft => prec (Operators op) ≤ bindingLevel l ∧ prec (Operators op) < bindingLevel r
        | AssocRight => prec (Operators op) < bindingLevel l ∧ prec (Operators op) ≤ bindingLevel r
        end
      ∧ precedenceOk l ∧ precedenceOk r
  end.

(** The operators of a written expression that are still on the operator
    stack when its last token has been read, top first, and the tokens
    that have reached the output by then. *)
Fixpoint pendingS (e : surface) : list token :=
  match e with
  | SAtom _ | SParen _ => []
  | SNot raw e => pendingS e ++ [TOp NOT raw]
  | SBin op raw _ r => pendingS r ++ [TOp op raw]
  end.

Fixpoint emittedS (e : surface) : list token :=
  match e with
  | SAtom tok => [tok]
  | SParen e => surfacePostfix e
  | SNot _ e => emittedS e
  | SBin _ _ l r => surfacePostfix l ++ emittedS r
  end.

(** The operator stack lets an expression of level [l] be read: no
    operator of that level or above pops its top. *)
Definition stackAdmits (l : Z) (ops : list token) : Prop :=
  ∀ t r, head ops = Some (TOp t r) →
    prec (Operators t) < l ∨ (prec (Operators t) = l ∧ assoc (Operators t) = AssocRight).

(** The truth value of a written expression under an assignment, by the
    usual connectives; [None] when a variable is unbound. *)
Fixpoint surfaceValue (env : gmap jsstring bool) (e : surface) : option bool :=
  match e with
  | SAtom (TIdent name) => env !! name
  | SAtom (TConst value _) => Some value
  | SAtom _ => None
  | SParen e => surfaceValue env e
  | SNot _ e => negb <$> surfaceValue env e
  | SBin op _ l r =>
      a ← surfaceValue env l;
      b ← surfaceValue env r;
      match op with
      | AND => Some (a && b)
      | OR => Some (a || b)
      | XOR => Some (xorb a b)
      | IMP => Some (implb a b)
      | IFF => Some (Bool.eqb a b)
      | NOT => None
      end
  end.

(** The errors that the handler can report; those of [rpnToAst] only when
    the step columns are on. *)
Definition isReported (steps : bool) (e : error) : bool :=
  match e with
  | EmptyExpression | UnexpectedNumber _ | UnexpectedCharacter _ _
  | TooManyVariables _ | MissingLeftParen | MismatchedParentheses => true
  | MissingUnaryOperand | MissingBinaryOperands | CouldNotBuildAst => steps
  | _ => false
  end.

(** All nodes of a tree in post-order: operands before their operator,
    left before right. *)
Fixpoint postorder (n : node) : list node :=
  match n with
  | NVar _ _ | NConst _ _ => [n]
  | NOp1 _ _ a => postorder a ++ [n]
  | NOp2 _ _ a b => postorder a ++ postorder b ++ [n]
  end.

(** The token that a node was made from, without its surface text. *)
Definition nodeToken (n : node) : token :=
  match n with
  | NVar _ name => TIdent name
  | NConst _ value => TConst value []
  | NOp1 _ op _ | NOp2 _ op _ _ => TOp op []
  end.

(** * Properties *)

(** ** The result monad *)

Lemma bind_OK {A B} (m : result A) (f : A → result B) (b : B) :
  m ≫= f = OK b ↔ ∃ a, m = OK a ∧ f a = OK b.
Proof.
  destruct m as [a|e]; simpl.
  - split; [eauto | intros (a' & [= <-] & H); exact H].
  - split; [discriminate | intros (a' & [=] & _)].
Qed.

Lemma bind_Err {A B} (m : result A) (f : A → result B) (e : error) :
  m = Err e → m ≫= f = Err e.
Proof. intros ->. reflexivity. Qed.

Lemma isOK_true {A} (r : result A) : isOK r = true ↔ ∃ a, r = OK a.
Proof.
  destruct r; simpl; split; eauto; try discriminate.
  intros [a [=]].
Qed.

(** ** The operator registry *)

Lemma arity_cases k : (k = NOT ∧ arity (Operators k) = 1%nat)
                      ∨ (k ≠ NOT ∧ arity (Operators k) = 2%nat).
Proof. destruct k; simpl; [left | right ..]; done. Qed.

(** ** tokenize on concrete inputs *)

(** C6. The input ["a & "] passes [tokenize] and [toRPN]; on the postfix
    sequence they yield, [rpnToAst] raises the missing-operands error, and
    [evalRPN] raises under every assignment: the missing-operands error
    when [a] is bound, the unbound-variable error otherwise. *)
Theorem trailing_operator_rejected :
  let a := TIdent (js "a") in
  let amp := TOp AND (js "&") in
  tokenize (js "a & ") = OK [a; amp]
  ∧ toRPN [a; amp] = OK [a; amp]
  ∧ rpnToAst [a; amp] = Err MissingBinaryOperands
  ∧ ∀ env : gmap jsstring bool,
      evalRPN [a; amp] env
      = Err (match env !! js "a" with
             | Some _ => MissingBinaryOperands
             | None => UnboundVariable (js "a")
             end).
Proof.
  repeat split; try reflexivity.
  intros env. unfold evalRPN. cbn.
  destruct (env !! _); reflexivity.
Qed.

(** C4, on the source as written: ["<=>"] is one [IFF] token, but
    ["impliesX"] is split into the operator [implies] and the identifier
    [X], because [matchOperatorAt] tries the word lexemes as prefixes
    before the identifier branch reads the whole word. *)
Theorem tokenize_word_operator_prefix :
  tokenize (js "<=>") = OK [TOp IFF (js "<=>")]
  ∧ tokenize (js "impliesX") = OK [TOp IMP (js "implies"); TIdent (js "X")]
  ∧ tokenize (js "ImpliesX") = OK [TIdent (js "ImpliesX")]
  ∧ tokenize (js "Implies") = OK [TOp IMP (js "Implies")].
Proof. repeat split; reflexivity. Qed.

(** ** toRPN: the pop rule *)

Lemma popsBefore_popRule op topValue topRaw :
  popsBefore (Operators topValue) (Operators op) = true
  ↔ popRule op (TOp topValue topRaw).
Proof.
  unfold popsBefore, popRule. split.
  - intros H. exists topValue, topRaw. split; [done|].
    apply orb_true_iff in H as [H|H].
    + left. lia.
    + apply andb_true_iff in H as [H1 H2].
      apply bool_decide_eq_true in H2. right. split; [lia | done].
  - intros (v & r & [= <- <-] & [H|[H1 H2]]).
    + apply orb_true_iff. left. lia.
    + apply orb_true_iff. right. apply andb_true_iff. split; [lia|].
      by apply bool_decide_eq_true.
Qed.

Lemma popOperators_spec op output ops :
  ∃ popped rest,
    ops = popped ++ rest
    ∧ Forall (popRule op) popped
    ∧ (∀ t, head rest = Some t → ¬ popRule op t)
    ∧ popOperators (Operators op) output ops = (output ++ popped, rest).
Proof.
  assert (Hstop : ∀ output ops,
    (∀ t, head ops = Some t → ¬ popRule op t) →
    popOperators (Operators op) output ops = (output, ops) →
    ∃ popped rest, ops = popped ++ rest ∧ Forall (popRule op) popped
      ∧ (∀ t, head rest = Some t → ¬ popRule op t)
      ∧ popOperators (Operators op) output ops = (output ++ popped, rest)).
  { intros out os Hh Hp. exists [], os. rewrite app_nil_r.
    split; [done|]. split; [constructor|]. split; done. }
  revert output. induction ops as [|top ops IH]; intros output.
  - apply Hstop; [discriminate | done].
  - destruct top as [| |topValue topRaw|v r|x];
      try (apply Hstop; [intros t [= <-] (? & ? & [=] & _) | done]).
    simpl. destruct (popsBefore _ _) eqn:E.
    + destruct (IH (output ++ [TOp topValue topRaw]))
        as (popped & rest & -> & HF & Hh & ->).
      exists (TOp topValue topRaw :: popped), rest.
      rewrite <- app_assoc. split; [done|]. split; [|done].
      constructor; [|done]. by eapply popsBefore_popRule.
    + exists [], (TOp topValue topRaw :: ops). rewrite app_nil_r.
      split; [done|]. split; [constructor|]. split; [|done].
      intros t [= <-] H. eapply popsBefore_popRule in H. congruence.
Qed.

(** C5. Reading an operator token pops, from the top of the stack to the
    output, exactly the longest run of operators that satisfy the pop rule
    (higher precedence, or equal precedence with the incoming operator
    left-associative), then pushes the token; the precedences and
    associativities are those of the registry table. *)
Theorem shunting_yard_pop_rule :
  (prec (Operators NOT) = 5 ∧ assoc (Operators NOT) = AssocRight)
  ∧ (prec (Operators AND) = 4 ∧ assoc (Operators AND) = AssocLeft)
  ∧ (prec (Operators XOR) = 3 ∧ assoc (Operators XOR) = AssocLeft)
  ∧ (prec (Operators OR) = 2 ∧ assoc (Operators OR) = AssocLeft)
  ∧ (prec (Operators IMP) = 1 ∧ assoc (Operators IMP) = AssocRight)
  ∧ (prec (Operators IFF) = 0 ∧ assoc (Operators IFF) = AssocLeft)
  ∧ ∀ (op : OpKey) (raw : jsstring) (output ops : list token),
      ∃ popped rest,
        ops = popped ++ rest
        ∧ Forall (popRule op) popped
        ∧ match rest with [] => True | top :: _ => ¬ popRule op top end
        ∧ toRPNStep (output, ops) (TOp op raw)
          = OK (output ++ popped, TOp op raw :: rest).
Proof.
  do 6 (split; [split; reflexivity|]).
  intros op raw output ops.
  destruct (popOperators_spec op output ops) as (popped & rest & Hops & HF & Hh & Hp).
  exists popped, rest. split; [done|]. split; [done|]. split.
  - destruct rest as [|top rest]; [done | by apply Hh].
  - simpl. by rewrite Hp.
Qed.

(** ** formatNode and collectSubexpressions *)

Lemma formatNode_render n : wfNode n → formatNode n = OK (render n).
Proof.
  induction n as [id name|id value|id op a IHa|id op a IHa b IHb]; simpl; try done.
  - intros [Har Ha]. destruct (arity_cases op) as [[-> _]|[_ H2]]; [|congruence].
    rewrite decide_True by done. by rewrite (IHa Ha).
  - intros (Har & Ha & Hb). destruct (arity_cases op) as [[-> H1]|[Hne _]].
    + simpl in Har. discriminate.
    + rewrite decide_False by done. by rewrite (IHa Ha), (IHb Hb).
Qed.

Lemma wfNode_postorderOps n m : wfNode n → m ∈ postorderOps n → wfNode m.
Proof.
  induction n as [| |id op a IHa|id op a IHa b IHb]; simpl.
  - intros _ H. by apply elem_of_nil in H.
  - intros _ H. by apply elem_of_nil in H.
  - intros [Har Ha] H. apply elem_of_app in H as [H|H]; [by apply IHa|].
    apply list_elem_of_singleton in H as ->. simpl. done.
  - intros (Har & Ha & Hb) H.
    apply elem_of_app in H as [H|H]; [by apply IHa|].
    apply elem_of_app in H as [H|H]; [by apply IHb|].
    apply list_elem_of_singleton in H as ->. simpl. done.
Qed.

Lemma firstOccurrences_app seen l1 l2 :
  firstOccurrences seen (l1 ++ l2)
  = firstOccurrences seen l1 ++ firstOccurrences (labelSet l1 ∪ seen) l2.
Proof.
  revert seen. induction l1 as [|x l1 IH]; intros seen; simpl.
  - f_equal. unfold labelSet. simpl. set_solver.
  - unfold labelSet in *. simpl. destruct (decide (x.2 ∈ seen)) as [Hin|Hnin].
    + rewrite IH. do 2 f_equal. set_solver.
    + simpl. rewrite IH. do 3 f_equal. set_solver.
Qed.

Lemma record_spec n order seen :
  wfNode n →
  record n (order, seen)
  = OK (order ++ firstOccurrences seen (labelled [n]), labelSet (labelled [n]) ∪ seen).
Proof.
  intros Hwf. unfold record. rewrite (formatNode_render n Hwf). simpl.
  unfold labelSet. simpl. destruct (decide (render n ∈ seen)).
  - rewrite app_nil_r. do 2 f_equal. set_solver.
  - do 2 f_equal. set_solver.
Qed.

Lemma union_swap (A B C : gset jsstring) : A ∪ (B ∪ C) = B ∪ A ∪ C.
Proof. set_solver. Qed.

Lemma labelled_app l1 l2 : labelled (l1 ++ l2) = labelled l1 ++ labelled l2.
Proof. unfold labelled. apply fmap_app. Qed.

Lemma labelSet_app l1 l2 : labelSet (l1 ++ l2) = labelSet l1 ∪ labelSet l2.
Proof. unfold labelSet. by rewrite fmap_app, list_to_set_app_L. Qed.

Lemma labelSet_nil : labelSet [] = ∅.
Proof. reflexivity. Qed.

Lemma visit_spec n : wfNode n → ∀ order seen,
  visit n (order, seen)
  = OK (order ++ firstOccurrences seen (labelled (postorderOps n)),
        labelSet (labelled (postorderOps n)) ∪ seen).
Proof.
  induction n as [| |id op a IHa|id op a IHa b IHb]; intros Hwf order seen.
  - simpl. rewrite app_nil_r, labelSet_nil, (left_id_L ∅ (∪)). done.
  - simpl. rewrite app_nil_r, labelSet_nil, (left_id_L ∅ (∪)). done.
  - pose proof Hwf as [Har Ha].
    change (visit (NOp1 id op a) (order, seen))
      with (visit a (order, seen) ≫= record (NOp1 id op a)).
    rewrite (IHa Ha). simpl mbind. unfold result_bind.
    rewrite record_spec by done.
    change (postorderOps (NOp1 id op a)) with (postorderOps a ++ [NOp1 id op a]).
    rewrite labelled_app, firstOccurrences_app, labelSet_app, <- app_assoc.
    do 2 f_equal. apply union_swap.
  - pose proof Hwf as (Har & Ha & Hb).
    change (visit (NOp2 id op a b) (order, seen))
      with (visit a (order, seen) ≫= λ st1, visit b st1 ≫= record (NOp2 id op a b)).
    rewrite (IHa Ha). simpl mbind. unfold result_bind.
    rewrite (IHb Hb). cbn [mbind result_bind].
    rewrite record_spec by done.
    change (postorderOps (NOp2 id op a b))
      with (postorderOps a ++ postorderOps b ++ [NOp2 id op a b]).
    rewrite !labelled_app, !firstOccurrences_app, !labelSet_app, <- !app_assoc.
    do 2 f_equal.
    generalize (labelSet (labelled (postorderOps a))) (labelSet (labelled (postorderOps b)))
      (labelSet (labelled [NOp2 id op a b])).
    clear. intros A B C. set_solver.
Qed.

Lemma firstOccurrences_labels seen l :
  NoDup (snd <$> firstOccurrences seen l)
  ∧ (∀ x, x ∈ snd <$> firstOccurrences seen l → x ∉ seen)
  ∧ (∀ x, x ∈ snd <$> firstOccurrences seen l → x ∈ snd <$> l)
  ∧ (∀ x, x ∈ snd <$> l → x ∈ seen ∨ x ∈ snd <$> firstOccurrences seen l).
Proof.
  revert seen. induction l as [|[n lab] l IH]; intros seen; simpl.
  - split; [constructor|]. split; [|split]; intros x H; by apply elem_of_nil in H.
  - destruct (decide (lab ∈ seen)) as [Hin|Hnin];
      [destruct (IH seen) as (Hnd & Hfresh & Hsub & Hcov)
      |destruct (IH ({[lab]} ∪ seen)) as (Hnd & Hfresh & Hsub & Hcov)].
    + split; [done|]. split; [done|]. split.
      * intros x Hx. apply elem_of_cons. right. by apply Hsub.
      * intros x Hx. apply elem_of_cons in Hx as [->|Hx]; [by left | by apply Hcov].
    + simpl. split; [|split; [|split]].
      * constructor; [|done]. intros Hx. apply Hfresh in Hx. set_solver.
      * intros x Hx. apply elem_of_cons in Hx as [->|Hx]; [done|].
        apply Hfresh in Hx. set_solver.
      * intros x Hx. apply elem_of_cons in Hx as [->|Hx]; apply elem_of_cons;
          [by left | right; by apply Hsub].
      * intros x Hx. apply elem_of_cons in Hx as [->|Hx].
        { right. apply elem_of_cons. by left. }
        destruct (Hcov x Hx) as [H|H].
        { apply elem_of_union in H as [H|H].
          - apply elem_of_singleton in H as ->. right. apply elem_of_cons. by left.
          - by left. }
        right. apply elem_of_cons. by right.
Qed.

(** ** rpnToAst: the shape of what it builds *)

Lemma rpnToAstStep_inv nextId stack tok st' :
  rpnToAstStep (nextId, stack) tok = OK st' →
  (∃ name, tok = TIdent name ∧ st' = (nextId + 1, NVar nextId name :: stack))
  ∨ (∃ value raw, tok = TConst value raw ∧ st' = (nextId + 1, NConst nextId value :: stack))
  ∨ (∃ op raw a stack0, tok = TOp op raw ∧ arity (Operators op) = 1%nat
       ∧ stack = a :: stack0 ∧ st' = (nextId + 1, NOp1 nextId op a :: stack0))
  ∨ (∃ op raw a b stack0, tok = TOp op raw ∧ arity (Operators op) = 2%nat
       ∧ stack = b :: a :: stack0 ∧ st' = (nextId + 1, NOp2 nextId op a b :: stack0)).
Proof.
  destruct tok as [| |op raw|value raw|name]; simpl; try discriminate.
  - destruct (arity_cases op) as [[-> H]|[Hne H]]; rewrite H; simpl.
    + destruct stack as [|a stack0]; [discriminate|]. intros [= <-].
      right; right; left. by exists NOT, raw, a, stack0.
    + destruct stack as [|b [|a stack0]]; try discriminate. intros [= <-].
      right; right; right. by exists op, raw, a, b, stack0.
  - intros [= <-]. right; left. eauto.
  - intros [= <-]. left. eauto.
Qed.

(** A property of the node stack that every step of the loop preserves
    holds of the final stack. *)
Lemma rpnToAstLoop_invariant (P : Z → list node → Prop) rpn :
  (∀ nextId stack tok st', tok ∈ rpn → P nextId stack →
     rpnToAstStep (nextId, stack) tok = OK st' → P st'.1 st'.2) →
  ∀ nextId stack st',
    P nextId stack → rpnToAstLoop rpn (nextId, stack) = OK st' → P st'.1 st'.2.
Proof.
  induction rpn as [|tok rpn IH]; intros Hstep nextId stack st' HP; simpl.
  - by intros [= <-].
  - intros H. apply bind_OK in H as ([nid1 stack1] & Hs & Hl).
    eapply (IH (λ n s t s' Hin, Hstep n s t s' (list_elem_of_further _ _ _ Hin)));
      [|exact Hl].
    apply (Hstep nextId stack tok (nid1, stack1)); [apply list_elem_of_here|done..].
Qed.

Lemma rpnToAst_inv rpn root :
  rpnToAst rpn = OK root → ∃ nextId, rpnToAstLoop rpn (1, []) = OK (nextId, [root]).
Proof.
  unfold rpnToAst. intros H. apply bind_OK in H as ([nid stack] & Hl & H).
  simpl in H. destruct stack as [|r [|]]; try discriminate.
  injection H as <-. eauto.
Qed.

Lemma rpnToAst_wf rpn root : rpnToAst rpn = OK root → wfNode root.
Proof.
  intros H. apply rpnToAst_inv in H as [nid H].
  apply (rpnToAstLoop_invariant (λ _ stack, Forall wfNode stack) rpn) in H.
  - simpl in H. by apply Forall_cons in H as [H _].
  - clear. intros nid stack tok st' _ HP Hs.
    apply rpnToAstStep_inv in Hs
      as [(x & -> & ->)|[(v & r & -> & ->)|[(op & r & a & s0 & -> & Har & -> & ->)
         |(op & r & a & b & s0 & -> & Har & -> & ->)]]]; simpl.
    + by constructor.
    + by constructor.
    + apply Forall_cons in HP as [Ha Hs0]. by constructor.
    + apply Forall_cons in HP as [Hb HP]. apply Forall_cons in HP as [Ha Hs0].
      by constructor.
  - constructor.
Qed.

(** C7. For a tree built by [rpnToAst], [collectSubexpressions] lists the
    combinator nodes in post-order, each with its rendered label, keeping
    an entry only where its label occurs for the first time: the labels
    listed are pairwise distinct and every combinator's label is among
    them.  For the input [(a & b) | (a & b)] the label ["(a & b)"] is
    listed exactly once. *)
Theorem subexpressions_first_occurrence_by_label :
  (∀ rpn root, rpnToAst rpn = OK root →
     (∀ n, n ∈ postorderOps root → formatNode n = OK (render n))
     ∧ collectSubexpressions root
       = OK (firstOccurrences ∅ (labelled (postorderOps root)))
     ∧ NoDup (snd <$> firstOccurrences ∅ (labelled (postorderOps root)))
     ∧ (∀ n, n ∈ postorderOps root →
          render n ∈ snd <$> firstOccurrences ∅ (labelled (postorderOps root))))
  ∧ (∃ tokens rpn root steps,
       tokenize (js "(a & b) | (a & b)") = OK tokens
       ∧ toRPN tokens = OK rpn
       ∧ rpnToAst rpn = OK root
       ∧ collectSubexpressions root = OK steps
       ∧ snd <$> steps = [js "(a & b)"; js "((a & b) | (a & b))"]
       ∧ length (filter (λ label, label = js "(a & b)") (snd <$> steps)) = 1%nat).
Proof.
  split.
  - intros rpn root Hroot. pose proof (rpnToAst_wf _ _ Hroot) as Hwf.
    destruct (firstOccurrences_labels ∅ (labelled (postorderOps root)))
      as (Hnd & _ & _ & Hcov).
    split; [|split; [|split]].
    + intros n Hn. apply formatNode_render. by eapply wfNode_postorderOps.
    + unfold collectSubexpressions. rewrite visit_spec by done. reflexivity.
    + done.
    + intros n Hn. destruct (Hcov (render n)) as [H|H]; [|by apply elem_of_empty in H|done].
      unfold labelled. rewrite <- list_fmap_compose.
      apply list_elem_of_fmap. by exists n.
  - do 4 eexists. repeat (split; [vm_compute; reflexivity|]). vm_compute. reflexivity.
Qed.

Lemma subexpressions_first_occurrence_by_label_witness :
  let a := TIdent (js "a") in
  let rpn := [a; TOp NOT (js "!"); a; TOp NOT (js "!"); TOp AND (js "&")] in
  let root := NOp2 5 AND (NOp1 2 NOT (NVar 1 (js "a"))) (NOp1 4 NOT (NVar 3 (js "a"))) in
  rpnToAst rpn = OK root
  ∧ collectSubexpressions root = OK (firstOccurrences ∅ (labelled (postorderOps root))).
Proof.
  intros a rpn root. split; [reflexivity|].
  apply (proj1 subexpressions_first_occurrence_by_label rpn root eq_refl).
Defined.

(** ** The 32-bit operators *)

Lemma toInt32_small x : - 2 ^ 31 ≤ x < 2 ^ 31 → toInt32 x = x.
Proof. intros H. unfold toInt32. rewrite Z.mod_small; lia. Qed.

Lemma toInt32_testbit x k : 0 ≤ k < 32 → Z.testbit (toInt32 x) k = Z.testbit x k.
Proof.
  intros Hk. unfold toInt32.
  rewrite <- (Z.mod_pow2_bits_low _ 32 k) by lia.
  rewrite <- (Z.mod_pow2_bits_low x 32 k) by lia.
  f_equal.
  replace ((x + 2 ^ 31) mod 2 ^ 32 - 2 ^ 31)
    with ((x + 2 ^ 31) mod 2 ^ 32 + 2 ^ 31 + (-1) * 2 ^ 32) by lia.
  rewrite Z.mod_add by lia.
  rewrite Z.add_mod_idemp_l by lia.
  replace (x + 2 ^ 31 + 2 ^ 31) with (x + 1 * 2 ^ 32) by lia.
  by rewrite Z.mod_add by lia.
Qed.

Lemma jsAnd_1 a : jsAnd a 1 = Z.b2z (Z.testbit (toInt32 a) 0).
Proof.
  unfold jsAnd. rewrite (toInt32_small 1) by lia.
  change 1 with (Z.ones 1) at 1. rewrite Z.land_ones by lia.
  rewrite <- Z.bit0_mod. apply toInt32_small. destruct (Z.testbit _ _); simpl; lia.
Qed.

(** [(i >> s) & 1] is the bit of [i] at position [s mod 32]. *)
Lemma jsBit i s : jsAnd (jsSar i s) 1 = Z.b2z (Z.testbit i (s mod 32)).
Proof.
  assert (0 ≤ s mod 32 < 32) as Hs by (apply Z.mod_pos_bound; lia).
  rewrite jsAnd_1. f_equal. rewrite toInt32_testbit by lia.
  unfold jsSar. rewrite Z.shiftr_spec by lia. rewrite Z.add_0_l.
  by apply toInt32_testbit.
Qed.

Lemma assignedValue_testbit order n i j :
  assignedValue order n i j
  = match order with
    | F_FIRST => Z.testbit i ((n - j - 1) mod 32)
    | T_FIRST => negb (Z.testbit i ((n - j - 1) mod 32))
    end.
Proof.
  unfold assignedValue. rewrite jsBit.
  destruct order, (Z.testbit _ _); reflexivity.
Qed.

Lemma land_shiftr_1 i s : 0 ≤ s → Z.land (Z.shiftr i s) 1 = Z.b2z (Z.testbit i s).
Proof.
  intros Hs. change 1 with (Z.ones 1) at 1. rewrite Z.land_ones by lia.
  rewrite <- Z.bit0_mod, Z.shiftr_spec by lia. by rewrite Z.add_0_l.
Qed.

Lemma rowCount_small vars :
  (length vars ≤ 30)%nat → rowCount vars = 2 ^ Z.of_nat (length vars).
Proof.
  intros Hn. unfold rowCount, jsShl.
  rewrite (toInt32_small 1) by lia.
  rewrite Z.mod_small by lia. rewrite Z.shiftl_1_l.
  apply toInt32_small.
  assert (2 ^ Z.of_nat (length vars) ≤ 2 ^ 30) by (apply Z.pow_le_mono_r; lia).
  assert (0 < 2 ^ Z.of_nat (length vars)) by (apply Z.pow_pos_nonneg; lia).
  lia.
Qed.

(** ** Row assignments *)

Arguments assignedValue : simpl never.

Lemma assignFrom_notin order n i vars : ∀ j env v,
  v ∉ vars → assignFrom order n i j vars env !! v = env !! v.
Proof.
  induction vars as [|w vars IH]; intros j env v Hv; simpl; [done|].
  apply not_elem_of_cons in Hv as [Hne Hv].
  rewrite IH by done. by rewrite lookup_insert_ne.
Qed.

Lemma assignFrom_lookup order n i vars : ∀ j env k v,
  NoDup vars → vars !! k = Some v →
  assignFrom order n i j vars env !! v = Some (assignedValue order n i (j + Z.of_nat k)).
Proof.
  induction vars as [|w vars IH]; intros j env k v Hnd Hk; [done|].
  apply NoDup_cons in Hnd as [Hw Hnd]. destruct k as [|k]; simpl in *.
  - injection Hk as ->. rewrite assignFrom_notin by done.
    rewrite lookup_insert_eq. by rewrite Z.add_0_r.
  - rewrite (IH _ _ k v) by done. do 2 f_equal. lia.
Qed.

Lemma rowEnv_lookup order vars i k v :
  NoDup vars → vars !! k = Some v →
  rowEnv order vars i !! v
  = Some (assignedValue order (Z.of_nat (length vars)) i (Z.of_nat k)).
Proof.
  intros Hnd Hk. unfold rowEnv. by rewrite (assignFrom_lookup _ _ _ _ _ _ k v).
Qed.

Lemma rowEnv_dom order vars i v : v ∈ vars → is_Some (rowEnv order vars i !! v).
Proof.
  unfold rowEnv. generalize (Z.of_nat (length vars)), 0, (∅ : gmap jsstring bool).
  induction vars as [|w vars IH]; intros n j env Hv; [by apply elem_of_nil in Hv|].
  simpl. destruct (decide (v ∈ vars)) as [Hin|Hnin]; [by apply IH|].
  apply elem_of_cons in Hv as [->|Hv]; [|done].
  rewrite assignFrom_notin by done. rewrite lookup_insert_eq. eauto.
Qed.

Lemma assignFrom_complement n i vars : ∀ j env,
  assignFrom T_FIRST n i j vars (negb <$> env)
  = negb <$> assignFrom F_FIRST n i j vars env.
Proof.
  induction vars as [|w vars IH]; intros j env; simpl; [done|].
  rewrite <- IH. f_equal. rewrite fmap_insert. f_equal.
  rewrite !assignedValue_testbit. reflexivity.
Qed.

Lemma assignFrom_ext order1 order2 n i1 i2 vars : ∀ j env,
  (∀ k, j ≤ k < j + Z.of_nat (length vars) →
        assignedValue order1 n i1 k = assignedValue order2 n i2 k) →
  assignFrom order1 n i1 j vars env = assignFrom order2 n i2 j vars env.
Proof.
  induction vars as [|w vars IH]; intros j env H; simpl; [done|].
  simpl length in H. rewrite (H j) by lia. apply IH. intros k Hk. apply H. lia.
Qed.

Lemma testbit_mirror n i s :
  0 ≤ s < n → Z.testbit (2 ^ n - 1 - i) s = negb (Z.testbit i s).
Proof.
  intros Hs. rewrite <- Z.lnot_spec by lia.
  rewrite <- (Z.mod_pow2_bits_low (2 ^ n - 1 - i) n s) by lia.
  rewrite <- (Z.mod_pow2_bits_low (Z.lnot i) n s) by lia.
  f_equal. unfold Z.lnot.
  replace (2 ^ n - 1 - i) with (Z.pred (- i) + 1 * 2 ^ n) by lia.
  apply Z.mod_add. apply Z.pow_nonzero; lia.
Qed.

(** C10. For every variable list (of length [n]) and every row index [i]
    in [[0, 2^n)], the assignments of row [i] under the two orders bind
    exactly the variables of the list, the one under [T_FIRST] gives each
    variable the negation of its value under [F_FIRST] at the same row,
    and it is the [F_FIRST] assignment of row [2^n - 1 - i]. *)
Theorem row_orders_complement (vars : list jsstring) (i : Z) :
  0 ≤ i < 2 ^ Z.of_nat (length vars) →
  rowEnv T_FIRST vars i = negb <$> rowEnv F_FIRST vars i
  ∧ (∀ v, rowEnv T_FIRST vars i !! v = negb <$> rowEnv F_FIRST vars i !! v)
  ∧ rowEnv T_FIRST vars i = rowEnv F_FIRST vars (2 ^ Z.of_nat (length vars) - 1 - i)
  ∧ (∀ v, v ∈ vars →
       ∃ b, rowEnv F_FIRST vars i !! v = Some b
            ∧ rowEnv T_FIRST vars i !! v = Some (negb b)
            ∧ rowEnv F_FIRST vars (2 ^ Z.of_nat (length vars) - 1 - i) !! v
              = Some (negb b))
  ∧ (∀ v, v ∉ vars →
       rowEnv F_FIRST vars i !! v = None ∧ rowEnv T_FIRST vars i !! v = None).
Proof.
  intros Hi.
  assert (rowEnv T_FIRST vars i = negb <$> rowEnv F_FIRST vars i) as Hneg.
  { unfold rowEnv. rewrite <- assignFrom_complement. by rewrite fmap_empty. }
  assert (rowEnv T_FIRST vars i
          = rowEnv F_FIRST vars (2 ^ Z.of_nat (length vars) - 1 - i)) as Hmirror.
  { unfold rowEnv. apply assignFrom_ext. intros k Hk.
    rewrite !assignedValue_testbit.
    set (n := Z.of_nat (length vars)) in *.
    assert (0 ≤ (n - k - 1) mod 32 < 32) by (apply Z.mod_pos_bound; lia).
    assert ((n - k - 1) mod 32 ≤ n - k - 1) by (apply Z.mod_le; lia).
    symmetry. apply testbit_mirror. lia. }
  split; [done|]. split; [|split; [done|split]].
  - intros v. by rewrite Hneg, lookup_fmap.
  - intros v Hv. destruct (rowEnv_dom F_FIRST vars i v Hv) as [b Hb].
    exists b. split; [done|].
    assert (rowEnv T_FIRST vars i !! v = Some (negb b)) as Ht
      by (by rewrite Hneg, lookup_fmap, Hb).
    split; [done|]. by rewrite <- Hmirror.
  - intros v Hv. unfold rowEnv. by rewrite !assignFrom_notin, !lookup_empty.
Qed.

Lemma row_orders_complement_witness :
  let vars := [js "p"; js "q"] in
  rowEnv T_FIRST vars 1 = negb <$> rowEnv F_FIRST vars 1
  ∧ (∀ v, rowEnv T_FIRST vars 1 !! v = negb <$> rowEnv F_FIRST vars 1 !! v)
  ∧ rowEnv T_FIRST vars 1 = rowEnv F_FIRST vars (2 ^ Z.of_nat (length vars) - 1 - 1)
  ∧ (∀ v, v ∈ vars →
       ∃ b, rowEnv F_FIRST vars 1 !! v = Some b
            ∧ rowEnv T_FIRST vars 1 !! v = Some (negb b)
            ∧ rowEnv F_FIRST vars (2 ^ Z.of_nat (length vars) - 1 - 1) !! v
              = Some (negb b))
  ∧ (∀ v, v ∉ vars →
       rowEnv F_FIRST vars 1 !! v = None ∧ rowEnv T_FIRST vars 1 !! v = None).
Proof.
  intros vars. apply (row_orders_complement vars 1). simpl. lia.
Defined.

(** ** Nodes and their descendants *)

Lemma subnodes_self n : n ∈ subnodes n.
Proof. destruct n; apply list_elem_of_here. Qed.

Lemma subnodes_trans n m k : m ∈ subnodes n → k ∈ subnodes m → k ∈ subnodes n.
Proof.
  induction n as [| |id op a IHa|id op a IHa b IHb]; simpl; intros Hm Hk.
  - apply list_elem_of_singleton in Hm as ->. done.
  - apply list_elem_of_singleton in Hm as ->. done.
  - apply elem_of_cons in Hm as [->|Hm]; [done|].
    apply elem_of_cons. right. by apply IHa.
  - apply elem_of_cons in Hm as [->|Hm]; [done|].
    apply elem_of_cons. right. apply elem_of_app.
    apply elem_of_app in Hm as [Hm|Hm]; [left; by apply IHa | right; by apply IHb].
Qed.

Lemma wfNode_subnodes n m : wfNode n → m ∈ subnodes n → wfNode m.
Proof.
  induction n as [| |id op a IHa|id op a IHa b IHb]; simpl; intros Hwf Hm.
  - apply list_elem_of_singleton in Hm as ->. done.
  - apply list_elem_of_singleton in Hm as ->. done.
  - apply elem_of_cons in Hm as [->|Hm]; [done|]. apply IHa; tauto.
  - apply elem_of_cons in Hm as [->|Hm]; [done|].
    apply elem_of_app in Hm as [Hm|Hm]; [apply IHa | apply IHb]; tauto.
Qed.

Lemma postorderOps_subnodes n m : m ∈ postorderOps n → m ∈ subnodes n.
Proof.
  induction n as [| |id op a IHa|id op a IHa b IHb]; simpl; intros Hm.
  - by apply elem_of_nil in Hm.
  - by apply elem_of_nil in Hm.
  - apply elem_of_app in Hm as [Hm|Hm].
    + apply elem_of_cons. right. by apply IHa.
    + apply list_elem_of_singleton in Hm as ->. apply list_elem_of_here.
  - apply elem_of_cons. rewrite elem_of_app.
    apply elem_of_app in Hm as [Hm|Hm]; [right; left; by apply IHa|].
    apply elem_of_app in Hm as [Hm|Hm]; [right; right; by apply IHb|].
    apply list_elem_of_singleton in Hm as ->. by left.
Qed.

Lemma NoDup_fmap_inj_on {A B} (f : A → B) (l : list A) x y :
  NoDup (f <$> l) → x ∈ l → y ∈ l → f x = f y → x = y.
Proof.
  induction l as [|z l IH]; simpl; intros Hnd Hx Hy Hf.
  - by apply elem_of_nil in Hx.
  - apply NoDup_cons in Hnd as [Hz Hnd].
    apply elem_of_cons in Hx as [->|Hx]; apply elem_of_cons in Hy as [->|Hy].
    + done.
    + exfalso. apply Hz. rewrite Hf. by apply list_elem_of_fmap_2.
    + exfalso. apply Hz. rewrite <- Hf. by apply list_elem_of_fmap_2.
    + by apply IH.
Qed.

(** ** rpnToAst gives every node its own identity *)

Lemma rpnToAst_ids rpn root :
  rpnToAst rpn = OK root → NoDup (nodeId <$> subnodes root).
Proof.
  intros H. apply rpnToAst_inv in H as [nid H].
  apply (rpnToAstLoop_invariant
           (λ nextId stack, NoDup (nodeId <$> forest stack)
                            ∧ ∀ m, m ∈ forest stack → nodeId m < nextId) rpn) in H.
  - simpl in H. rewrite app_nil_r in H. tauto.
  - clear. intros nid stack tok st' _ [Hnd Hlt] Hs.
    assert (Hfresh : nid ∉ nodeId <$> forest stack).
    { intros Hin. apply list_elem_of_fmap in Hin as (m & Hid & Hm).
      apply Hlt in Hm. lia. }
    apply rpnToAstStep_inv in Hs
      as [(x & -> & ->)|[(v & r & -> & ->)|[(op & r & a & s0 & -> & Har & -> & ->)
         |(op & r & a & b & s0 & -> & Har & -> & ->)]]];
      cbn [fst snd forest subnodes app fmap list_fmap nodeId] in *.
    + split; [by constructor|]. intros m Hm.
      apply elem_of_cons in Hm as [->|Hm]; [simpl; lia|]. apply Hlt in Hm. lia.
    + split; [by constructor|]. intros m Hm.
      apply elem_of_cons in Hm as [->|Hm]; [simpl; lia|]. apply Hlt in Hm. lia.
    + split; [by constructor|]. intros m Hm.
      apply elem_of_cons in Hm as [->|Hm]; [simpl; lia|]. apply Hlt in Hm. lia.
    + assert (Hperm : (subnodes a ++ subnodes b) ++ forest s0
                       ≡ₚ subnodes b ++ subnodes a ++ forest s0).
      { rewrite <- app_assoc. rewrite !app_assoc.
        apply Permutation_app_tail, Permutation_app_comm. }
      split.
      * constructor.
        -- intros Hin. apply Hfresh. by rewrite <- Hperm.
        -- by rewrite Hperm.
      * intros m Hm. apply elem_of_cons in Hm as [->|Hm]; [simpl; lia|].
        rewrite Hperm in Hm. apply Hlt in Hm. lia.
  - split; [constructor|]. intros m Hm. by apply elem_of_nil in Hm.
Qed.

(** ** computeValue: the cache never changes a value *)

Lemma cacheSound_empty env U : cacheSound env U ∅.
Proof. intros m v _ H. by rewrite lookup_empty in H. Qed.

Lemma cacheSound_insert env U cache n v :
  NoDup (nodeId <$> U) → n ∈ U → nodeValue env n = Some v →
  cacheSound env U cache → cacheSound env U (<[nodeId n := v]> cache).
Proof.
  intros Hnd Hn Hv Hc m w Hm Hl.
  destruct (decide (nodeId n = nodeId m)) as [Heq|Hne].
  - rewrite Heq, lookup_insert_eq in Hl. injection Hl as <-.
    by rewrite <- (NoDup_fmap_inj_on nodeId U n m Hnd Hn Hm Heq).
  - rewrite lookup_insert_ne in Hl by done. by apply Hc.
Qed.

Lemma computeValue_hit n env cache w :
  cache !! nodeId n = Some w → computeValue n env cache = OK (w, cache).
Proof. destruct n; simpl; intros ->; reflexivity. Qed.

Lemma computeValue_sound env U :
  NoDup (nodeId <$> U) →
  ∀ n, wfNode n → (∀ m, m ∈ subnodes n → m ∈ U) →
  ∀ cache, cacheSound env U cache →
    match nodeValue env n with
    | Some v => ∃ cache', computeValue n env cache = OK (v, cache')
                          ∧ cacheSound env U cache'
    | None => ∃ e, computeValue n env cache = Err e
    end.
Proof.
  intros Hnd.
  induction n as [id name|id value|id op a IHa|id op a IHa b IHb];
    intros Hwf HU cache Hc;
    pose proof (HU _ (subnodes_self _)) as Hn;
    (destruct (cache !! nodeId (NOp2 id op a b)) as [w|] eqn:Hhit
     || destruct (cache !! nodeId (NOp1 id op a)) as [w|] eqn:Hhit
     || destruct (cache !! nodeId (NConst id value)) as [w|] eqn:Hhit
     || destruct (cache !! nodeId (NVar id name)) as [w|] eqn:Hhit);
    try (rewrite (computeValue_hit _ _ _ _ Hhit), (Hc _ w Hn Hhit); by eauto);
    cbn [nodeId] in Hhit; cbn [computeValue nodeId]; cbv zeta; rewrite Hhit.
  - cbn [nodeValue]. destruct (env !! name) as [v|] eqn:Hv; cbn [mbind result_bind]; [|eauto].
    eexists. split; [reflexivity|].
    by apply (cacheSound_insert env U cache (NVar id name) v).
  - cbn [nodeValue mbind result_bind]. eexists. split; [reflexivity|].
    by apply (cacheSound_insert env U cache (NConst id value) value).
  - destruct Hwf as [Har Ha].
    assert (HUa : ∀ m, m ∈ subnodes a → m ∈ U).
    { intros m Hm. apply HU. simpl. apply elem_of_cons. by right. }
    specialize (IHa Ha HUa cache Hc).
    rewrite Har. cbn [Nat.eqb nodeValue].
    destruct (nodeValue env a) as [va|] eqn:Ea; cbn [mbind option_bind].
    + destruct IHa as (cache1 & -> & Hc1). cbn [mbind result_bind fst snd].
      eexists. split; [reflexivity|].
      apply (cacheSound_insert env U cache1 (NOp1 id op a)); try done.
      cbn [nodeValue]. by rewrite Ea.
    + destruct IHa as (e & ->). cbn [mbind result_bind]. eauto.
  - destruct Hwf as (Har & Ha & Hb).
    assert (HUa : ∀ m, m ∈ subnodes a → m ∈ U).
    { intros m Hm. apply HU. simpl. apply elem_of_cons. right.
      apply elem_of_app. by left. }
    assert (HUb : ∀ m, m ∈ subnodes b → m ∈ U).
    { intros m Hm. apply HU. simpl. apply elem_of_cons. right.
      apply elem_of_app. by right. }
    specialize (IHa Ha HUa cache Hc).
    rewrite Har. cbn [Nat.eqb nodeValue].
    destruct (nodeValue env a) as [va|] eqn:Ea; cbn [mbind option_bind].
    + destruct IHa as (cache1 & -> & Hc1). cbn [mbind result_bind fst snd].
      specialize (IHb Hb HUb cache1 Hc1).
      destruct (nodeValue env b) as [vb|] eqn:Eb; cbn [mbind option_bind].
      * destruct IHb as (cache2 & -> & Hc2). cbn [mbind result_bind fst snd].
        eexists. split; [reflexivity|].
        apply (cacheSound_insert env U cache2 (NOp2 id op a b)); try done.
        cbn [nodeValue]. rewrite Ea. cbn [mbind option_bind]. by rewrite Eb.
      * destruct IHb as (e & ->). cbn [mbind result_bind]. eauto.
    + destruct IHa as (e & ->). cbn [mbind result_bind]. eauto.
Qed.

(** ** toRPN only rearranges its tokens *)

Lemma popToLeftParen_app output ops output' ops' :
  popToLeftParen output ops = Some (output', ops') →
  ∃ popped, ops = popped ++ TLParen :: ops' ∧ output' = output ++ popped
            ∧ TLParen ∉ popped.
Proof.
  revert output. induction ops as [|t ops IH]; intros output; simpl; [discriminate|].
  assert (Hrec : popToLeftParen (output ++ [t]) ops = Some (output', ops') →
                 t ≠ TLParen →
                 ∃ popped, t :: ops = popped ++ TLParen :: ops'
                           ∧ output' = output ++ popped ∧ TLParen ∉ popped).
  { intros H Hne. apply IH in H as (popped & -> & -> & Hnin).
    exists (t :: popped). rewrite <- app_assoc. split; [done|]. split; [done|].
    apply not_elem_of_cons. split; [congruence | done]. }
  destruct t; try (intros H; by apply Hrec).
  intros [= <- <-]. exists []. rewrite app_nil_r. split; [done|]. split; [done|].
  apply not_elem_of_nil.
Qed.

Lemma drainOperators_app output ops rpn :
  drainOperators output ops = OK rpn → rpn = output ++ ops.
Proof.
  revert output. induction ops as [|t ops IH]; intros output; simpl.
  - intros [= <-]. by rewrite app_nil_r.
  - destruct t; try discriminate; intros H; apply IH in H as ->;
      by rewrite <- app_assoc.
Qed.

Lemma toRPNStep_tokens st tok st' t :
  toRPNStep st tok = OK st' → t ∈ st'.1 ++ st'.2 → t = tok ∨ t ∈ st.1 ++ st.2.
Proof.
  destruct st as [output ops]. destruct tok as [| |op raw|v raw|x]; simpl.
  - intros [= <-]. simpl. rewrite !elem_of_app, elem_of_cons. tauto.
  - destruct (popToLeftParen output ops) as [[o' s']|] eqn:E; [|discriminate].
    intros [= <-]. apply popToLeftParen_app in E as (popped & -> & -> & _). simpl.
    rewrite !elem_of_app, elem_of_cons. tauto.
  - destruct (popOperators_spec op output ops) as (popped & rest & -> & _ & _ & ->).
    intros [= <-]. simpl. rewrite !elem_of_app, elem_of_cons. tauto.
  - intros [= <-]. simpl. rewrite !elem_of_app, list_elem_of_singleton. tauto.
  - intros [= <-]. simpl. rewrite !elem_of_app, list_elem_of_singleton. tauto.
Qed.

Lemma toRPNLoop_tokens tokens : ∀ st st' t,
  toRPNLoop tokens st = OK st' → t ∈ st'.1 ++ st'.2 → t ∈ tokens ∨ t ∈ st.1 ++ st.2.
Proof.
  induction tokens as [|tok tokens IH]; intros st st' t; simpl.
  - intros [= <-]. tauto.
  - intros H Ht. apply bind_OK in H as (st1 & Hs & Hl).
    destruct (IH _ _ _ Hl Ht) as [H|H].
    + left. apply elem_of_cons. by right.
    + destruct (toRPNStep_tokens _ _ _ _ Hs H) as [->|H']; [|by right].
      left. apply list_elem_of_here.
Qed.

Lemma toRPN_tokens tokens rpn t : toRPN tokens = OK rpn → t ∈ rpn → t ∈ tokens.
Proof.
  unfold toRPN. intros H Ht. apply bind_OK in H as (st & Hl & Hd).
  apply drainOperators_app in Hd as ->.
  destruct (toRPNLoop_tokens _ _ _ _ Hl Ht) as [H|H]; [done|].
  by apply elem_of_nil in H.
Qed.

(** ** evalRPN and rpnToAst run in step *)

Lemma evalRPNStep_sim env tok nextId nodes values :
  (∀ x, tok = TIdent x → is_Some (env !! x)) → stackRel env values nodes →
  match rpnToAstStep (nextId, nodes) tok with
  | OK st' => ∃ values', evalRPNStep env values tok = OK values'
                         ∧ stackRel env values' st'.2
  | Err _ => ∃ e, evalRPNStep env values tok = Err e
  end.
Proof.
  intros Hbound Hrel. destruct tok as [| |op raw|v raw|x]; simpl; eauto.
  - destruct (arity_cases op) as [[-> H]|[Hne H]]; rewrite H; simpl.
    + destruct Hrel as [|va a values nodes Ha Hrel]; [eauto|].
      eexists. split; [reflexivity|]. constructor; [|done]. simpl. by rewrite Ha.
    + destruct Hrel as [|vb b values nodes Hb Hrel]; [eauto|].
      destruct Hrel as [|va a values nodes Ha Hrel]; [eauto|].
      eexists. split; [reflexivity|]. constructor; [|done]. simpl.
      by rewrite Ha, Hb.
  - eexists. split; [reflexivity|]. by constructor.
  - destruct (Hbound x eq_refl) as [b Hb]. rewrite Hb.
    eexists. split; [reflexivity|]. by constructor.
Qed.

Lemma evalRPNLoop_sim env rpn :
  (∀ x, TIdent x ∈ rpn → is_Some (env !! x)) →
  ∀ nextId nodes values, stackRel env values nodes →
  match rpnToAstLoop rpn (nextId, nodes) with
  | OK st' => ∃ values', evalRPNLoop env rpn values = OK values'
                         ∧ stackRel env values' st'.2
  | Err _ => ∃ e, evalRPNLoop env rpn values = Err e
  end.
Proof.
  induction rpn as [|tok rpn IH]; intros Hbound nextId nodes values Hrel;
    cbn [rpnToAstLoop evalRPNLoop].
  - eauto.
  - pose proof (evalRPNStep_sim env tok nextId nodes values) as Hstep.
    destruct (rpnToAstStep (nextId, nodes) tok) as [[nid1 nodes1]|e];
      cbn [mbind result_bind].
    + destruct Hstep as (values1 & -> & Hrel1); [|done|].
      { intros x ->. apply Hbound, list_elem_of_here. }
      cbn [mbind result_bind]. apply IH; [|done].
      intros x Hx. apply Hbound, elem_of_cons. by right.
    + destruct Hstep as (e' & ->); [|done|].
      { intros x ->. apply Hbound, list_elem_of_here. }
      cbn [mbind result_bind]. eauto.
Qed.

Lemma rpnToAst_computeValue env U rpn root :
  rpnToAst rpn = OK root → U = subnodes root →
  NoDup (nodeId <$> U) ∧ wfNode root ∧
  ∀ n cache, n ∈ U → cacheSound env U cache →
    match nodeValue env n with
    | Some v => ∃ cache', computeValue n env cache = OK (v, cache')
                          ∧ cacheSound env U cache'
    | None => ∃ e, computeValue n env cache = Err e
    end.
Proof.
  intros Hroot ->. pose proof (rpnToAst_ids _ _ Hroot) as Hnd.
  pose proof (rpnToAst_wf _ _ Hroot) as Hwf.
  split; [done|]. split; [done|]. intros n cache Hn Hc.
  apply computeValue_sound; try done.
  - by eapply wfNode_subnodes.
  - intros m Hm. by eapply subnodes_trans.
Qed.

Lemma strategies_agree_rpn env rpn :
  (∀ x, TIdent x ∈ rpn → is_Some (env !! x)) →
  ∀ v, evalRPN rpn env = OK v
       ↔ ∃ root cache, rpnToAst rpn = OK root
                       ∧ computeValue root env ∅ = OK (v, cache).
Proof.
  intros Hbound v.
  pose proof (evalRPNLoop_sim env rpn Hbound 1 [] [] (List.Forall2_nil _)) as Hsim.
  unfold evalRPN, rpnToAst.
  destruct (rpnToAstLoop rpn (1, [])) as [[nid nodes]|e] eqn:Hloop.
  - destruct Hsim as (values & -> & Hrel). simpl in *.
    destruct Hrel as [|w root values nodes Hw Hrel].
    { split; [discriminate | intros (? & ? & [=] & _)]. }
    destruct Hrel as [|w2 r2 values nodes Hw2 Hrel].
    + assert (Hroot : rpnToAst rpn = OK root) by (unfold rpnToAst; by rewrite Hloop).
      destruct (rpnToAst_computeValue env _ rpn root Hroot eq_refl) as (_ & _ & Hcv).
      specialize (Hcv root ∅ (subnodes_self _) (cacheSound_empty _ _)).
      rewrite Hw in Hcv. destruct Hcv as (cache & Hcv & _).
      split.
      * intros [= <-]. eauto.
      * intros (root' & cache' & [= <-] & Hcv'). rewrite Hcv in Hcv'. congruence.
    + split; [discriminate | intros (? & ? & [=] & _)].
  - destruct Hsim as (e' & ->). simpl.
    split; [discriminate | intros (? & ? & [=] & _)].
Qed.

(** C1. For a token sequence that [toRPN] accepts and an assignment that
    binds every variable occurring in it, [evalRPN] on the postfix
    sequence returns a boolean exactly when [rpnToAst] returns a root on
    which [computeValue], started with an empty cache, returns that same
    boolean. *)
Theorem strategies_agree (tokens rpn : list token) (env : gmap jsstring bool) :
  toRPN tokens = OK rpn →
  (∀ x, TIdent x ∈ tokens → is_Some (env !! x)) →
  ∀ v, evalRPN rpn env = OK v
       ↔ ∃ root cache, rpnToAst rpn = OK root
                       ∧ computeValue root env ∅ = OK (v, cache).
Proof.
  intros Hrpn Hbound. apply strategies_agree_rpn.
  intros x Hx. apply Hbound. by eapply toRPN_tokens.
Qed.

Lemma strategies_agree_witness :
  let p := TIdent (js "p") in
  let q := TIdent (js "q") in
  let imp := TOp IMP (js "->") in
  let env : gmap jsstring bool := <[js "p" := true]> (<[js "q" := false]> ∅) in
  toRPN [p; imp; q] = OK [p; q; imp]
  ∧ evalRPN [p; q; imp] env = OK false
  ∧ (evalRPN [p; q; imp] env = OK false
     ↔ ∃ root cache, rpnToAst [p; q; imp] = OK root
                     ∧ computeValue root env ∅ = OK (false, cache)).
Proof.
  intros p q imp env. split; [reflexivity|]. split; [reflexivity|].
  apply (strategies_agree [p; imp; q] [p; q; imp] env eq_refl).
  intros x Hx.
  apply elem_of_cons in Hx as [[= ->]|Hx]; [by eexists|].
  apply elem_of_cons in Hx as [[=]|Hx].
  apply elem_of_cons in Hx as [[= ->]|Hx]; [by eexists|].
  by apply elem_of_nil in Hx.
Defined.

(** ** Variables of a tree *)

Lemma nodeVars_subnodes n m x : m ∈ subnodes n → x ∈ nodeVars m → x ∈ nodeVars n.
Proof.
  induction n as [| |id op a IHa|id op a IHa b IHb]; simpl; intros Hm Hx.
  - apply list_elem_of_singleton in Hm as ->. done.
  - apply list_elem_of_singleton in Hm as ->. done.
  - apply elem_of_cons in Hm as [->|Hm]; [done | by apply IHa].
  - apply elem_of_cons in Hm as [->|Hm]; [done|]. apply elem_of_app.
    apply elem_of_app in Hm as [Hm|Hm]; [left; by apply IHa | right; by apply IHb].
Qed.

Lemma nodeValue_is_Some env n :
  (∀ x, x ∈ nodeVars n → is_Some (env !! x)) → is_Some (nodeValue env n).
Proof.
  induction n as [id name|id value|id op a IHa|id op a IHa b IHb]; simpl; intros H.
  - apply H, list_elem_of_here.
  - eauto.
  - destruct (IHa H) as [va ->]. simpl. eauto.
  - destruct IHa as [va ->]; [intros x Hx; apply H, elem_of_app; by left|].
    destruct IHb as [vb ->]; [intros x Hx; apply H, elem_of_app; by right|].
    simpl. eauto.
Qed.

Lemma rpnToAst_vars rpn root x :
  rpnToAst rpn = OK root → x ∈ nodeVars root → TIdent x ∈ rpn.
Proof.
  intros H Hx. apply rpnToAst_inv in H as [nid H].
  cut (∀ n y, n ∈ [root] → y ∈ nodeVars n → TIdent y ∈ rpn).
  { intros HP. apply (HP root x); [apply list_elem_of_here | done]. }
  refine (rpnToAstLoop_invariant
            (λ _ stack, ∀ n y, n ∈ stack → y ∈ nodeVars n → TIdent y ∈ rpn)
            rpn _ 1 [] (nid, [root]) _ H).
  - clear. intros nid stack tok st' Htok HP Hs.
    apply rpnToAstStep_inv in Hs
      as [(x & -> & ->)|[(v & r & -> & ->)|[(op & r & a & s0 & -> & Har & -> & ->)
         |(op & r & a & b & s0 & -> & Har & -> & ->)]]]; simpl; intros n y Hn Hy.
    + apply elem_of_cons in Hn as [->|Hn]; [|by eapply HP].
      simpl in Hy. by apply list_elem_of_singleton in Hy as ->.
    + apply elem_of_cons in Hn as [->|Hn]; [|by eapply HP].
      simpl in Hy. by apply elem_of_nil in Hy.
    + apply elem_of_cons in Hn as [->|Hn].
      * simpl in Hy. apply (HP a y); [apply list_elem_of_here | done].
      * apply (HP n y); [|done]. apply elem_of_cons. by right.
    + apply elem_of_cons in Hn as [->|Hn].
      * simpl in Hy. apply elem_of_app in Hy as [Hy|Hy].
        -- apply (HP a y); [|done]. apply elem_of_cons. right. apply list_elem_of_here.
        -- apply (HP b y); [apply list_elem_of_here | done].
      * apply (HP n y); [|done]. do 2 (apply elem_of_cons; right). done.
  - intros n y Hn. by apply elem_of_nil in Hn.
Qed.

Lemma firstOccurrences_sub seen l x : x ∈ firstOccurrences seen l → x ∈ l.
Proof.
  revert seen. induction l as [|y l IH]; intros seen; simpl; [done|].
  destruct (decide (y.2 ∈ seen)).
  - intros H. apply elem_of_cons. right. by eapply IH.
  - intros H. apply elem_of_cons in H as [->|H]; apply elem_of_cons;
      [by left | right; by eapply IH].
Qed.

Lemma collectSubexpressions_nodes rpn root :
  rpnToAst rpn = OK root →
  ∃ steps, collectSubexpressions root = OK steps
           ∧ ∀ s, s ∈ steps → s.1 ∈ subnodes root.
Proof.
  intros Hroot. pose proof (rpnToAst_wf _ _ Hroot) as Hwf.
  eexists. split.
  - unfold collectSubexpressions. rewrite visit_spec by done. reflexivity.
  - simpl. intros s Hs. apply firstOccurrences_sub in Hs.
    apply list_elem_of_fmap in Hs as (n & -> & Hn). simpl.
    by apply postorderOps_subnodes.
Qed.

(** ** renderTable *)

Lemma stepValues_returns env U steps :
  NoDup (nodeId <$> U) →
  (∀ n, n ∈ U → wfNode n ∧ (∀ m, m ∈ subnodes n → m ∈ U) ∧ is_Some (nodeValue env n)) →
  (∀ s, s ∈ steps → s.1 ∈ U) →
  ∀ cache, cacheSound env U cache → ∃ values, stepValues steps env cache = OK values.
Proof.
  intros Hnd HU. induction steps as [|[n label] steps IH]; intros Hsteps cache Hc.
  - simpl. eauto.
  - pose proof (Hsteps (n, label) (list_elem_of_here _ _)) as Hn. simpl in Hn.
    destruct (HU n Hn) as (Hwf & Hsub & [v Hv]).
    pose proof (computeValue_sound env U Hnd n Hwf Hsub cache Hc) as Hcv.
    rewrite Hv in Hcv. destruct Hcv as (cache1 & Hcv & Hc1).
    cbn [stepValues]. rewrite Hcv. cbn [mbind result_bind snd].
    destruct (IH (λ s Hs, Hsteps s (list_elem_of_further _ _ _ Hs)) cache1 Hc1)
      as [values ->].
    cbn [mbind result_bind]. eauto.
Qed.

Lemma renderRows_Forall2 row indices rows :
  renderRows row indices = OK rows → Forall2 (λ i r, row i = OK r) indices rows.
Proof.
  revert rows. induction indices as [|i indices IH]; intros rows; simpl.
  - intros [= <-]. constructor.
  - intros H. apply bind_OK in H as (r & Hr & H).
    apply bind_OK in H as (rest & Hrest & [= <-]). constructor; [done | by apply IH].
Qed.

Lemma renderRows_returns row indices :
  (∀ i, i ∈ indices → ∃ r, row i = OK r) → ∃ rows, renderRows row indices = OK rows.
Proof.
  induction indices as [|i indices IH]; intros H; simpl; [eauto|].
  destruct (H i (list_elem_of_here _ _)) as [r ->].
  destruct IH as [rows ->].
  { intros j Hj. apply H, elem_of_cons. by right. }
  simpl. eauto.
Qed.

(** What a returned table holds: the variable columns are [vars]; row [k]
    has the values of the variables under the assignment of row [k] and,
    as result, the value of [evalRPN] or [false] when it raised. *)
Lemma renderTable_inv vars rpn opts tbl :
  renderTable vars rpn opts = OK tbl →
  varHeaders tbl = vars
  ∧ length (bodyRows tbl) = Z.to_nat (rowCount vars)
  ∧ ∀ (k : nat) row, bodyRows tbl !! k = Some row →
      let env := rowEnv (rowOrder opts) vars (Z.of_nat k) in
      varCells row = (λ v, default false (env !! v)) <$> vars
      ∧ resultCell row = tryCatch (evalRPN rpn env) false.
Proof.
  unfold renderTable. intros H.
  apply bind_OK in H as ([ast steps] & Hprep & H).
  apply bind_OK in H as (rows & Hrows & [= <-]). simpl.
  apply renderRows_Forall2 in Hrows.
  split; [done|]. split.
  - rewrite <- (Forall2_length _ _ _ Hrows). apply length_seqZ.
  - intros k row Hk.
    destruct (Forall2_lookup_r _ _ _ _ _ Hrows Hk) as (i & Hi & Hrow).
    apply lookup_seqZ in Hi as [-> _]. rewrite Z.add_0_l in Hrow.
    unfold renderRow in Hrow.
    apply bind_OK in Hrow as (svals & _ & [= <-]). simpl. split; [done|].
    f_equal. unfold rowValue.
    destruct (showSteps opts); [|done].
    destruct ast as [a|]; [done|].
    apply bind_OK in Hprep as (a & _ & Hprep).
    apply bind_OK in Hprep as (s & _ & [=]).
Qed.

Lemma renderTable_returns vars rpn opts :
  showSteps opts = false
  ∨ (isOK (rpnToAst rpn) = true ∧ ∀ x, TIdent x ∈ rpn → x ∈ vars) →
  ∃ tbl, renderTable vars rpn opts = OK tbl.
Proof.
  intros H. unfold renderTable.
  destruct (showSteps opts) eqn:Hsteps.
  - destruct H as [[=]|[Hast Hvars]].
    apply isOK_true in Hast as [root Hroot]. rewrite Hroot. cbn [mbind result_bind].
    destruct (collectSubexpressions_nodes _ _ Hroot) as (steps & -> & Hsub).
    cbn [mbind result_bind fst snd].
    destruct (renderRows_returns (renderRow vars rpn opts (Some root) steps)
                (seqZ 0 (rowCount vars))) as [rows ->]; [|simpl; eauto].
    intros i _. unfold renderRow. rewrite Hsteps.
    destruct (rpnToAst_computeValue (rowEnv (rowOrder opts) vars i) _ rpn root
                Hroot eq_refl) as (Hnd & Hwf & _).
    assert (∃ values, stepValues steps (rowEnv (rowOrder opts) vars i) ∅ = OK values)
      as [values ->].
    { apply (stepValues_returns _ (subnodes root)); [done| |done|apply cacheSound_empty].
      intros n Hn. split; [by eapply wfNode_subnodes|]. split.
      - intros m Hm. by eapply subnodes_trans.
      - apply nodeValue_is_Some. intros x Hx. apply rowEnv_dom, Hvars.
        eapply rpnToAst_vars; [done|]. by eapply nodeVars_subnodes. }
    simpl. eauto.
  - cbn [mbind result_bind fst snd].
    destruct (renderRows_returns (renderRow vars rpn opts None [])
                (seqZ 0 (rowCount vars))) as [rows ->]; [|simpl; eauto].
    intros i _. unfold renderRow. rewrite Hsteps. simpl. eauto.
Qed.

(** ** The enumeration *)

Lemma varCells_lookup order vars i j v :
  NoDup vars → vars !! j = Some v →
  ((λ v, default false (rowEnv order vars i !! v)) <$> vars) !! j
  = Some (assignedValue order (Z.of_nat (length vars)) i (Z.of_nat j)).
Proof.
  intros Hnd Hj. rewrite list_lookup_fmap, Hj. simpl.
  by rewrite (rowEnv_lookup order vars i j v).
Qed.

Lemma testbit_below_inj n a b :
  0 ≤ a < 2 ^ n → 0 ≤ b < 2 ^ n → 0 ≤ n →
  (∀ s, 0 ≤ s < n → Z.testbit a s = Z.testbit b s) → a = b.
Proof.
  intros Ha Hb Hn H. apply Z.bits_inj'. intros s Hs.
  destruct (Z_lt_ge_dec s n) as [Hlt|Hge]; [apply H; lia|].
  rewrite <- (Z.mod_small a (2 ^ n)), <- (Z.mod_small b (2 ^ n)) by lia.
  by rewrite !Z.mod_pow2_bits_high by lia.
Qed.

Lemma assignedValue_small order n i j :
  0 ≤ n - j - 1 < 32 →
  assignedValue order n i j
  = let bit := Z.land (Z.shiftr i (n - j - 1)) 1 in
    match order with F_FIRST => bit =? 1 | T_FIRST => bit =? 0 end.
Proof.
  intros H. rewrite assignedValue_testbit, Z.mod_small by lia.
  cbv zeta. rewrite land_shiftr_1 by lia.
  destruct order, (Z.testbit _ _); reflexivity.
Qed.

(** In a returned table of at most 32 variables, the cell of row [i] in
    the column of [vars[j]] is the bit [(i >> (n - j - 1)) & 1] of the row
    index, read according to the row order. *)
Lemma renderTable_bits vars rpn opts tbl :
  NoDup vars → (length vars ≤ 32)%nat → renderTable vars rpn opts = OK tbl →
  ∀ (i j : nat) row v,
    bodyRows tbl !! i = Some row → vars !! j = Some v →
    let bit := Z.land (Z.shiftr (Z.of_nat i) (Z.of_nat (length vars) - Z.of_nat j - 1)) 1 in
    let val := match rowOrder opts with
               | F_FIRST => bit =? 1
               | T_FIRST => bit =? 0
               end in
    rowEnv (rowOrder opts) vars (Z.of_nat i) !! v = Some val
    ∧ varCells row !! j = Some val.
Proof.
  intros Hnd Hlen Htbl i j row v Hi Hj.
  destruct (renderTable_inv _ _ _ _ Htbl) as (_ & _ & Hrow).
  pose proof (lookup_lt_Some _ _ _ Hj) as Hjlt.
  pose proof (assignedValue_small (rowOrder opts) (Z.of_nat (length vars))
                (Z.of_nat i) (Z.of_nat j)) as Hv.
  cbv zeta in *. rewrite <- Hv by lia.
  destruct (Hrow i row Hi) as [-> _]. split.
  - by apply rowEnv_lookup.
  - by eapply varCells_lookup.
Qed.

(** C2, as the source has it: for a duplicate-free variable list of size
    [n ≤ 30] the table has exactly [2^n] rows; in row [i] the variable at
    position [j] is assigned the bit [(i >> (n - j - 1)) & 1], read as
    true iff it is 1 under [F_FIRST] and true iff it is 0 under
    [T_FIRST]; the assignment tuples of two different rows differ.  The
    table is returned whenever the step columns are off, or [rpnToAst]
    accepts the postfix sequence and its identifiers are among the
    variables. *)
Theorem enumeration_shape (vars : list jsstring) (rpn : list token) (opts : Options) :
  NoDup vars → (length vars ≤ 30)%nat →
  let n := Z.of_nat (length vars) in
  (showSteps opts = false
   ∨ (isOK (rpnToAst rpn) = true ∧ ∀ x, TIdent x ∈ rpn → x ∈ vars) →
   isOK (renderTable vars rpn opts) = true)
  ∧ ∀ tbl, renderTable vars rpn opts = OK tbl →
      Z.of_nat (length (bodyRows tbl)) = 2 ^ n
      ∧ (∀ (i j : nat) row v,
           bodyRows tbl !! i = Some row → vars !! j = Some v →
           let bit := Z.land (Z.shiftr (Z.of_nat i) (n - Z.of_nat j - 1)) 1 in
           let val := match rowOrder opts with
                      | F_FIRST => bit =? 1
                      | T_FIRST => bit =? 0
                      end in
           rowEnv (rowOrder opts) vars (Z.of_nat i) !! v = Some val
           ∧ varCells row !! j = Some val)
      ∧ (∀ (i1 i2 : nat) row1 row2,
           i1 ≠ i2 → bodyRows tbl !! i1 = Some row1 → bodyRows tbl !! i2 = Some row2 →
           varCells row1 ≠ varCells row2).
Proof.
  intros Hnd Hlen n. split.
  { intros H. apply isOK_true. by apply renderTable_returns. }
  intros tbl Htbl.
  destruct (renderTable_inv _ _ _ _ Htbl) as (_ & Hrows & Hrow).
  rewrite rowCount_small in Hrows by done. fold n in Hrows.
  assert (0 < 2 ^ n) as Hpow by (apply Z.pow_pos_nonneg; lia).
  assert (Hval : ∀ (i j : nat), (j < length vars)%nat →
            assignedValue (rowOrder opts) n (Z.of_nat i) (Z.of_nat j)
            = match rowOrder opts with
              | F_FIRST => Z.testbit (Z.of_nat i) (n - Z.of_nat j - 1)
              | T_FIRST => negb (Z.testbit (Z.of_nat i) (n - Z.of_nat j - 1))
              end).
  { intros i j Hj. rewrite assignedValue_testbit.
    rewrite (Z.mod_small (n - Z.of_nat j - 1)) by lia. done. }
  split; [lia|]. split.
  - apply (renderTable_bits vars rpn opts tbl); [done | lia | done].
  - intros i1 i2 row1 row2 Hne H1 H2 Heq.
    destruct (Hrow i1 row1 H1) as [Hc1 _]. destruct (Hrow i2 row2 H2) as [Hc2 _].
    pose proof (lookup_lt_Some _ _ _ H1) as Hlt1.
    pose proof (lookup_lt_Some _ _ _ H2) as Hlt2.
    apply Hne, Nat2Z.inj. apply (testbit_below_inj n); [lia..|].
    intros s Hs.
    assert (∃ j : nat, (j < length vars)%nat ∧ s = n - Z.of_nat j - 1) as (j & Hj & ->).
    { exists (Z.to_nat (n - s - 1)). split; lia. }
    destruct (lookup_lt_is_Some_2 vars j Hj) as [v Hv].
    pose proof (varCells_lookup (rowOrder opts) vars (Z.of_nat i1) j v Hnd Hv) as E1.
    pose proof (varCells_lookup (rowOrder opts) vars (Z.of_nat i2) j v Hnd Hv) as E2.
    rewrite <- Hc1, Heq, Hc2, E2 in E1. injection E1 as E1.
    fold n in E1. rewrite !Hval in E1 by done.
    destruct (rowOrder opts); [done|].
    by destruct (Z.testbit (Z.of_nat i1) _), (Z.testbit (Z.of_nat i2) _).
Qed.

Lemma enumeration_shape_witness :
  let vars := [js "p"; js "q"] in
  let rpn := [TIdent (js "p"); TIdent (js "q"); TOp IMP (js "->")] in
  let opts := mkOptions true true true T_FIRST in
  isOK (renderTable vars rpn opts) = true
  ∧ ∀ tbl, renderTable vars rpn opts = OK tbl →
      Z.of_nat (length (bodyRows tbl)) = 2 ^ 2.
Proof.
  intros vars rpn opts.
  assert (Hnd : NoDup vars) by (apply (bool_decide_unpack _); vm_compute; exact I).
  assert (Hlen : (length vars ≤ 30)%nat) by (simpl; lia).
  destruct (enumeration_shape vars rpn opts Hnd Hlen) as [Hret Hshape].
  split.
  - apply Hret. right. split; [reflexivity|].
    intros x Hx.
    apply elem_of_cons in Hx as [[= ->]|Hx]; [apply list_elem_of_here|].
    apply elem_of_cons in Hx as [[= ->]|Hx];
      [apply list_elem_of_further, list_elem_of_here|].
    apply elem_of_cons in Hx as [[=]|Hx]. by apply elem_of_nil in Hx.
  - intros tbl Htbl. by destruct (Hshape tbl Htbl) as [H _].
Defined.

(** C2 as stated fails at [n = 31]: [1 << 31] is negative in 32-bit
    arithmetic, so the body loop does not run and the table of thirty-one
    variables has no rows. *)
Lemma enumeration_wraps_at_31 :
  let vars := (λ k : nat, js "x" ++ [N.of_nat (48 + k / 10); N.of_nat (48 + k mod 10)])
                <$> seq 0 31 in
  let opts := mkOptions true false false F_FIRST in
  NoDup vars
  ∧ length vars = 31%nat
  ∧ uniqueVariables codeUnitCompare (TIdent <$> vars) = vars
  ∧ rowCount vars = - 2 ^ 31
  ∧ ∃ tbl, renderTable vars [TIdent (js "x00")] opts = OK tbl
           ∧ varHeaders tbl = vars
           ∧ bodyRows tbl = []
           ∧ Z.of_nat (length (bodyRows tbl)) ≠ 2 ^ 31.
Proof.
  intros vars opts.
  split; [apply (bool_decide_unpack _); vm_compute; exact I|].
  split; [reflexivity|].
  split; [vm_compute; reflexivity|].
  split; [vm_compute; reflexivity|].
  eexists. split; [vm_compute; reflexivity|].
  split; [vm_compute; reflexivity|]. split; [reflexivity|]. simpl. lia.
Qed.

(** ** uniqueVariables *)

Lemma collectIdents_spec tokens : ∀ set,
  NoDup set →
  NoDup (collectIdents tokens set)
  ∧ ∀ x, x ∈ collectIdents tokens set ↔ x ∈ set ∨ TIdent x ∈ tokens.
Proof.
  induction tokens as [|tok tokens IH]; intros set Hnd.
  - split; [done|]. intros x. rewrite elem_of_nil. simpl. tauto.
  - assert (Hother : (∀ y, tok ≠ TIdent y) →
              NoDup (collectIdents tokens set)
              ∧ ∀ x, x ∈ collectIdents tokens set ↔ x ∈ set ∨ TIdent x ∈ tok :: tokens).
    { intros Hne. destruct (IH set Hnd) as [H1 H2]. split; [done|].
      intros x. rewrite H2, elem_of_cons. split; [tauto|].
      intros [H|[H|H]]; [tauto | | tauto]. symmetry in H. by apply Hne in H. }
    destruct tok as [| |op raw|v raw|y]; try (apply Hother; congruence).
    cbn [collectIdents]. unfold setAdd. destruct (decide (y ∈ set)) as [Hin|Hnin].
    + destruct (IH set Hnd) as [H1 H2]. split; [done|].
      intros x. rewrite H2, elem_of_cons. split; [tauto|].
      intros [H|[[= ->]|H]]; tauto.
    + destruct (IH (set ++ [y])) as [H1 H2].
      { apply NoDup_app. split; [done|]. split; [|apply NoDup_singleton].
        intros z Hz Hz'. apply list_elem_of_singleton in Hz' as ->. done. }
      split; [done|]. intros x.
      rewrite H2, elem_of_app, list_elem_of_singleton, elem_of_cons.
      split; [intros [[H| ->]|H]; tauto|].
      intros [H|[[= ->]|H]]; tauto.
Qed.

Lemma handleSubmit_inv localeCompare exprInput opts tbl :
  handleSubmit localeCompare exprInput opts = OK tbl →
  ∃ tokens rpn,
    tokenize (trim exprInput) = OK tokens
    ∧ (length (uniqueVariables localeCompare tokens) ≤ 12)%nat
    ∧ toRPN tokens = OK rpn
    ∧ renderTable (uniqueVariables localeCompare tokens) rpn opts = OK tbl.
Proof.
  unfold handleSubmit. destruct (decide (trim exprInput = [])); [discriminate|].
  intros H. apply bind_OK in H as (tokens & Htok & H).
  destruct (_ >? 12) eqn:Hlen; [discriminate|].
  apply bind_OK in H as (rpn & Hrpn & H).
  exists tokens, rpn. split; [done|]. split; [lia|]. done.
Qed.

Section Collation.

Variable localeCompare : jsstring → jsstring → Z.
Hypothesis collate_total : Total (collateLe localeCompare).
Hypothesis collate_trans : Transitive (collateLe localeCompare).

Lemma uniqueVariables_spec tokens :
  NoDup (uniqueVariables localeCompare tokens)
  ∧ (∀ x, x ∈ uniqueVariables localeCompare tokens ↔ TIdent x ∈ tokens)
  ∧ StronglySorted (collateLe localeCompare) (uniqueVariables localeCompare tokens).
Proof.
  unfold uniqueVariables.
  destruct (collectIdents_spec tokens [] (NoDup_nil_2 : NoDup [])) as [Hnd Hin].
  split; [|split].
  - by rewrite merge_sort_Permutation.
  - intros x. rewrite merge_sort_Permutation, Hin, elem_of_nil. tauto.
  - by apply StronglySorted_merge_sort.
Qed.

(** C9. [uniqueVariables] returns the distinct identifier names of the
    tokens, each once, in ascending order of the collation; and the
    table that [handleSubmit] renders has these names, in this order, as
    its variable columns, the column of position [j] holding in row [i]
    the bit [(i >> (n - j - 1)) & 1] of the row index. *)
Theorem variables_distinct_sorted (tokens : list token) :
  let vars := uniqueVariables localeCompare tokens in
  NoDup vars
  ∧ (∀ x, x ∈ vars ↔ TIdent x ∈ tokens)
  ∧ StronglySorted (collateLe localeCompare) vars
  ∧ ∀ exprInput opts tbl,
      handleSubmit localeCompare exprInput opts = OK tbl →
      ∃ submitted,
        tokenize (trim exprInput) = OK submitted
        ∧ varHeaders tbl = uniqueVariables localeCompare submitted
        ∧ ∀ (i j : nat) row v,
            bodyRows tbl !! i = Some row →
            uniqueVariables localeCompare submitted !! j = Some v →
            let n := Z.of_nat (length (uniqueVariables localeCompare submitted)) in
            let bit := Z.land (Z.shiftr (Z.of_nat i) (n - Z.of_nat j - 1)) 1 in
            varCells row !! j
            = Some (match rowOrder opts with
                    | F_FIRST => bit =? 1
                    | T_FIRST => bit =? 0
                    end).
Proof.
  intros vars. destruct (uniqueVariables_spec tokens) as (Hnd & Hin & Hsorted).
  split; [done|]. split; [done|]. split; [done|].
  intros exprInput opts tbl H.
  apply handleSubmit_inv in H as (submitted & rpn & Htok & Hlen & Hrpn & Htbl).
  exists submitted. split; [done|].
  destruct (renderTable_inv _ _ _ _ Htbl) as (Hhead & _ & _).
  split; [done|]. intros i j row v Hi Hj.
  destruct (uniqueVariables_spec submitted) as (Hnd' & _ & _).
  by destruct (renderTable_bits _ rpn opts tbl Hnd' ltac:(lia) Htbl i j row v Hi Hj).
Qed.

End Collation.

(** The code-unit order is a collation. *)
Lemma codeUnitCompare_le a b :
  collateLe codeUnitCompare a b ↔ a = b ∨ lexico a b.
Proof.
  unfold collateLe, codeUnitCompare.
  destruct (decide (a = b)) as [->|Hne]; [split; [by left | lia]|].
  destruct (decide (lexico a b)); split; try lia; try tauto.
Qed.

Lemma codeUnitCompare_total : Total (collateLe codeUnitCompare).
Proof.
  intros a b. rewrite !codeUnitCompare_le.
  destruct (trichotomy lexico a b) as [H|[H|H]]; tauto.
Qed.

Lemma codeUnitCompare_trans : Transitive (collateLe codeUnitCompare).
Proof.
  intros a b c. rewrite !codeUnitCompare_le.
  intros [->|H1] [->|H2]; try tauto. right. by trans b.
Qed.

Lemma variables_distinct_sorted_witness :
  let tokens := [TIdent (js "q"); TOp AND (js "&"); TIdent (js "p");
                 TOp OR (js "|"); TIdent (js "q")] in
  uniqueVariables codeUnitCompare tokens = [js "p"; js "q"]
  ∧ NoDup (uniqueVariables codeUnitCompare tokens)
  ∧ StronglySorted (collateLe codeUnitCompare) (uniqueVariables codeUnitCompare tokens).
Proof.
  intros tokens. split; [vm_compute; reflexivity|].
  destruct (variables_distinct_sorted codeUnitCompare codeUnitCompare_total
              codeUnitCompare_trans tokens) as (Hnd & _ & Hsorted & _).
  split; [exact Hnd | exact Hsorted].
Defined.

(** ** tokenize: the loop bound is never reached *)

Lemma length_dropWhile {A} (p : A → bool) l : (length (dropWhile p l) ≤ length l)%nat.
Proof.
  induction l as [|x l IH]; simpl; [lia|]. destruct (p x); simpl; lia.
Qed.

Lemma takeWhile_dropWhile {A} (p : A → bool) l : takeWhile p l ++ dropWhile p l = l.
Proof.
  induction l as [|x l IH]; simpl; [done|]. destruct (p x); simpl; [by rewrite IH | done].
Qed.

Lemma matchOperatorIn_elem table rest m op :
  matchOperatorIn table rest = Some (m, op) →
  (m, op) ∈ table ∧ startsWith m rest = true.
Proof.
  induction table as [|[m' op'] table IH]; simpl; [discriminate|].
  destruct (startsWith m' rest) eqn:E.
  - intros [= <- <-]. split; [apply list_elem_of_here | done].
  - intros H. destruct (IH H). split; [by apply list_elem_of_further | done].
Qed.

Lemma OperatorLexemes_nonempty m op : (m, op) ∈ OperatorLexemes → (0 < length m)%nat.
Proof.
  intros H.
  assert (Forall (λ e : jsstring * OpKey, (0 < length e.1)%nat) OperatorLexemes) as HF.
  { unfold OperatorLexemes. repeat (constructor; [simpl; lia|]). constructor. }
  rewrite Forall_forall in HF. apply (HF _ H).
Qed.

Lemma tokenizeLoop_bounds b1 : ∀ b2 rest i tokens,
  (length rest ≤ b1)%nat → (length rest ≤ b2)%nat →
  tokenizeLoop b1 rest i tokens = tokenizeLoop b2 rest i tokens.
Proof.
  induction b1 as [|b1 IH]; intros b2 rest i tokens H1 H2.
  - destruct rest; [by destruct b2 | simpl in H1; lia].
  - destruct rest as [|ch tl]; [by destruct b2|].
    destruct b2 as [|b2]; [simpl in H2; lia|].
    simpl in H1, H2. cbn [tokenizeLoop].
    destruct (isBlank ch); [apply IH; lia|].
    destruct (ch =? cu "(")%N; [apply IH; lia|].
    destruct (ch =? cu ")")%N; [apply IH; lia|].
    destruct (matchOperatorAt (ch :: tl)) as [[m op]|] eqn:Hm.
    { apply matchOperatorIn_elem in Hm as [Hm _].
      apply OperatorLexemes_nonempty in Hm.
      apply IH; rewrite length_drop; simpl; lia. }
    destruct (isIdentStart ch).
    { pose proof (length_dropWhile isIdentPart tl). apply IH; lia. }
    destruct (isDigit ch) eqn:Hd; [|done].
    cbv zeta. destruct (decide _); [|done].
    pose proof (length_dropWhile isDigit (ch :: tl)) as Hlen.
    cbn [dropWhile] in *. rewrite Hd in *. simpl in Hlen.
    pose proof (length_dropWhile isDigit tl). apply IH; lia.
Qed.

Lemma tokenizeLoop_bound bound rest i tokens :
  (length rest ≤ bound)%nat →
  tokenizeLoop bound rest i tokens = tokenizeFrom rest i tokens.
Proof. intros H. by apply tokenizeLoop_bounds. Qed.

Lemma tokenizeLoop_within_bound bound : ∀ rest i tokens,
  (length rest ≤ bound)%nat → tokenizeLoop bound rest i tokens ≠ Err LoopBound.
Proof.
  induction bound as [|bound IH]; intros rest i tokens Hlen.
  - destruct rest; [done | simpl in Hlen; lia].
  - destruct rest as [|ch tl]; [done|]. simpl in Hlen. cbn [tokenizeLoop].
    destruct (isBlank ch); [apply IH; lia|].
    destruct (ch =? cu "(")%N; [apply IH; lia|].
    destruct (ch =? cu ")")%N; [apply IH; lia|].
    destruct (matchOperatorAt (ch :: tl)) as [[m op]|] eqn:Hm.
    { apply matchOperatorIn_elem in Hm as [Hm _].
      apply OperatorLexemes_nonempty in Hm.
      apply IH. rewrite length_drop. simpl. lia. }
    destruct (isIdentStart ch).
    { pose proof (length_dropWhile isIdentPart tl). apply IH. lia. }
    destruct (isDigit ch) eqn:Hd; [|done].
    cbv zeta. destruct (decide _); [|done].
    cbn [dropWhile]. rewrite Hd.
    pose proof (length_dropWhile isDigit tl). apply IH. lia.
Qed.

(** [tokenize] never stops at the bound of its loop. *)
Lemma tokenize_terminates input : tokenize input ≠ Err LoopBound.
Proof. unfold tokenize. by apply tokenizeLoop_within_bound. Qed.

Lemma tokenize_unfold input : tokenize input = tokenizeFrom (trim input) 0 [].
Proof. reflexivity. Qed.

(** The iterations of the loop, by the leading code unit. *)

Lemma tokenizeFrom_nil i tokens : tokenizeFrom [] i tokens = OK tokens.
Proof. reflexivity. Qed.

Lemma tokenizeFrom_blank ch tl i tokens :
  isBlank ch = true → tokenizeFrom (ch :: tl) i tokens = tokenizeFrom tl (i + 1) tokens.
Proof. intros H. unfold tokenizeFrom. cbn [length tokenizeLoop]. by rewrite H. Qed.

Lemma tokenizeFrom_lparen tl i tokens :
  tokenizeFrom (cu "(" :: tl) i tokens = tokenizeFrom tl (i + 1) (tokens ++ [TLParen]).
Proof. reflexivity. Qed.

Lemma tokenizeFrom_rparen tl i tokens :
  tokenizeFrom (cu ")" :: tl) i tokens = tokenizeFrom tl (i + 1) (tokens ++ [TRParen]).
Proof. reflexivity. Qed.

Lemma tokenizeFrom_operator ch tl i tokens m op :
  isBlank ch = false → ch ≠ cu "(" → ch ≠ cu ")" →
  matchOperatorAt (ch :: tl) = Some (m, op) →
  tokenizeFrom (ch :: tl) i tokens
  = tokenizeFrom (drop (length m) (ch :: tl)) (i + Z.of_nat (length m))
                 (tokens ++ [TOp op m]).
Proof.
  intros Hb Hl Hr Hm. unfold tokenizeFrom at 1. cbn [length tokenizeLoop].
  rewrite Hb. apply N.eqb_neq in Hl, Hr. rewrite Hl, Hr, Hm.
  apply tokenizeLoop_bound.
  apply matchOperatorIn_elem in Hm as [Hm _]. apply OperatorLexemes_nonempty in Hm.
  rewrite length_drop. simpl. lia.
Qed.

Lemma tokenizeFrom_word ch tl i tokens :
  isBlank ch = false → ch ≠ cu "(" → ch ≠ cu ")" →
  matchOperatorAt (ch :: tl) = None → isIdentStart ch = true →
  tokenizeFrom (ch :: tl) i tokens
  = tokenizeFrom (dropWhile isIdentPart tl)
                 (i + Z.of_nat (length (ch :: takeWhile isIdentPart tl)))
                 (tokens ++ [classifyWord (ch :: takeWhile isIdentPart tl)]).
Proof.
  intros Hb Hl Hr Hm Hs. unfold tokenizeFrom at 1. cbn [length tokenizeLoop].
  rewrite Hb. apply N.eqb_neq in Hl, Hr. rewrite Hl, Hr, Hm, Hs.
  apply tokenizeLoop_bound, length_dropWhile.
Qed.

(** ** Character classes *)

Ltac cu_eval :=
  repeat match goal with
         | |- context [cu ?c] =>
             let v := eval vm_compute in (cu c) in change (cu c) with v in *
         | H : context [cu ?c] |- _ =>
             let v := eval vm_compute in (cu c) in change (cu c) with v in *
         end.

Ltac char_solve :=
  unfold isIdentStart, isIdentPart, isLetter, isDigit, isBlank, isTrimSpace,
    inRange in *;
  cu_eval;
  repeat (progress rewrite ?andb_true_iff, ?orb_true_iff, ?andb_false_iff,
            ?orb_false_iff, ?N.leb_le, ?N.leb_gt, ?N.eqb_eq, ?N.eqb_neq in *);
  lia.

Lemma isIdentStart_part ch : isIdentStart ch = true → isIdentPart ch = true.
Proof. intros H. char_solve. Qed.

Lemma isIdentPart_plain ch :
  isIdentPart ch = true →
  isBlank ch = false ∧ ch ≠ cu "(" ∧ ch ≠ cu ")" ∧ isTrimSpace ch = false.
Proof. intros H. repeat split; char_solve. Qed.

(** ** Words in the text *)

Lemma startsWith_app m word rest :
  startsWith m word = true → startsWith m (word ++ rest) = true.
Proof.
  revert word. induction m as [|c m IH]; intros word; [done|].
  destruct word as [|w word]; simpl; [discriminate|].
  rewrite !andb_true_iff. intros [H1 H2]. split; [done | by apply IH].
Qed.

Lemma startsWith_word m word rest :
  forallb isIdentPart m = true → delimited rest →
  startsWith m (word ++ rest) = true → startsWith m word = true.
Proof.
  revert word. induction m as [|c m IH]; intros word Hm Hrest; [done|].
  simpl in Hm. apply andb_true_iff in Hm as [Hc Hm].
  destruct word as [|w word]; simpl.
  - destruct rest as [|d rest]; [discriminate|]. simpl in Hrest.
    rewrite andb_true_iff, N.eqb_eq. intros [-> _]. congruence.
  - rewrite !andb_true_iff. intros [H1 H2]. split; [done | by apply IH].
Qed.

Lemma OperatorLexemes_words m op :
  (m, op) ∈ OperatorLexemes →
  match m with
  | [] => False
  | c :: _ => isIdentStart c = false ∨ forallb isIdentPart m = true
  end.
Proof.
  intros H.
  assert (Forall (λ e : jsstring * OpKey,
            match e.1 with
            | [] => False
            | c :: _ => isIdentStart c = false ∨ forallb isIdentPart e.1 = true
            end) OperatorLexemes) as HF.
  { unfold OperatorLexemes.
    repeat (constructor; [vm_compute; tauto|]). constructor. }
  rewrite Forall_forall in HF. apply (HF _ H).
Qed.

Lemma startsWith_word_eq m op ch tl rest :
  (m, op) ∈ OperatorLexemes → isIdentStart ch = true → delimited rest →
  startsWith m ((ch :: tl) ++ rest) = startsWith m (ch :: tl).
Proof.
  intros Hm Hch Hrest. apply OperatorLexemes_words in Hm.
  destruct m as [|c m]; [done|]. destruct Hm as [Hc|Hall].
  - simpl. destruct (N.eqb_spec c ch) as [->|]; [congruence | done].
  - destruct (startsWith (c :: m) (ch :: tl)) eqn:E.
    + by apply startsWith_app.
    + destruct (startsWith (c :: m) ((ch :: tl) ++ rest)) eqn:E'; [|done].
      apply startsWith_word in E'; [congruence | done..].
Qed.

Lemma matchOperatorIn_ext table s1 s2 :
  (∀ m op, (m, op) ∈ table → startsWith m s1 = startsWith m s2) →
  matchOperatorIn table s1 = matchOperatorIn table s2.
Proof.
  induction table as [|[m op] table IH]; intros H; simpl; [done|].
  rewrite (H m op) by apply list_elem_of_here.
  destruct (startsWith m s2); [done|]. apply IH.
  intros m' op' Hin. apply (H m' op'). by apply list_elem_of_further.
Qed.

Lemma matchOperatorAt_word ch tl rest :
  isIdentStart ch = true → delimited rest →
  matchOperatorAt ((ch :: tl) ++ rest) = matchOperatorAt (ch :: tl).
Proof.
  intros Hch Hrest. apply matchOperatorIn_ext.
  intros m op Hm. by eapply startsWith_word_eq.
Qed.

Lemma takeWhile_word (word rest : jsstring) :
  forallb isIdentPart word = true → delimited rest →
  takeWhile isIdentPart (word ++ rest) = word
  ∧ dropWhile isIdentPart (word ++ rest) = rest.
Proof.
  intros Hw Hrest. induction word as [|c word IH]; cbn [app takeWhile dropWhile].
  - destruct rest as [|d rest]; [done|]. cbn [delimited takeWhile dropWhile] in *.
    by rewrite Hrest.
  - cbn [forallb] in Hw. apply andb_true_iff in Hw as [Hc Hw]. rewrite Hc.
    destruct (IH Hw) as [-> ->]. done.
Qed.

Lemma isIdentifier_inv x :
  isIdentifier x = true →
  ∃ ch tl, x = ch :: tl ∧ isIdentStart ch = true ∧ forallb isIdentPart tl = true
           ∧ matchOperatorAt x = None ∧ classifyWord x = TIdent x.
Proof.
  destruct x as [|ch tl]; [discriminate|]. unfold isIdentifier.
  rewrite !andb_true_iff, !bool_decide_eq_true.
  intros [[[H1 H2] H3] H4]. by exists ch, tl.
Qed.

(** A word followed by a delimiter is read whole. *)
Lemma tokenizeFrom_whole_word ch tl rest i tokens :
  isIdentStart ch = true → forallb isIdentPart tl = true →
  matchOperatorAt (ch :: tl) = None → delimited rest →
  tokenizeFrom ((ch :: tl) ++ rest) i tokens
  = tokenizeFrom rest (i + Z.of_nat (length (ch :: tl)))
                 (tokens ++ [classifyWord (ch :: tl)]).
Proof.
  intros Hch Htl Hm Hrest.
  destruct (isIdentPart_plain ch (isIdentStart_part ch Hch)) as (Hb & Hl & Hr & _).
  change ((ch :: tl) ++ rest) with (ch :: (tl ++ rest)).
  rewrite tokenizeFrom_word; try done.
  - by destruct (takeWhile_word tl rest Htl Hrest) as [-> ->].
  - change (ch :: (tl ++ rest)) with ((ch :: tl) ++ rest).
    by rewrite matchOperatorAt_word.
Qed.

Lemma tokenizeFrom_identifier x rest i tokens :
  isIdentifier x = true → delimited rest →
  tokenizeFrom (x ++ rest) i tokens
  = tokenizeFrom rest (i + Z.of_nat (length x)) (tokens ++ [TIdent x]).
Proof.
  intros Hx Hrest.
  apply isIdentifier_inv in Hx as (ch & tl & -> & Hch & Htl & Hm & Hc).
  rewrite tokenizeFrom_whole_word by done. by rewrite Hc.
Qed.

Lemma tokenizeFrom_constant (value : bool) rest i tokens :
  delimited rest →
  let raw := if value then js "T" else js "F" in
  tokenizeFrom (raw ++ rest) i tokens
  = tokenizeFrom rest (i + 1) (tokens ++ [TConst value raw]).
Proof.
  intros Hrest raw. unfold raw. destruct value.
  - exact (tokenizeFrom_whole_word (cu "T") [] rest i tokens eq_refl eq_refl eq_refl Hrest).
  - exact (tokenizeFrom_whole_word (cu "F") [] rest i tokens eq_refl eq_refl eq_refl Hrest).
Qed.

Lemma tokenizeFrom_not rest i tokens :
  tokenizeFrom (js "!" ++ rest) i tokens
  = tokenizeFrom rest (i + 1) (tokens ++ [TOp NOT (js "!")]).
Proof. by apply (tokenizeFrom_operator (cu "!") rest i tokens (js "!") NOT). Qed.

Lemma tokenizeFrom_label op rest i tokens :
  op ≠ NOT →
  tokenizeFrom (OpLabel op ++ cu " " :: rest) i tokens
  = tokenizeFrom (cu " " :: rest) (i + Z.of_nat (length (OpLabel op)))
                 (tokens ++ [TOp op (OpLabel op)]).
Proof.
  intros Hop. destruct op; [done|..].
  - by apply (tokenizeFrom_operator (cu "&") (cu " " :: rest) i tokens (js "&") AND).
  - by apply (tokenizeFrom_operator (cu "^") (cu " " :: rest) i tokens (js "^") XOR).
  - by apply (tokenizeFrom_operator (cu "|") (cu " " :: rest) i tokens (js "|") OR).
  - by apply (tokenizeFrom_operator (cu "-") (cu ">" :: cu " " :: rest) i tokens
                (js "->") IMP).
  - by apply (tokenizeFrom_operator (cu "<") (cu "-" :: cu ">" :: cu " " :: rest)
                i tokens (js "<->") IFF).
Qed.

(** ** tokenize reads a rendering back *)

Lemma render_NOp1 id op a rest :
  render (NOp1 id op a) ++ rest
  = js "!" ++ (if isOpNode a
               then cu "(" :: render a ++ cu ")" :: rest
               else render a ++ rest).
Proof.
  cbn [render]. rewrite <- app_assoc. f_equal.
  destruct (isOpNode a); [|done]. rewrite <- !app_assoc. reflexivity.
Qed.

Lemma render_NOp2 id op a b rest :
  render (NOp2 id op a b) ++ rest
  = cu "(" :: render a ++ cu " " :: OpLabel op ++ cu " " :: render b ++ cu ")" :: rest.
Proof. cbn [render]. rewrite <- !app_assoc. reflexivity. Qed.

Lemma tokenizeFrom_render n :
  wfNode n → Forall (λ x, isIdentifier x = true) (nodeVars n) →
  ∀ rest i tokens, delimited rest →
    ∃ i', tokenizeFrom (render n ++ rest) i tokens
          = tokenizeFrom rest i' (tokens ++ tokensOf n).
Proof.
  induction n as [id name|id value|id op a IHa|id op a IHa b IHb];
    intros Hwf Hvars rest i tokens Hrest.
  - apply Forall_cons in Hvars as [Hx _]. eexists.
    by apply tokenizeFrom_identifier.
  - eexists. by apply tokenizeFrom_constant.
  - destruct Hwf as [_ Ha]. simpl in Hvars. specialize (IHa Ha Hvars).
    rewrite render_NOp1, tokenizeFrom_not. cbn [tokensOf].
    destruct (isOpNode a).
    + rewrite tokenizeFrom_lparen.
      destruct (IHa (cu ")" :: rest) (i + 1 + 1)
                  ((tokens ++ [TOp NOT (js "!")]) ++ [TLParen])) as [i' ->]; [done|].
      rewrite tokenizeFrom_rparen. eexists. f_equal.
      rewrite <- !app_assoc. reflexivity.
    + destruct (IHa rest (i + 1) (tokens ++ [TOp NOT (js "!")])) as [i' ->]; [done|].
      eexists. f_equal. rewrite <- !app_assoc. reflexivity.
  - destruct Hwf as (Har & Ha & Hb). simpl in Hvars.
    apply Forall_app in Hvars as [Hva Hvb].
    specialize (IHa Ha Hva). specialize (IHb Hb Hvb).
    assert (op ≠ NOT) as Hop by (intros ->; discriminate).
    rewrite render_NOp2, tokenizeFrom_lparen.
    destruct (IHa (cu " " :: OpLabel op ++ cu " " :: render b ++ cu ")" :: rest)
                (i + 1) (tokens ++ [TLParen])) as [i1 ->]; [done|].
    rewrite tokenizeFrom_blank by done.
    rewrite tokenizeFrom_label by done.
    rewrite tokenizeFrom_blank by done.
    destruct (IHb (cu ")" :: rest) (i1 + 1 + Z.of_nat (length (OpLabel op)) + 1)
                (((tokens ++ [TLParen]) ++ tokensOf a) ++ [TOp op (OpLabel op)]))
      as [i2 ->]; [done|].
    rewrite tokenizeFrom_rparen. eexists. f_equal.
    cbn [tokensOf]. rewrite <- !app_assoc. reflexivity.
Qed.

(** ** trim leaves a rendering alone *)

Lemma trim_id s c l :
  head s = Some c → last s = Some l →
  isTrimSpace c = false → isTrimSpace l = false → trim s = s.
Proof.
  intros Hc Hl Hwc Hwl. unfold trim.
  apply head_Some in Hc as [s' ->]. cbn [dropWhile]. rewrite Hwc.
  apply last_Some in Hl as [s0 Hs0]. rewrite Hs0, rev_app_distr.
  cbn [rev app dropWhile]. rewrite Hwl.
  change (l :: rev s0) with ([l] ++ rev s0).
  by rewrite rev_app_distr, rev_involutive.
Qed.

Lemma isIdentifier_ends x :
  isIdentifier x = true →
  ∃ c l, head x = Some c ∧ last x = Some l
         ∧ isTrimSpace c = false ∧ isTrimSpace l = false.
Proof.
  intros Hx. apply isIdentifier_inv in Hx as (ch & tl & -> & Hch & Htl & _ & _).
  assert (Hall : ∀ c, c ∈ ch :: tl → isTrimSpace c = false).
  { intros c Hc. apply isIdentPart_plain.
    apply elem_of_cons in Hc as [->|Hc]; [by apply isIdentStart_part|].
    rewrite forallb_forall in Htl. by apply Htl, list_elem_of_In. }
  destruct (last (ch :: tl)) as [l|] eqn:Hl.
  - exists ch, l. split; [done|]. split; [done|]. split.
    + apply Hall, list_elem_of_here.
    + by apply Hall, last_Some_elem_of.
  - by apply last_None in Hl.
Qed.

Lemma render_ends n :
  Forall (λ x, isIdentifier x = true) (nodeVars n) →
  ∃ c l, head (render n) = Some c ∧ last (render n) = Some l
         ∧ isTrimSpace c = false ∧ isTrimSpace l = false.
Proof.
  induction n as [id name|id value|id op a IHa|id op a IHa b IHb]; intros Hvars.
  - apply Forall_cons in Hvars as [Hx _]. by apply isIdentifier_ends.
  - destruct value; by eexists _, _.
  - destruct (IHa Hvars) as (c & l & Hc & Hl & Hwc & Hwl).
    cbn [render]. destruct (isOpNode a).
    + exists (cu "!"), (cu ")"). split; [done|]. split; [|done].
      by rewrite !last_app.
    + exists (cu "!"), l. split; [done|]. split; [|done].
      by rewrite last_app, Hl.
  - exists (cu "("), (cu ")"). split; [done|]. split; [|done].
    cbn [render]. by rewrite !last_app.
Qed.

Lemma tokenize_render n :
  wfNode n → Forall (λ x, isIdentifier x = true) (nodeVars n) →
  tokenize (render n) = OK (tokensOf n).
Proof.
  intros Hwf Hvars. rewrite tokenize_unfold.
  destruct (render_ends n Hvars) as (c & l & Hc & Hl & Hwc & Hwl).
  rewrite (trim_id _ c l) by done.
  destruct (tokenizeFrom_render n Hwf Hvars [] 0 [] I) as [i' H].
  rewrite app_nil_r in H. by rewrite H.
Qed.

(** ** toRPN on the tokens of a rendering *)

Lemma popOperators_NOT output ops :
  popOperators (Operators NOT) output ops = (output, ops).
Proof. destruct ops as [|[| |top raw| |] ops]; try done. by destruct top. Qed.

Lemma emittedOf_pendingOf n : emittedOf n ++ pendingOf n = postfixOf n.
Proof. destruct n; simpl; by rewrite ?app_nil_r. Qed.

Lemma popOperators_pending op n output ops :
  op ≠ NOT →
  popOperators (Operators op) output (pendingOf n ++ TLParen :: ops)
  = (output ++ pendingOf n, TLParen :: ops).
Proof.
  intros Hop. destruct n; cbn [pendingOf app popOperators]; rewrite ?app_nil_r; try done.
  by destruct op.
Qed.

Lemma popToLeftParen_pending n output ops :
  popToLeftParen output (pendingOf n ++ TLParen :: ops)
  = Some (output ++ pendingOf n, ops).
Proof. destruct n; cbn [pendingOf app popToLeftParen]; by rewrite ?app_nil_r. Qed.

Lemma popToLeftParen_pending_op n op raw output ops :
  popToLeftParen output (pendingOf n ++ TOp op raw :: TLParen :: ops)
  = Some (output ++ pendingOf n ++ [TOp op raw], ops).
Proof.
  destruct n; cbn [pendingOf app popToLeftParen]; by rewrite <- ?app_assoc.
Qed.

Lemma leaf_postfix a :
  isOpNode a = false → pendingOf a = [] ∧ emittedOf a = postfixOf a.
Proof. by destruct a. Qed.

Lemma toRPNLoop_cons tok tokens st :
  toRPNLoop (tok :: tokens) st = toRPNStep st tok ≫= toRPNLoop tokens.
Proof. reflexivity. Qed.

Lemma toRPNLoop_render n :
  wfNode n → ∀ rest output ops,
    toRPNLoop (tokensOf n ++ rest) (output, ops)
    = toRPNLoop rest (output ++ emittedOf n, pendingOf n ++ ops).
Proof.
  induction n as [id name|id value|id op a IHa|id op a IHa b IHb];
    intros Hwf rest output ops.
  - reflexivity.
  - reflexivity.
  - destruct Hwf as [_ Ha]. specialize (IHa Ha).
    cbn [tokensOf app]. rewrite toRPNLoop_cons. cbn [toRPNStep].
    rewrite popOperators_NOT. cbn [mbind result_bind].
    destruct (isOpNode a) eqn:Hleaf.
    + cbn [app]. rewrite toRPNLoop_cons. cbn [toRPNStep mbind result_bind].
      rewrite <- app_assoc, IHa. cbn [app].
      rewrite toRPNLoop_cons. cbn [toRPNStep].
      rewrite popToLeftParen_pending. cbn [mbind result_bind].
      by rewrite <- app_assoc, emittedOf_pendingOf.
    + rewrite IHa. by destruct (leaf_postfix a Hleaf) as [-> ->].
  - destruct Hwf as (Har & Ha & Hb). specialize (IHa Ha). specialize (IHb Hb).
    assert (op ≠ NOT) as Hop by (intros ->; discriminate).
    cbn [tokensOf app]. rewrite toRPNLoop_cons. cbn [toRPNStep mbind result_bind].
    rewrite <- !app_assoc, IHa. cbn [app].
    rewrite toRPNLoop_cons. cbn [toRPNStep].
    rewrite popOperators_pending by done. cbn [mbind result_bind].
    rewrite <- !app_assoc, emittedOf_pendingOf, IHb. cbn [app].
    rewrite toRPNLoop_cons. cbn [toRPNStep].
    rewrite popToLeftParen_pending_op. cbn [mbind result_bind emittedOf pendingOf app].
    do 2 f_equal. cbn [postfixOf].
    rewrite <- (emittedOf_pendingOf b), <- !app_assoc. reflexivity.
Qed.

Lemma toRPN_render n : wfNode n → toRPN (tokensOf n) = OK (postfixOf n).
Proof.
  intros Hwf. unfold toRPN.
  rewrite <- (app_nil_r (tokensOf n)), toRPNLoop_render by done.
  cbn [toRPNLoop mbind result_bind fst snd app]. rewrite app_nil_r.
  rewrite <- emittedOf_pendingOf. by destruct n; cbn; rewrite ?app_nil_r.
Qed.

(** ** evalRPN on the postfix sequence of a node *)

Lemma evalRPNLoop_app env l1 l2 stack :
  evalRPNLoop env (l1 ++ l2) stack = evalRPNLoop env l1 stack ≫= evalRPNLoop env l2.
Proof.
  revert stack. induction l1 as [|tok l1 IH]; intros stack; [done|].
  cbn [app evalRPNLoop]. destruct (evalRPNStep env stack tok); [apply IH | done].
Qed.

Lemma evalRPNLoop_postfix env n :
  wfNode n → ∀ v, nodeValue env n = Some v →
  ∀ stack, evalRPNLoop env (postfixOf n) stack = OK (v :: stack).
Proof.
  induction n as [id name|id value|id op a IHa|id op a IHa b IHb];
    intros Hwf v Hv stack.
  - simpl in *. by rewrite Hv.
  - simpl in *. by injection Hv as ->.
  - destruct Hwf as [Har Ha]. cbn [nodeValue] in Hv.
    destruct (nodeValue env a) as [va|] eqn:Ea; [|done]. injection Hv as <-.
    destruct (arity_cases op) as [[-> _]|[_ H2]]; [|congruence].
    cbn [postfixOf]. rewrite evalRPNLoop_app, (IHa Ha va eq_refl). reflexivity.
  - destruct Hwf as (Har & Ha & Hb). cbn [nodeValue] in Hv.
    destruct (nodeValue env a) as [va|] eqn:Ea; [|done].
    destruct (nodeValue env b) as [vb|] eqn:Eb; [|done]. injection Hv as <-.
    cbn [postfixOf]. rewrite evalRPNLoop_app, (IHa Ha va eq_refl).
    cbn [mbind result_bind]. rewrite evalRPNLoop_app, (IHb Hb vb eq_refl).
    cbn [mbind result_bind evalRPNLoop evalRPNStep]. rewrite Har. reflexivity.
Qed.

Lemma evalRPN_postfix env n v :
  wfNode n → nodeValue env n = Some v → evalRPN (postfixOf n) env = OK v.
Proof.
  intros Hwf Hv. unfold evalRPN. by rewrite (evalRPNLoop_postfix env n Hwf v Hv).
Qed.

(** ** The identifiers that tokenize emits *)

Lemma forallb_takeWhile {A} (p : A → bool) l : forallb p (takeWhile p l) = true.
Proof.
  induction l as [|x l IH]; [done|]. cbn [takeWhile].
  destruct (p x) eqn:E; [|done]. cbn [forallb]. by rewrite E, IH.
Qed.

Lemma matchOperatorIn_prefix table word rest :
  matchOperatorIn table (word ++ rest) = None → matchOperatorIn table word = None.
Proof.
  induction table as [|[m op] table IH]; [done|]. cbn [matchOperatorIn].
  destruct (startsWith m word) eqn:E.
  - by rewrite (startsWith_app _ _ rest E).
  - destruct (startsWith m (word ++ rest)); [done | apply IH].
Qed.

Lemma classifyWord_ident word x : classifyWord word = TIdent x → x = word.
Proof.
  unfold classifyWord.
  destruct (lookupLexeme ConstLexemes _); [done|].
  destruct (lookupLexeme OperatorLexemes _); [done|]. by intros [= <-].
Qed.

Lemma tokenizeLoop_idents bound : ∀ rest i tokens result x,
  tokenizeLoop bound rest i tokens = OK result → TIdent x ∈ result →
  TIdent x ∈ tokens ∨ isIdentifier x = true.
Proof.
  assert (Hpush : ∀ tokens tok x,
    TIdent x ∈ tokens ++ [tok] ∨ isIdentifier x = true →
    (tok = TIdent x → isIdentifier x = true) →
    TIdent x ∈ tokens ∨ isIdentifier x = true).
  { intros tokens tok x [H|H] Htok; [|by right].
    apply elem_of_app in H as [H|H]; [by left|].
    apply list_elem_of_singleton in H. right. by apply Htok. }
  induction bound as [|bound IH]; intros rest i tokens result x.
  - destruct rest; [|done]. intros [= <-]. by left.
  - destruct rest as [|ch tl]; [intros [= <-]; by left|].
    cbn [tokenizeLoop].
    destruct (isBlank ch); [apply IH|].
    destruct (ch =? cu "(")%N.
    { intros H Hx. by eapply Hpush; [eapply IH|]. }
    destruct (ch =? cu ")")%N.
    { intros H Hx. by eapply Hpush; [eapply IH|]. }
    destruct (matchOperatorAt (ch :: tl)) as [[m op]|] eqn:Hm.
    { intros H Hx. by eapply Hpush; [eapply IH|]. }
    destruct (isIdentStart ch) eqn:Hch.
    { intros H Hx. eapply Hpush; [by eapply IH|].
      intros Hc. pose proof (classifyWord_ident _ _ Hc) as ->.
      unfold isIdentifier. rewrite Hch, forallb_takeWhile. cbn [andb].
      apply andb_true_iff. split; apply bool_decide_eq_true; [|done].
      apply (matchOperatorIn_prefix _ _ (dropWhile isIdentPart tl)).
      change ((ch :: takeWhile isIdentPart tl) ++ dropWhile isIdentPart tl)
        with (ch :: (takeWhile isIdentPart tl ++ dropWhile isIdentPart tl)).
      by rewrite takeWhile_dropWhile. }
    destruct (isDigit ch); [|done]. cbv zeta.
    destruct (decide _); [|done].
    intros H Hx. by eapply Hpush; [eapply IH|].
Qed.

(** Every identifier token that [tokenize] emits is an identifier name. *)
Lemma tokenize_idents input tokens x :
  tokenize input = OK tokens → TIdent x ∈ tokens → isIdentifier x = true.
Proof.
  unfold tokenize. intros H Hx.
  destruct (tokenizeLoop_idents _ _ _ _ _ _ H Hx) as [Hnil|]; [|done].
  by apply elem_of_nil in Hnil.
Qed.

(** A name is an identifier name exactly when, on its own, it lexes as
    that identifier. *)
Lemma isIdentifier_tokenize x :
  isIdentifier x = true ↔ tokenize x = OK [TIdent x].
Proof.
  split.
  - intros Hx. rewrite tokenize_unfold.
    destruct (isIdentifier_ends x Hx) as (c & l & Hc & Hl & Hwc & Hwl).
    rewrite (trim_id _ c l) by done.
    rewrite <- (app_nil_r x) at 1. by rewrite tokenizeFrom_identifier.
  - intros H. apply (tokenize_idents x [TIdent x] x H), list_elem_of_here.
Qed.

(** The variable names of a tree that comes from a text are identifier
    names. *)
Lemma pipeline_names input tokens rpn root x :
  tokenize input = OK tokens → toRPN tokens = OK rpn → rpnToAst rpn = OK root →
  x ∈ nodeVars root → tokenize x = OK [TIdent x].
Proof.
  intros Htok Hrpn Hroot Hx. apply isIdentifier_tokenize.
  apply (tokenize_idents input tokens x Htok).
  apply (toRPN_tokens tokens rpn _ Hrpn). by eapply rpnToAst_vars.
Qed.

(** ** Round trip through the rendering *)

(** The round trip for a node whose variable names each lex, on their
    own, as that identifier. *)
Lemma render_round_trip_names (rpn : list token) (root n : node)
    (env : gmap jsstring bool) :
  rpnToAst rpn = OK root → n ∈ subnodes root →
  (∀ x, x ∈ nodeVars n → tokenize x = OK [TIdent x]) →
  (∀ x, x ∈ nodeVars n → is_Some (env !! x)) →
  ∃ label tokens rpn' v cache,
    formatNode n = OK label
    ∧ tokenize label = OK tokens
    ∧ toRPN tokens = OK rpn'
    ∧ evalRPN rpn' env = OK v
    ∧ computeValue n env ∅ = OK (v, cache).
Proof.
  intros Hroot Hn Hnames Hbound.
  destruct (rpnToAst_computeValue env _ rpn root Hroot eq_refl) as (_ & Hwfr & Hcv).
  pose proof (wfNode_subnodes root n Hwfr Hn) as Hwf.
  destruct (nodeValue_is_Some env n Hbound) as [v Hv].
  specialize (Hcv n ∅ Hn (cacheSound_empty _ _)). rewrite Hv in Hcv.
  destruct Hcv as (cache & Hcv & _).
  assert (Forall (λ x, isIdentifier x = true) (nodeVars n)) as Hids.
  { apply Forall_forall. intros x Hx. by apply isIdentifier_tokenize, Hnames. }
  exists (render n), (tokensOf n), (postfixOf n), v, cache.
  split; [by apply formatNode_render|].
  split; [by apply tokenize_render|].
  split; [by apply toRPN_render|].
  split; [by apply evalRPN_postfix | done].
Qed.

(** C8.  For every node of a tree that [rpnToAst] builds from the postfix
    sequence that [toRPN] gives for the tokens of a text, the rendering of
    the node is tokenized and converted to a postfix sequence on which
    [evalRPN] returns the value that [computeValue] returns on the node,
    under every assignment that binds the node's variables. *)
Theorem render_round_trip (input : jsstring) (submitted rpn : list token)
    (root n : node) (env : gmap jsstring bool) :
  tokenize input = OK submitted → toRPN submitted = OK rpn →
  rpnToAst rpn = OK root → n ∈ subnodes root →
  (∀ x, x ∈ nodeVars n → is_Some (env !! x)) →
  ∃ label tokens rpn' v cache,
    formatNode n = OK label
    ∧ tokenize label = OK tokens
    ∧ toRPN tokens = OK rpn'
    ∧ evalRPN rpn' env = OK v
    ∧ computeValue n env ∅ = OK (v, cache).
Proof.
  intros Htok Hrpn Hroot Hn Hbound.
  apply (render_round_trip_names rpn root n env Hroot Hn); [|done].
  intros x Hx. apply (pipeline_names input submitted rpn root x Htok Hrpn Hroot).
  by apply (nodeVars_subnodes root n).
Qed.

Lemma render_round_trip_witness :
  let inner := NOp2 3 AND (NVar 1 (js "a")) (NVar 2 (js "b")) in
  let env : gmap jsstring bool := <[js "a" := true]> (<[js "b" := false]> ∅) in
  ∃ submitted rpn,
    tokenize (js "not (a and b)") = OK submitted
    ∧ toRPN submitted = OK rpn
    ∧ rpnToAst rpn = OK (NOp1 4 NOT inner)
    ∧ ∃ label tokens rpn' v cache,
        formatNode inner = OK label
        ∧ tokenize label = OK tokens
        ∧ toRPN tokens = OK rpn'
        ∧ evalRPN rpn' env = OK v
        ∧ computeValue inner env ∅ = OK (v, cache).
Proof.
  intros inner env.
  exists [TOp NOT (js "not"); TLParen; TIdent (js "a"); TOp AND (js "and");
          TIdent (js "b"); TRParen],
         [TIdent (js "a"); TIdent (js "b"); TOp AND (js "and"); TOp NOT (js "not")].
  split; [reflexivity|]. split; [reflexivity|]. split; [reflexivity|].
  apply (render_round_trip (js "not (a and b)") _ _ (NOp1 4 NOT inner) inner env
           eq_refl eq_refl eq_refl).
  - apply list_elem_of_further, list_elem_of_here.
  - intros x Hx.
    apply elem_of_cons in Hx as [->|Hx]; [by eexists|].
    apply elem_of_cons in Hx as [->|Hx]; [by eexists|].
    by apply elem_of_nil in Hx.
Defined.

(** * Further properties *)

(** ** tokenize keeps the text *)

Lemma startsWith_split m rest :
  startsWith m rest = true → rest = m ++ drop (length m) rest.
Proof.
  revert rest. induction m as [|c m IH]; intros rest; [done|].
  destruct rest as [|d rest]; [done|]. cbn [startsWith].
  rewrite andb_true_iff, N.eqb_eq. intros [-> H]. cbn [length drop app].
  f_equal. by apply IH.
Qed.

Lemma dropWhile_drop {A} (p : A → bool) l :
  dropWhile p l = drop (length (takeWhile p l)) l.
Proof.
  induction l as [|x l IH]; [done|]. cbn [dropWhile takeWhile].
  destruct (p x); [apply IH | done].
Qed.

Lemma filter_nonblank_id (word : jsstring) :
  Forall (λ c, isBlank c = false) word → filter (λ c, isBlank c = false) word = word.
Proof.
  induction 1 as [|c word Hc _ IH]; [done|].
  by rewrite filter_cons_True, IH.
Qed.

Lemma identPart_nonblank (word : jsstring) :
  forallb isIdentPart word = true → Forall (λ c, isBlank c = false) word.
Proof.
  rewrite forallb_forall, Forall_forall. intros H c Hc.
  apply isIdentPart_plain, H. by apply list_elem_of_In.
Qed.

Lemma digits_nonblank (word : jsstring) :
  forallb isDigit word = true → Forall (λ c, isBlank c = false) word.
Proof.
  rewrite forallb_forall, Forall_forall. intros H c Hc.
  apply list_elem_of_In, H in Hc. char_solve.
Qed.

Lemma OperatorLexemes_nonblank m op :
  (m, op) ∈ OperatorLexemes → Forall (λ c, isBlank c = false) m.
Proof.
  intros H.
  assert (Forall (λ e : jsstring * OpKey, forallb (λ c, negb (isBlank c)) e.1 = true)
            OperatorLexemes) as HF.
  { unfold OperatorLexemes. repeat (constructor; [vm_compute; reflexivity|]). constructor. }
  rewrite Forall_forall in HF. specialize (HF _ H). simpl in HF.
  rewrite forallb_forall in HF. apply Forall_forall. intros c Hc.
  apply list_elem_of_In, HF in Hc. by apply negb_true_iff in Hc.
Qed.

Lemma tokenText_classifyWord word : tokenText (classifyWord word) = word.
Proof.
  unfold classifyWord.
  destruct (lookupLexeme ConstLexemes _); [done|].
  by destruct (lookupLexeme OperatorLexemes _).
Qed.

Lemma tokenizeLoop_text bound : ∀ rest i tokens result,
  tokenizeLoop bound rest i tokens = OK result →
  concat (tokenText <$> result)
  = concat (tokenText <$> tokens) ++ filter (λ c, isBlank c = false) rest.
Proof.
  assert (Hpush : ∀ (tokens : list token) tok (rest : jsstring),
    concat (tokenText <$> (tokens ++ [tok])) ++ rest
    = concat (tokenText <$> tokens) ++ tokenText tok ++ rest).
  { intros. rewrite fmap_app, concat_app. cbn. by rewrite app_nil_r, <- app_assoc. }
  induction bound as [|bound IH]; intros rest i tokens result.
  - destruct rest; [|done]. intros [= <-]. by rewrite app_nil_r.
  - destruct rest as [|ch tl]; [intros [= <-]; by rewrite app_nil_r|].
    cbn [tokenizeLoop].
    destruct (isBlank ch) eqn:Hb.
    { intros H. rewrite (IH _ _ _ _ H). by rewrite filter_cons_False by congruence. }
    destruct (N.eqb_spec ch (cu "(")) as [->|Hl].
    { intros H. by rewrite (IH _ _ _ _ H), Hpush, filter_cons_True. }
    destruct (N.eqb_spec ch (cu ")")) as [->|Hr].
    { intros H. by rewrite (IH _ _ _ _ H), Hpush, filter_cons_True. }
    destruct (matchOperatorAt (ch :: tl)) as [[m op]|] eqn:Hm.
    { intros H. rewrite (IH _ _ _ _ H), Hpush. f_equal. cbn [tokenText].
      apply matchOperatorIn_elem in Hm as [Hin Hs].
      pose proof (startsWith_split _ _ Hs) as E.
      set (r := drop (length m) (ch :: tl)) in *. rewrite E.
      by rewrite filter_app, (filter_nonblank_id m (OperatorLexemes_nonblank _ _ Hin)). }
    destruct (isIdentStart ch) eqn:Hch.
    { intros H. rewrite (IH _ _ _ _ H), Hpush, tokenText_classifyWord. f_equal.
      rewrite filter_cons_True by done. cbn [app]. f_equal.
      pose proof (takeWhile_dropWhile isIdentPart tl) as E.
      set (w := takeWhile isIdentPart tl) in *.
      set (r := dropWhile isIdentPart tl) in *. rewrite <- E.
      rewrite filter_app. f_equal. symmetry. subst w.
      apply filter_nonblank_id, identPart_nonblank, forallb_takeWhile. }
    destruct (isDigit ch) eqn:Hd; [|done]. cbv zeta.
    destruct (decide _); [|done].
    intros H. rewrite (IH _ _ _ _ H), Hpush. f_equal. cbn [tokenText].
    pose proof (takeWhile_dropWhile isDigit (ch :: tl)) as E.
    set (num := takeWhile isDigit (ch :: tl)) in *.
    set (r := dropWhile isDigit (ch :: tl)) in *. rewrite <- E.
    rewrite filter_app. f_equal. symmetry. subst num.
    apply filter_nonblank_id, digits_nonblank, forallb_takeWhile.
Qed.

(** X1. The tokens that [tokenize] returns spell the input: their texts,
    in order, are the trimmed input with the blanks (space, tab, line
    feed, carriage return) removed. *)
Theorem tokenize_keeps_text (input : jsstring) (tokens : list token) :
  tokenize input = OK tokens →
  concat (tokenText <$> tokens) = filter (λ c, isBlank c = false) (trim input).
Proof. intros H. by rewrite (tokenizeLoop_text _ _ _ _ _ H). Qed.

Lemma tokenize_keeps_text_witness :
  let input := js "  (p ->  NOT q)" in
  concat (tokenText <$> [TLParen; TIdent (js "p"); TOp IMP (js "->");
                         TOp NOT (js "NOT"); TIdent (js "q"); TRParen])
  = filter (λ c, isBlank c = false) (trim input).
Proof. intros input. apply (tokenize_keeps_text input). reflexivity. Defined.

(** ** tokenize: what its errors say *)

Lemma drop_cons_inv {A} (l : list A) n x tl :
  drop n l = x :: tl → l !! n = Some x ∧ ∀ k, drop (n + k) l = drop k (x :: tl).
Proof.
  intros H. split.
  - rewrite <- (Nat.add_0_r n), <- lookup_drop, H. done.
  - intros k. by rewrite <- drop_drop, H.
Qed.

Lemma tokenizeLoop_errors (s : jsstring) bound : ∀ rest i tokens e,
  0 ≤ i → drop (Z.to_nat i) s = rest → (length rest ≤ bound)%nat →
  tokenizeLoop bound rest i tokens = Err e →
  (∃ numStr, e = UnexpectedNumber numStr ∧ numStr ≠ []
             ∧ forallb isDigit numStr = true
             ∧ numStr ≠ js "0" ∧ numStr ≠ js "1")
  ∨ (∃ ch pos, e = UnexpectedCharacter ch pos
               ∧ 1 ≤ pos ≤ Z.of_nat (length s)
               ∧ s !! Z.to_nat (pos - 1) = Some ch
               ∧ isBlank ch = false ∧ ch ≠ cu "(" ∧ ch ≠ cu ")"
               ∧ isIdentStart ch = false ∧ isDigit ch = false
               ∧ matchOperatorAt (drop (Z.to_nat (pos - 1)) s) = None).
Proof.
  induction bound as [|bound IH]; intros rest i tokens e Hi Hrest Hlen.
  - destruct rest; [done | simpl in Hlen; lia].
  - destruct rest as [|ch tl]; [done|].
    destruct (drop_cons_inv _ _ _ _ Hrest) as [Hch Hdrop].
    assert (Hnext : ∀ k : nat, drop (Z.to_nat (i + Z.of_nat k)) s = drop k (ch :: tl)).
    { intros k. rewrite <- Hdrop. f_equal. lia. }
    simpl in Hlen. cbn [tokenizeLoop].
    destruct (isBlank ch) eqn:Hb.
    { apply IH; [lia | apply (Hnext 1%nat) | lia]. }
    destruct (N.eqb_spec ch (cu "(")) as [->|Hl].
    { apply IH; [lia | apply (Hnext 1%nat) | lia]. }
    destruct (N.eqb_spec ch (cu ")")) as [->|Hr].
    { apply IH; [lia | apply (Hnext 1%nat) | lia]. }
    destruct (matchOperatorAt (ch :: tl)) as [[m op]|] eqn:Hm.
    { apply matchOperatorIn_elem in Hm as [Hm _].
      apply OperatorLexemes_nonempty in Hm.
      apply IH; [lia | apply Hnext | rewrite length_drop; simpl; lia]. }
    destruct (isIdentStart ch) eqn:Hs.
    { pose proof (length_dropWhile isIdentPart tl).
      apply IH; [lia | | lia].
      rewrite Hnext, dropWhile_drop. reflexivity. }
    destruct (isDigit ch) eqn:Hd.
    + cbv zeta. destruct (decide _) as [Hnum|Hnum].
      * pose proof (length_dropWhile isDigit (ch :: tl)) as Hlen'.
        cbn [dropWhile] in Hlen'. rewrite Hd in Hlen'.
        pose proof (length_dropWhile isDigit tl).
        apply IH; [lia | | cbn [dropWhile]; rewrite Hd; lia].
        by rewrite Hnext, <- dropWhile_drop.
      * intros [= <-]. left. exists (takeWhile isDigit (ch :: tl)).
        split; [done|]. split.
        { intros E. cbn [takeWhile] in E. by rewrite Hd in E. }
        split; [apply forallb_takeWhile|]. tauto.
    + intros [= <-]. right. exists ch, (i + 1).
      pose proof (lookup_lt_Some _ _ _ Hch).
      replace (i + 1 - 1) with i by lia. rewrite Hrest.
      split; [done|]. split; [lia|]. done.
Qed.

(** X2. [tokenize] fails in two ways only.  A number error carries a run
    of digits of the text other than ["0"] and ["1"]; a character error
    carries a code unit of the trimmed text and its 1-based position
    there, and that code unit is no blank, parenthesis, letter,
    underscore or digit, and no operator lexeme starts at it. *)
Theorem tokenize_errors (input : jsstring) (e : error) :
  tokenize input = Err e →
  (∃ numStr, e = UnexpectedNumber numStr ∧ numStr ≠ []
             ∧ forallb isDigit numStr = true
             ∧ numStr ≠ js "0" ∧ numStr ≠ js "1")
  ∨ (∃ ch pos, e = UnexpectedCharacter ch pos
               ∧ 1 ≤ pos ≤ Z.of_nat (length (trim input))
               ∧ trim input !! Z.to_nat (pos - 1) = Some ch
               ∧ isBlank ch = false ∧ ch ≠ cu "(" ∧ ch ≠ cu ")"
               ∧ isIdentStart ch = false ∧ isDigit ch = false
               ∧ matchOperatorAt (drop (Z.to_nat (pos - 1)) (trim input)) = None).
Proof.
  unfold tokenize. apply tokenizeLoop_errors; [lia | done | lia].
Qed.

Lemma tokenize_errors_witness :
  tokenize (js " a & #b ") = Err (UnexpectedCharacter (cu "#") 5)
  ∧ trim (js " a & #b ") !! Z.to_nat (5 - 1) = Some (cu "#").
Proof.
  split; [reflexivity|].
  destruct (tokenize_errors (js " a & #b ") (UnexpectedCharacter (cu "#") 5) eq_refl)
    as [(numStr & Hnum & _)|(ch & pos & Hpos & _ & Hch & _)].
  - discriminate Hnum.
  - injection Hpos as <- <-. exact Hch.
Defined.

(** ** tokenize: tokens and the lexeme tables *)

Lemma OperatorLexemes_lookup m op :
  (m, op) ∈ OperatorLexemes → lookupLexeme OperatorLexemes (toLowerCase m) = Some op.
Proof.
  intros H.
  assert (Forall (λ e : jsstring * OpKey,
            lookupLexeme OperatorLexemes (toLowerCase e.1) = Some e.2)
            OperatorLexemes) as HF.
  { unfold OperatorLexemes at 2.
    repeat (constructor; [vm_compute; reflexivity|]). constructor. }
  rewrite Forall_forall in HF. apply (HF _ H).
Qed.

Lemma classifyWord_classified word : classified (classifyWord word).
Proof.
  unfold classifyWord. destruct (lookupLexeme ConstLexemes _) eqn:Ec; [done|].
  by destruct (lookupLexeme OperatorLexemes _) eqn:Eo.
Qed.

Lemma tokenizeLoop_classified bound : ∀ rest i tokens result,
  tokenizeLoop bound rest i tokens = OK result →
  Forall classified tokens → Forall classified result.
Proof.
  induction bound as [|bound IH]; intros rest i tokens result.
  - destruct rest; [|done]. by intros [= <-].
  - destruct rest as [|ch tl]; [by intros [= <-]|].
    cbn [tokenizeLoop].
    destruct (isBlank ch); [apply IH|].
    destruct (ch =? cu "(")%N.
    { intros H HF. apply (IH _ _ _ _ H), Forall_app. by split; [|constructor]. }
    destruct (ch =? cu ")")%N.
    { intros H HF. apply (IH _ _ _ _ H), Forall_app. by split; [|constructor]. }
    destruct (matchOperatorAt (ch :: tl)) as [[m op]|] eqn:Hm.
    { intros H HF. apply (IH _ _ _ _ H), Forall_app. split; [done|].
      constructor; [|constructor]. apply OperatorLexemes_lookup.
      by apply matchOperatorIn_elem in Hm as [Hm _]. }
    destruct (isIdentStart ch).
    { intros H HF. apply (IH _ _ _ _ H), Forall_app. split; [done|].
      constructor; [apply classifyWord_classified | constructor]. }
    destruct (isDigit ch); [|done]. cbv zeta.
    destruct (decide _) as [[Hn|Hn]|]; [| |done].
    + intros H HF. apply (IH _ _ _ _ H), Forall_app. split; [done|].
      constructor; [|constructor]. by rewrite Hn.
    + intros H HF. apply (IH _ _ _ _ H), Forall_app. split; [done|].
      constructor; [|constructor]. by rewrite Hn.
Qed.

(** X3. Every token that [tokenize] returns agrees with the lexeme
    tables on its lower-cased text: an operator token carries the operator
    that [OperatorLexemes] gives for it, a constant token the boolean that
    [ConstLexemes] gives for it, and the name of an identifier token is in
    neither table. *)
Theorem tokenize_classified (input : jsstring) (tokens : list token) (tok : token) :
  tokenize input = OK tokens → tok ∈ tokens → classified tok.
Proof.
  unfold tokenize. intros H Hin.
  apply tokenizeLoop_classified in H; [|constructor].
  rewrite Forall_forall in H. by apply H.
Qed.

Lemma tokenize_classified_witness :
  classified (TConst true (js "TrUe")) ∧ classified (TOp XOR (js "XOR")).
Proof.
  split.
  - apply (tokenize_classified (js "TrUe XOR f")
             [TConst true (js "TrUe"); TOp XOR (js "XOR"); TConst false (js "f")]);
      [reflexivity | apply list_elem_of_here].
  - apply (tokenize_classified (js "TrUe XOR f")
             [TConst true (js "TrUe"); TOp XOR (js "XOR"); TConst false (js "f")]);
      [reflexivity | apply list_elem_of_further, list_elem_of_here].
Defined.

(** ** toRPN checks the parentheses, and nothing else *)

Lemma popOperators_split opInfo output ops :
  ∃ popped rest,
    ops = popped ++ rest
    ∧ Forall (λ t, isParenToken t = false ∧ isOperandToken t = false) popped
    ∧ popOperators opInfo output ops = (output ++ popped, rest).
Proof.
  assert (Hstop : ∀ output ops,
    popOperators opInfo output ops = (output, ops) →
    ∃ popped rest, ops = popped ++ rest
      ∧ Forall (λ t, isParenToken t = false ∧ isOperandToken t = false) popped
      ∧ popOperators opInfo output ops = (output ++ popped, rest)).
  { intros out os H. exists [], os. rewrite app_nil_r.
    split; [done|]. split; [constructor | done]. }
  revert output. induction ops as [|top ops IH]; intros output.
  - by apply Hstop.
  - destruct top as [| |v raw|v raw|x]; try by apply Hstop.
    cbn [popOperators]. destruct (popsBefore _ _) eqn:E.
    + destruct (IH (output ++ [TOp v raw])) as (popped & rest & -> & HF & ->).
      exists (TOp v raw :: popped), rest. rewrite <- app_assoc.
      split; [done|]. split; [by constructor | done].
    + exists [], (TOp v raw :: ops). rewrite app_nil_r.
      split; [done|]. split; [constructor | done].
Qed.

Lemma popToLeftParen_None output ops :
  popToLeftParen output ops = None ↔ TLParen ∉ ops.
Proof.
  revert output. induction ops as [|t ops IH]; intros output.
  - split; [intros _; apply not_elem_of_nil | done].
  - rewrite not_elem_of_cons. destruct t; cbn [popToLeftParen];
      rewrite ?IH; try (split; [by intros ? | by intros [_ ?]]).
    split; [done | by intros [? _]].
Qed.

Lemma openCount_zero ops : openCount ops = 0%nat ↔ TLParen ∉ ops.
Proof.
  unfold openCount. induction ops as [|t ops IH].
  - split; [intros _; apply not_elem_of_nil | done].
  - rewrite not_elem_of_cons. destruct (decide (t = TLParen)) as [->|Hne].
    + rewrite filter_cons_True by done. simpl. split; [lia | by intros [? _]].
    + rewrite filter_cons_False by done. rewrite IH. split; [by intros ? | by intros [_ ?]].
Qed.

Lemma openCount_app l1 l2 : openCount (l1 ++ l2) = (openCount l1 + openCount l2)%nat.
Proof. unfold openCount. by rewrite filter_app, length_app. Qed.

Lemma openCount_popped popped :
  Forall (λ t, isParenToken t = false ∧ isOperandToken t = false) popped →
  openCount popped = 0%nat.
Proof.
  intros HF. apply openCount_zero. intros Hin.
  rewrite Forall_forall in HF. by destruct (HF _ Hin).
Qed.

Lemma drainOperators_balanced output ops :
  TRParen ∉ ops →
  drainOperators output ops
  = if decide (openCount ops = 0%nat) then OK (output ++ ops)
    else Err MismatchedParentheses.
Proof.
  revert output. induction ops as [|t ops IH]; intros output Hr.
  - cbn. by rewrite app_nil_r.
  - apply not_elem_of_cons in Hr as [Hne Hr].
    assert (Hother : t ≠ TLParen → drainOperators (output ++ [t]) ops
              = if decide (openCount (t :: ops) = 0%nat)
                then OK (output ++ t :: ops) else Err MismatchedParentheses).
    { intros Hl. rewrite IH by done. unfold openCount.
      rewrite filter_cons_False by done. by rewrite <- app_assoc. }
    destruct t; try (by apply Hother); [|done].
    cbn [drainOperators]. unfold openCount. rewrite filter_cons_True by done.
    by rewrite decide_False by (simpl; lia).
Qed.

Lemma toRPNLoop_depth tokens : ∀ output ops,
  TRParen ∉ ops →
  match parenDepth tokens (openCount ops) with
  | None => toRPNLoop tokens (output, ops) = Err MissingLeftParen
  | Some depth =>
      ∃ st', toRPNLoop tokens (output, ops) = OK st'
             ∧ openCount st'.2 = depth ∧ TRParen ∉ st'.2
  end.
Proof.
  induction tokens as [|tok tokens IH]; intros output ops Hr.
  - cbn. eauto.
  - destruct tok as [| |v raw|v raw|x]; cbn [parenDepth toRPNLoop toRPNStep].
    + cbn [mbind result_bind].
      specialize (IH output (TLParen :: ops)).
      unfold openCount in IH at 1. rewrite filter_cons_True in IH by done.
      apply IH. apply not_elem_of_cons. by split.
    + destruct (popToLeftParen output ops) as [[o' s']|] eqn:E.
      * destruct (popToLeftParen_app _ _ _ _ E) as (popped & -> & -> & Hnin).
        rewrite openCount_app.
        rewrite (proj2 (openCount_zero popped) Hnin).
        unfold openCount at 1. rewrite filter_cons_True by done. cbn [length Nat.add].
        cbn [mbind result_bind]. apply IH.
        intros Hin. apply Hr, elem_of_app. right. by apply elem_of_cons; right.
      * apply popToLeftParen_None, openCount_zero in E. by rewrite E.
    + destruct (popOperators_split (Operators v) output ops)
        as (popped & rest & -> & HF & ->).
      cbn [mbind result_bind].
      rewrite openCount_app, (openCount_popped _ HF). cbn [Nat.add].
      specialize (IH (output ++ popped) (TOp v raw :: rest)).
      unfold openCount in IH at 1. rewrite filter_cons_False in IH by done.
      apply IH. apply not_elem_of_cons. split; [done|].
      intros Hin. apply Hr, elem_of_app. by right.
    + cbn [mbind result_bind]. by apply IH.
    + cbn [mbind result_bind]. by apply IH.
Qed.

(** X4. [toRPN] fails exactly on unbalanced parentheses: it raises the
    missing-left-parenthesis error when some right parenthesis closes
    nothing, the mismatched-parentheses error when a left parenthesis
    stays open at the end, and returns a postfix sequence in every other
    case, whatever the operators and operands are. *)
Theorem toRPN_balance (tokens : list token) :
  match parenDepth tokens 0 with
  | None => toRPN tokens = Err MissingLeftParen
  | Some O => ∃ rpn, toRPN tokens = OK rpn
  | Some (S _) => toRPN tokens = Err MismatchedParentheses
  end.
Proof.
  pose proof (toRPNLoop_depth tokens [] [] (not_elem_of_nil _)) as H.
  change (openCount []) with 0%nat in H. unfold toRPN.
  destruct (parenDepth tokens 0) as [depth|].
  - destruct H as ([output ops] & -> & Hd & Hr). cbn [mbind result_bind fst snd] in *.
    rewrite drainOperators_balanced by done. rewrite Hd.
    destruct depth; [eauto | done].
  - by rewrite H.
Qed.

(** ** toRPN rearranges the operators around the operands *)

Lemma filter_popped_operand popped :
  Forall (λ t, isParenToken t = false ∧ isOperandToken t = false) popped →
  filter (λ t, isOperandToken t = true) popped = []
  ∧ filter (λ t, isParenToken t = false) popped = popped.
Proof.
  induction 1 as [|t popped [Hp Ho] _ [IH1 IH2]]; [done|].
  rewrite filter_cons_False by congruence.
  rewrite filter_cons_True by done. by rewrite IH1, IH2.
Qed.

Ltac filter_tokens :=
  repeat first [ rewrite filter_nil | rewrite filter_app
               | rewrite filter_cons_True by done
               | rewrite filter_cons_False by done ].

Lemma filter_nonparen_id l :
  Forall (λ t, isParenToken t = false) l → filter (λ t, isParenToken t = false) l = l.
Proof. induction 1 as [|t l Ht _ IH]; [done|]. by rewrite filter_cons_True, IH. Qed.

Lemma toRPNStep_rearranges output ops tok o1 s1 :
  toRPNStep (output, ops) tok = OK (o1, s1) →
  filter (λ t, isOperandToken t = true) ops = [] → TRParen ∉ ops →
  Forall (λ t, isParenToken t = false) output →
  filter (λ t, isParenToken t = false) (o1 ++ s1)
  ≡ₚ filter (λ t, isParenToken t = false) (output ++ ops)
     ++ filter (λ t, isParenToken t = false) [tok]
  ∧ filter (λ t, isOperandToken t = true) o1
    = filter (λ t, isOperandToken t = true) output
      ++ filter (λ t, isOperandToken t = true) [tok]
  ∧ filter (λ t, isOperandToken t = true) s1 = []
  ∧ (TRParen ∉ s1)
  ∧ Forall (λ t, isParenToken t = false) o1.
Proof.
  intros Hstep Hops Hr Hout.
  destruct tok as [| |v raw|v raw|x]; cbn [toRPNStep] in Hstep.
  - injection Hstep as <- <-. filter_tokens. rewrite !app_nil_r.
    split; [done|]. split; [done|]. split; [done|]. split; [|done].
    apply not_elem_of_cons. by split.
  - destruct (popToLeftParen output ops) as [[o' s']|] eqn:E; [|done].
    injection Hstep as <- <-.
    destruct (popToLeftParen_app _ _ _ _ E) as (popped & -> & -> & Hnin).
    rewrite filter_app in Hops. apply app_eq_nil in Hops as [Hpop Hrest].
    rewrite filter_cons_False in Hrest by done.
    apply not_elem_of_app in Hr as [Hr1 Hr2]. apply not_elem_of_cons in Hr2 as [_ Hr2].
    filter_tokens. rewrite !app_nil_r, Hpop, app_nil_r, <- app_assoc.
    split; [done|]. split; [done|]. split; [done|]. split; [done|].
    apply Forall_app. split; [done|]. apply Forall_forall. intros t Ht.
    destruct t; try done.
  - destruct (popOperators_split (Operators v) output ops)
      as (popped & rest & -> & HF & Hpop).
    rewrite Hpop in Hstep. injection Hstep as <- <-.
    destruct (filter_popped_operand _ HF) as [Ho Hp].
    rewrite filter_app in Hops. apply app_eq_nil in Hops as [_ Hrest].
    apply not_elem_of_app in Hr as [_ Hr].
    filter_tokens. rewrite Ho, !app_nil_r.
    split; [|split; [done|split; [done|split]]].
    + rewrite <- !app_assoc. do 2 apply Permutation_app_head.
      apply (Permutation_app_comm [TOp v raw]).
    + apply not_elem_of_cons. by split.
    + apply Forall_app. split; [done|]. eapply Forall_impl; [exact HF|]. by intros t [? _].
  - injection Hstep as <- <-. filter_tokens.
    split; [|split; [done|split; [done|split; [done|]]]].
    + rewrite <- !app_assoc. apply Permutation_app_head, Permutation_app_comm.
    + apply Forall_app. split; [done|]. by constructor.
  - injection Hstep as <- <-. filter_tokens.
    split; [|split; [done|split; [done|split; [done|]]]].
    + rewrite <- !app_assoc. apply Permutation_app_head, Permutation_app_comm.
    + apply Forall_app. split; [done|]. by constructor.
Qed.

Lemma toRPNLoop_rearranges tokens : ∀ output ops st',
  toRPNLoop tokens (output, ops) = OK st' →
  filter (λ t, isOperandToken t = true) ops = [] → TRParen ∉ ops →
  Forall (λ t, isParenToken t = false) output →
  filter (λ t, isParenToken t = false) (st'.1 ++ st'.2)
  ≡ₚ filter (λ t, isParenToken t = false) (output ++ ops)
     ++ filter (λ t, isParenToken t = false) tokens
  ∧ filter (λ t, isOperandToken t = true) st'.1
    = filter (λ t, isOperandToken t = true) output
      ++ filter (λ t, isOperandToken t = true) tokens
  ∧ filter (λ t, isOperandToken t = true) st'.2 = []
  ∧ Forall (λ t, isParenToken t = false) st'.1.
Proof.
  induction tokens as [|tok tokens IH]; intros output ops st'.
  - intros [= <-] Hops Hr Hout. cbn [fst snd]. by rewrite !filter_nil, !app_nil_r.
  - cbn [toRPNLoop]. intros H Hops Hr Hout.
    apply bind_OK in H as ([o1 s1] & Hstep & Hloop).
    destruct (toRPNStep_rearranges _ _ _ _ _ Hstep Hops Hr Hout)
      as (Hp1 & Ho1 & Hs1 & Hr1 & Hout1).
    destruct (IH _ _ _ Hloop Hs1 Hr1 Hout1) as (IH1 & IH2 & IH3 & IH4).
    change (tok :: tokens) with ([tok] ++ tokens). rewrite !(filter_app _ [tok]).
    split; [|split; [|done]].
    + by rewrite IH1, Hp1, <- app_assoc.
    + by rewrite IH2, Ho1, <- app_assoc.
Qed.

Lemma drainOperators_nonparen output ops rpn :
  drainOperators output ops = OK rpn → Forall (λ t, isParenToken t = false) ops.
Proof.
  revert output. induction ops as [|t ops IH]; intros output; [by constructor|].
  destruct t; cbn [drainOperators]; try done;
    intros H; constructor; try done; by eapply IH.
Qed.

(** X5. The postfix sequence that [toRPN] returns holds no parenthesis;
    it is a rearrangement of the other tokens of the input; and the
    operands (identifiers and constants) keep the order they have in the
    input. *)
Theorem toRPN_rearranges (tokens rpn : list token) :
  toRPN tokens = OK rpn →
  Forall (λ t, isParenToken t = false) rpn
  ∧ rpn ≡ₚ filter (λ t, isParenToken t = false) tokens
  ∧ filter (λ t, isOperandToken t = true) rpn
    = filter (λ t, isOperandToken t = true) tokens.
Proof.
  unfold toRPN. intros H. apply bind_OK in H as ([output ops] & Hloop & Hdrain).
  cbn [fst snd] in Hdrain.
  pose proof (drainOperators_nonparen _ _ _ Hdrain) as Hops.
  apply drainOperators_app in Hdrain as ->.
  destruct (toRPNLoop_rearranges _ _ _ _ Hloop eq_refl (not_elem_of_nil _)
              (Forall_nil_2 _)) as (Hperm & Hord & Hnone & Hout).
  cbn [fst snd app] in *. rewrite filter_nil in *. cbn [app] in *.
  assert (Forall (λ t, isParenToken t = false) (output ++ ops)) as Hall
    by (apply Forall_app; by split).
  split; [done|]. split.
  - by rewrite <- Hperm, filter_nonparen_id.
  - by rewrite filter_app, Hnone, app_nil_r.
Qed.

Lemma toRPN_rearranges_witness :
  let a := TIdent (js "a") in
  let b := TIdent (js "b") in
  let tokens := [TOp NOT (js "!"); TLParen; a; TOp OR (js "|"); b; TRParen] in
  let rpn := [a; b; TOp OR (js "|"); TOp NOT (js "!")] in
  filter (λ t, isOperandToken t = true) rpn = filter (λ t, isOperandToken t = true) tokens.
Proof.
  intros a b tokens rpn.
  by destruct (toRPN_rearranges tokens rpn eq_refl) as (_ & _ & H).
Defined.

(** ** rpnToAst: numbering and shape of the tree *)

Lemma rpnToAstLoop_nextId rpn : ∀ nextId stack st',
  rpnToAstLoop rpn (nextId, stack) = OK st' →
  st'.1 = nextId + Z.of_nat (length rpn).
Proof.
  induction rpn as [|tok rpn IH]; intros nextId stack st'; cbn [rpnToAstLoop].
  - intros [= <-]. simpl. lia.
  - intros H. apply bind_OK in H as ([nid1 s1] & Hstep & Hloop).
    rewrite (IH _ _ _ Hloop).
    apply rpnToAstStep_inv in Hstep
      as [(x & _ & [= -> _])|[(v & r & _ & [= -> _])|[(op & r & a & s0 & _ & _ & _ & [= -> _])
         |(op & r & a & b & s0 & _ & _ & _ & [= -> _])]]]; simpl length; lia.
Qed.

Lemma rpnToAst_ids_perm rpn root :
  rpnToAst rpn = OK root →
  nodeId root = Z.of_nat (length rpn)
  ∧ nodeId <$> subnodes root ≡ₚ seqZ 1 (Z.of_nat (length rpn)).
Proof.
  intros H. apply rpnToAst_inv in H as [nid H].
  pose proof (rpnToAstLoop_nextId _ _ _ _ H) as Hnid. cbn [fst] in Hnid.
  cut (1 ≤ nid ∧ (∀ n, head [root] = Some n → nodeId n = nid - 1)
       ∧ nodeId <$> forest [root] ≡ₚ seqZ 1 (nid - 1)).
  { intros (_ & Hhead & Hperm). cbn [forest] in Hperm. rewrite app_nil_r in Hperm.
    rewrite (Hhead root eq_refl). replace (nid - 1) with (Z.of_nat (length rpn)) in * by lia.
    done. }
  refine (rpnToAstLoop_invariant
            (λ nextId stack,
               1 ≤ nextId ∧ (∀ n, head stack = Some n → nodeId n = nextId - 1)
               ∧ nodeId <$> forest stack ≡ₚ seqZ 1 (nextId - 1))
            rpn _ 1 [] (nid, [root]) _ H).
  - clear. intros nid stack tok st' _ (Hpos & _ & Hperm) Hs.
    assert (Hsnoc : seqZ 1 (nid + 1 - 1) ≡ₚ nid :: seqZ 1 (nid - 1)).
    { replace (nid + 1 - 1) with (nid - 1 + 1) by lia.
      assert (seqZ (1 + (nid - 1)) 1 = [nid]) as E.
      { rewrite seqZ_cons, seqZ_nil by lia. f_equal. lia. }
      rewrite seqZ_app, E by lia. symmetry. apply Permutation_cons_append. }
    apply rpnToAstStep_inv in Hs
      as [(x & -> & ->)|[(v & r & -> & ->)|[(op & r & a & s0 & -> & Har & -> & ->)
         |(op & r & a & b & s0 & -> & Har & -> & ->)]]];
      cbn [fst snd forest subnodes app fmap list_fmap nodeId head] in *;
      (split; [lia|]); (split; [intros n [= <-]; simpl; lia|]);
      rewrite Hsnoc; constructor; try done.
    rewrite <- Hperm, !fmap_app. rewrite !app_assoc. f_equiv.
    apply Permutation_app_comm.
  - split; [lia|]. split; [done|]. reflexivity.
Qed.

Lemma rpnToAstLoop_postorder_ids rpn : ∀ nextId stack st',
  rpnToAstLoop rpn (nextId, stack) = OK st' →
  nodeId <$> concat (postorder <$> reverse st'.2)
  = (nodeId <$> concat (postorder <$> reverse stack))
    ++ seqZ nextId (Z.of_nat (length rpn))
  ∧ nodeToken <$> concat (postorder <$> reverse st'.2)
    = (nodeToken <$> concat (postorder <$> reverse stack)) ++ (eraseRaw <$> rpn).
Proof.
  induction rpn as [|tok rpn IH]; intros nextId stack st'; cbn [rpnToAstLoop].
  - intros [= <-]. by rewrite !app_nil_r.
  - intros H. apply bind_OK in H as ([nid1 s1] & Hstep & Hloop).
    destruct (IH _ _ _ Hloop) as [-> ->]. rewrite fmap_cons.
    replace (Z.of_nat (length (tok :: rpn))) with (Z.succ (Z.of_nat (length rpn)))
      by (cbn [length]; lia).
    rewrite (seqZ_cons nextId) by lia. rewrite Z.pred_succ.
    change (nextId :: seqZ (Z.succ nextId) (Z.of_nat (length rpn)))
      with ([nextId] ++ seqZ (Z.succ nextId) (Z.of_nat (length rpn))).
    change (eraseRaw tok :: (eraseRaw <$> rpn)) with ([eraseRaw tok] ++ (eraseRaw <$> rpn)).
    rewrite !app_assoc. cbn [snd].
    apply rpnToAstStep_inv in Hstep
      as [(x & -> & [= -> ->])|[(v & r & -> & [= -> ->])
         |[(op & r & a & s0 & -> & _ & -> & [= -> ->])
         |(op & r & a & b & s0 & -> & _ & -> & [= -> ->])]]];
      rewrite !reverse_cons, !fmap_app, !concat_app; cbn;
      rewrite ?app_nil_r, ?fmap_app, <- ?app_assoc; cbn;
      replace (nextId + 1) with (Z.succ nextId) by lia; done.
Qed.

(** X6. [rpnToAst] creates one node per token and numbers the nodes
    1, 2, ... in token order: the nodes of the tree, read in post-order,
    carry the identities 1, 2, ..., up to the length of the postfix
    sequence, and the node at each place was made from the token at that
    place; so the identities in the tree are exactly these numbers, each
    once, and the root, created last, carries the largest. *)
Theorem rpnToAst_numbering (rpn : list token) (root : node) :
  rpnToAst rpn = OK root →
  nodeId root = Z.of_nat (length rpn)
  ∧ nodeId <$> subnodes root ≡ₚ seqZ 1 (Z.of_nat (length rpn))
  ∧ nodeId <$> postorder root = seqZ 1 (Z.of_nat (length rpn))
  ∧ nodeToken <$> postorder root = eraseRaw <$> rpn.
Proof.
  intros H. destruct (rpnToAst_ids_perm rpn root H) as [Hroot Hperm].
  split; [done|]. split; [done|].
  apply rpnToAst_inv in H as [nid H].
  apply rpnToAstLoop_postorder_ids in H. cbn in H.
  by rewrite !app_nil_r in H.
Qed.

Lemma rpnToAst_numbering_witness :
  let rpn := [TIdent (js "p"); TIdent (js "q"); TOp IMP (js "->")] in
  let root := NOp2 3 IMP (NVar 1 (js "p")) (NVar 2 (js "q")) in
  nodeId root = Z.of_nat (length rpn)
  ∧ nodeId <$> subnodes root ≡ₚ seqZ 1 (Z.of_nat (length rpn))
  ∧ nodeId <$> postorder root = seqZ 1 (Z.of_nat (length rpn))
  ∧ nodeToken <$> postorder root = eraseRaw <$> rpn.
Proof. intros rpn root. apply (rpnToAst_numbering rpn root). reflexivity. Defined.

Lemma rpnToAstLoop_postorder rpn : ∀ nextId stack st',
  rpnToAstLoop rpn (nextId, stack) = OK st' →
  concat (postorderTokens <$> reverse st'.2)
  = concat (postorderTokens <$> reverse stack) ++ (eraseRaw <$> rpn).
Proof.
  induction rpn as [|tok rpn IH]; intros nextId stack st'; cbn [rpnToAstLoop].
  - intros [= <-]. by rewrite app_nil_r.
  - intros H. apply bind_OK in H as ([nid1 s1] & Hstep & Hloop).
    rewrite (IH _ _ _ Hloop), fmap_cons.
    change (eraseRaw tok :: (eraseRaw <$> rpn)) with ([eraseRaw tok] ++ (eraseRaw <$> rpn)).
    rewrite app_assoc. f_equal. cbn [snd].
    apply rpnToAstStep_inv in Hstep
      as [(x & -> & [= _ ->])|[(v & r & -> & [= _ ->])
         |[(op & r & a & s0 & -> & _ & -> & [= _ ->])
         |(op & r & a & b & s0 & -> & _ & -> & [= _ ->])]]];
      rewrite !reverse_cons, !fmap_app, !concat_app; cbn;
      rewrite ?app_nil_r, <- ?app_assoc; reflexivity.
Qed.

(** X7. The tree that [rpnToAst] builds, read in post-order (operands
    before their operator, left before right), is the postfix sequence it
    was built from, token for token; only the surface text of operator
    and constant tokens is not kept. *)
Theorem rpnToAst_postorder (rpn : list token) (root : node) :
  rpnToAst rpn = OK root → postorderTokens root = eraseRaw <$> rpn.
Proof.
  intros H. apply rpnToAst_inv in H as [nid H].
  apply rpnToAstLoop_postorder in H. cbn in H. by rewrite app_nil_r in H.
Qed.

Lemma rpnToAst_postorder_witness :
  let rpn := [TIdent (js "p"); TOp NOT (js "not"); TConst true (js "1"); TOp AND (js "&")] in
  postorderTokens (NOp2 4 AND (NOp1 2 NOT (NVar 1 (js "p"))) (NConst 3 true))
  = eraseRaw <$> rpn.
Proof. intros rpn. apply (rpnToAst_postorder rpn). reflexivity. Defined.

(** ** evalRPN and the assignment *)

Lemma evalRPNStep_agree env1 env2 stack tok1 tok2 :
  eraseRaw tok1 = eraseRaw tok2 →
  (∀ x, tok1 = TIdent x → env1 !! x = env2 !! x) →
  evalRPNStep env1 stack tok1 = evalRPNStep env2 stack tok2.
Proof.
  intros Htok Henv.
  destruct tok1 as [| |v1 r1|v1 r1|x1], tok2 as [| |v2 r2|v2 r2|x2];
    try discriminate; try done.
  - by injection Htok as ->.
  - by injection Htok as ->.
  - injection Htok as <-. cbn [evalRPNStep]. by rewrite (Henv x1 eq_refl).
Qed.

Lemma evalRPNLoop_agree env1 env2 rpn1 : ∀ rpn2 stack,
  eraseRaw <$> rpn1 = eraseRaw <$> rpn2 →
  (∀ x, TIdent x ∈ rpn1 → env1 !! x = env2 !! x) →
  evalRPNLoop env1 rpn1 stack = evalRPNLoop env2 rpn2 stack.
Proof.
  induction rpn1 as [|tok1 rpn1 IH]; intros [|tok2 rpn2] stack Hraw Henv;
    try discriminate; [done|].
  injection Hraw as Htok Hraw. cbn [evalRPNLoop].
  rewrite (evalRPNStep_agree env1 env2 stack tok1 tok2 Htok).
  - destruct (evalRPNStep env2 stack tok2); [|done]. cbn [mbind result_bind].
    apply IH; [done|]. intros x Hx. apply Henv. by apply list_elem_of_further.
  - intros x ->. apply Henv, list_elem_of_here.
Qed.

(** X8. The outcome of [evalRPN] depends only on the kind and value of
    the tokens, not on their surface text, and only on what the
    assignment gives to the identifiers that occur in the sequence. *)
Theorem evalRPN_depends_on (rpn1 rpn2 : list token) (env1 env2 : gmap jsstring bool) :
  eraseRaw <$> rpn1 = eraseRaw <$> rpn2 →
  (∀ x, TIdent x ∈ rpn1 → env1 !! x = env2 !! x) →
  evalRPN rpn1 env1 = evalRPN rpn2 env2.
Proof.
  intros Hraw Henv. unfold evalRPN.
  by rewrite (evalRPNLoop_agree env1 env2 rpn1 rpn2 [] Hraw Henv).
Qed.

Lemma evalRPN_depends_on_witness :
  let env1 : gmap jsstring bool := <[js "p" := true]> (<[js "z" := true]> ∅) in
  let env2 : gmap jsstring bool := {[js "p" := true]} in
  evalRPN [TIdent (js "p"); TOp NOT (js "!")] env1
  = evalRPN [TIdent (js "p"); TOp NOT (js "not")] env2.
Proof.
  intros env1 env2. apply evalRPN_depends_on; [reflexivity|].
  intros x Hx. apply elem_of_cons in Hx as [[= ->]|Hx]; [reflexivity|].
  apply elem_of_cons in Hx as [[=]|Hx]. by apply elem_of_nil in Hx.
Defined.

Lemma evalRPNLoop_bound env rpn : ∀ stack stack',
  evalRPNLoop env rpn stack = OK stack' →
  ∀ x, TIdent x ∈ rpn → is_Some (env !! x).
Proof.
  induction rpn as [|tok rpn IH]; intros stack stack' H x Hx.
  - by apply elem_of_nil in Hx.
  - cbn [evalRPNLoop] in H. apply bind_OK in H as (stack1 & Hstep & Hloop).
    apply elem_of_cons in Hx as [<-|Hx]; [|by eapply IH].
    cbn [evalRPNStep] in Hstep. by destruct (env !! x).
Qed.

Lemma evalRPNLoop_depth env rpn : ∀ stack stack',
  evalRPNLoop env rpn stack = OK stack' →
  (length stack' + length (filter (λ t, isBinaryToken t = true) rpn)
   = length stack + length (filter (λ t, isOperandToken t = true) rpn))%nat
  ∧ Forall (λ t, isParenToken t = false) rpn.
Proof.
  induction rpn as [|tok rpn IH]; intros stack stack' H.
  - injection H as <-. split; [simpl; lia | constructor].
  - cbn [evalRPNLoop] in H. apply bind_OK in H as (stack1 & Hstep & Hloop).
    destruct (IH _ _ Hloop) as [IHlen IHpar].
    assert (Hop : ∀ t, isBinaryToken t = false → isOperandToken t = true →
      filter (λ t, isBinaryToken t = true) (t :: rpn)
      = filter (λ t, isBinaryToken t = true) rpn
      ∧ filter (λ t, isOperandToken t = true) (t :: rpn)
        = t :: filter (λ t, isOperandToken t = true) rpn).
    { intros t Hb Ho. rewrite filter_cons_False by congruence.
      by rewrite filter_cons_True by done. }
    destruct tok as [| |v r|v r|x]; cbn [evalRPNStep] in Hstep; try done.
    + rewrite (filter_cons_False (λ t, isOperandToken t = true)) by done.
      destruct (arity_cases v) as [[-> Har]|[Hne Har]]; rewrite Har in Hstep;
        cbn [Nat.eqb] in Hstep.
      * destruct stack as [|a stack]; [done|]. injection Hstep as <-.
        rewrite filter_cons_False by done.
        split; [simpl in *; lia | by constructor].
      * destruct stack as [|b [|a stack]]; try done. injection Hstep as <-.
        rewrite filter_cons_True by (cbn; by rewrite Har).
        split; [simpl in *; lia | by constructor].
    + injection Hstep as <-. destruct (Hop (TConst v r)) as [-> ->]; [done..|].
      split; [simpl in *; lia | by constructor].
    + destruct (env !! x); [|done]. injection Hstep as <-.
      destruct (Hop (TIdent x)) as [-> ->]; [done..|].
      split; [simpl in *; lia | by constructor].
Qed.

(** X9. [evalRPN] returns a value only if every identifier of the
    sequence is bound, the sequence holds no parenthesis, and it has
    exactly one operand more than it has binary operators. *)
Theorem evalRPN_returns_only_if (rpn : list token) (env : gmap jsstring bool) (v : bool) :
  evalRPN rpn env = OK v →
  (∀ x, TIdent x ∈ rpn → is_Some (env !! x))
  ∧ Forall (λ t, isParenToken t = false) rpn
  ∧ length (filter (λ t, isOperandToken t = true) rpn)
    = S (length (filter (λ t, isBinaryToken t = true) rpn)).
Proof.
  unfold evalRPN. intros H. apply bind_OK in H as (stack & Hloop & H).
  destruct stack as [|w [|]]; try done.
  destruct (evalRPNLoop_depth _ _ _ _ Hloop) as [Hlen Hpar].
  split; [by eapply evalRPNLoop_bound|]. split; [done|]. simpl in Hlen. lia.
Qed.

Lemma evalRPN_returns_only_if_witness :
  let rpn := [TIdent (js "p"); TIdent (js "q"); TOp IMP (js "->")] in
  length (filter (λ t, isOperandToken t = true) rpn)
  = S (length (filter (λ t, isBinaryToken t = true) rpn)).
Proof.
  intros rpn.
  assert (evalRPN rpn (<[js "p" := true]> (<[js "q" := false]> ∅)) = OK false) as H0
    by reflexivity.
  by destruct (evalRPN_returns_only_if rpn _ false H0) as (_ & _ & H).
Defined.

(** ** computeValue and its cache *)

Lemma computeValue_cache n env : ∀ cache v cache',
  computeValue n env cache = OK (v, cache') →
  cache' !! nodeId n = Some v ∧ dom cache ⊆ dom cache'.
Proof.
  assert (Hstore : ∀ (id : Z) (v : bool) (cache c1 : gmap Z bool),
    dom cache ⊆ dom c1 →
    <[id := v]> c1 !! id = Some v ∧ dom cache ⊆ dom (<[id := v]> c1)).
  { intros id v cache c1 Hsub. split; [apply lookup_insert_eq|].
    rewrite dom_insert_L. set_solver. }
  induction n as [id name|id value|id op a IHa|id op a IHa b IHb];
    intros cache v cache'; cbn [computeValue nodeId]; cbv zeta;
    destruct (cache !! id) as [w|] eqn:Hhit;
    try (intros [= <- <-]; by split).
  - destruct (env !! name); [|done]. cbn. intros [= <- <-]. by apply Hstore.
  - cbn. intros [= <- <-]. by apply Hstore.
  - destruct (arity (Operators op) =? 1)%nat.
    + destruct (computeValue a env cache) as [[va c1]|] eqn:Ea; [|done].
      cbn. intros [= <- <-]. apply Hstore. by destruct (IHa _ _ _ Ea).
    + destruct (arity (Operators op) =? 2)%nat; [|done].
      by destruct (computeValue a env cache).
  - destruct (arity (Operators op) =? 1)%nat.
    + destruct (computeValue a env cache) as [[va c1]|] eqn:Ea; [|done].
      cbn. intros [= <- <-]. apply Hstore. by destruct (IHa _ _ _ Ea).
    + destruct (arity (Operators op) =? 2)%nat; [|done].
      destruct (computeValue a env cache) as [[va c1]|] eqn:Ea; [|done].
      cbn [mbind result_bind snd].
      destruct (computeValue b env c1) as [[vb c2]|] eqn:Eb; [|done].
      cbn. intros [= <- <-]. apply Hstore.
      destruct (IHa _ _ _ Ea) as [_ H1]. destruct (IHb _ _ _ Eb) as [_ H2].
      set_solver.
Qed.

(** X10. When [computeValue] returns, the value is stored in the cache
    under the identity of the node, no entry of the cache was removed, and
    a second call with the returned cache gives the same value and leaves
    the cache as it is. *)
Theorem computeValue_memoizes (n : node) (env : gmap jsstring bool)
    (cache cache' : gmap Z bool) (v : bool) :
  computeValue n env cache = OK (v, cache') →
  cache' !! nodeId n = Some v
  ∧ dom cache ⊆ dom cache'
  ∧ computeValue n env cache' = OK (v, cache').
Proof.
  intros H. destruct (computeValue_cache _ _ _ _ _ H) as [Hv Hdom].
  split; [done|]. split; [done|]. by apply computeValue_hit.
Qed.

Lemma computeValue_memoizes_witness :
  let n := NOp1 2 NOT (NVar 1 (js "p")) in
  let env : gmap jsstring bool := {[js "p" := true]} in
  let cache' : gmap Z bool := <[2 := false]> (<[1 := true]> ∅) in
  computeValue n env cache' = OK (false, cache').
Proof.
  intros n env cache'.
  assert (computeValue n env ∅ = OK (false, cache')) as H by reflexivity.
  by destruct (computeValue_memoizes n env ∅ cache' false H) as (_ & _ & H').
Defined.

(** ** Equal labels, equal values *)

Lemma computeValue_nodeValue env U n cache v cache' :
  NoDup (nodeId <$> U) → wfNode n → (∀ m, m ∈ subnodes n → m ∈ U) →
  cacheSound env U cache →
  computeValue n env cache = OK (v, cache') →
  nodeValue env n = Some v ∧ cacheSound env U cache'.
Proof.
  intros Hnd Hwf HU Hc H.
  pose proof (computeValue_sound env U Hnd n Hwf HU cache Hc) as Hs.
  destruct (nodeValue env n) as [w|].
  - destruct Hs as (c & Hs & Hc'). rewrite H in Hs. by injection Hs as -> ->.
  - destruct Hs as (e & Hs). congruence.
Qed.

Lemma nodeVars_postfixOf n x : x ∈ nodeVars n → TIdent x ∈ postfixOf n.
Proof.
  induction n as [id name|id value|id op a IHa|id op a IHa b IHb]; simpl; intros Hx.
  - apply list_elem_of_singleton in Hx as ->. apply list_elem_of_here.
  - by apply elem_of_nil in Hx.
  - apply elem_of_app. left. by apply IHa.
  - rewrite !elem_of_app. apply elem_of_app in Hx as [Hx|Hx];
      [left; by apply IHa | right; left; by apply IHb].
Qed.

Lemma equal_render_equal_value env n1 n2 v :
  wfNode n1 → wfNode n2 →
  Forall (λ x, isIdentifier x = true) (nodeVars n1) →
  Forall (λ x, isIdentifier x = true) (nodeVars n2) →
  render n1 = render n2 → nodeValue env n1 = Some v → nodeValue env n2 = Some v.
Proof.
  intros Hwf1 Hwf2 Hid1 Hid2 Hrender Hv.
  pose proof (tokenize_render n1 Hwf1 Hid1) as Ht1.
  pose proof (tokenize_render n2 Hwf2 Hid2) as Ht2.
  rewrite Hrender, Ht2 in Ht1. injection Ht1 as Htok.
  pose proof (toRPN_render n1 Hwf1) as Hr1.
  pose proof (toRPN_render n2 Hwf2) as Hr2.
  rewrite <- Htok, Hr2 in Hr1. injection Hr1 as Hpost.
  pose proof (evalRPN_postfix env n1 v Hwf1 Hv) as He. rewrite <- Hpost in He.
  destruct (nodeValue_is_Some env n2) as [v2 Hv2].
  { intros x Hx. unfold evalRPN in He. apply bind_OK in He as (stack & Hloop & _).
    eapply evalRPNLoop_bound; [exact Hloop|]. by apply nodeVars_postfixOf. }
  rewrite (evalRPN_postfix env n2 v2 Hwf2 Hv2) in He. by injection He as <-.
Qed.

(** X11. In a tree that [rpnToAst] built from the postfix sequence of a
    tokenized text, two nodes that [formatNode] renders to the same label
    have the same value under every assignment: the step column kept for
    a label shows the value of every sub-expression that was skipped for
    having the same label. *)
Theorem equal_labels_equal_values (input : jsstring) (tokens rpn : list token)
    (root n1 n2 : node) (label : jsstring) (env : gmap jsstring bool)
    (v : bool) (cache : gmap Z bool) :
  tokenize input = OK tokens → toRPN tokens = OK rpn → rpnToAst rpn = OK root →
  n1 ∈ subnodes root → n2 ∈ subnodes root →
  formatNode n1 = OK label → formatNode n2 = OK label →
  computeValue n1 env ∅ = OK (v, cache) →
  ∃ cache', computeValue n2 env ∅ = OK (v, cache').
Proof.
  intros Htok Hrpn Hroot Hn1 Hn2 Hl1 Hl2 Hcv.
  destruct (rpnToAst_computeValue env _ rpn root Hroot eq_refl) as (Hnd & Hwf & Hsound).
  pose proof (wfNode_subnodes _ _ Hwf Hn1) as Hwf1.
  pose proof (wfNode_subnodes _ _ Hwf Hn2) as Hwf2.
  assert (Hids : ∀ n, n ∈ subnodes root →
            Forall (λ x, isIdentifier x = true) (nodeVars n)).
  { intros n Hn. apply Forall_forall. intros x Hx.
    apply (tokenize_idents input tokens x Htok), (toRPN_tokens tokens rpn _ Hrpn).
    eapply rpnToAst_vars; [done|]. by eapply nodeVars_subnodes. }
  rewrite (formatNode_render _ Hwf1) in Hl1. rewrite (formatNode_render _ Hwf2) in Hl2.
  assert (render n1 = render n2) as Hrender by congruence.
  destruct (computeValue_nodeValue env (subnodes root) n1 ∅ v cache Hnd Hwf1) as [Hv _];
    [intros m Hm; exact (subnodes_trans root n1 m Hn1 Hm) | apply cacheSound_empty | done |].
  pose proof (equal_render_equal_value env n1 n2 v Hwf1 Hwf2 (Hids _ Hn1) (Hids _ Hn2)
                Hrender Hv) as Hv2.
  specialize (Hsound n2 ∅ Hn2 (cacheSound_empty _ _)). rewrite Hv2 in Hsound.
  destruct Hsound as (cache' & H & _). eauto.
Qed.

Lemma equal_labels_equal_values_witness :
  let input := js "(a & b) | (a & b)" in
  let env : gmap jsstring bool := <[js "a" := true]> (<[js "b" := true]> ∅) in
  let n1 := NOp2 3 AND (NVar 1 (js "a")) (NVar 2 (js "b")) in
  let n2 := NOp2 6 AND (NVar 4 (js "a")) (NVar 5 (js "b")) in
  ∃ cache', computeValue n2 env ∅ = OK (true, cache').
Proof.
  intros input env n1 n2.
  assert (tokenize input = OK [TLParen; TIdent (js "a"); TOp AND (js "&");
            TIdent (js "b"); TRParen; TOp OR (js "|"); TLParen; TIdent (js "a");
            TOp AND (js "&"); TIdent (js "b"); TRParen]) as Htok by reflexivity.
  eapply (equal_labels_equal_values input _ _ (NOp2 7 OR n1 n2) n1 n2 (js "(a & b)") env
            true (<[3 := true]> (<[2 := true]> (<[1 := true]> ∅))) Htok);
    [reflexivity | reflexivity | | | reflexivity | reflexivity | reflexivity].
  - apply list_elem_of_further, list_elem_of_here.
  - do 4 apply list_elem_of_further. apply list_elem_of_here.
Defined.

(** ** The step columns of a table *)

Lemma stepValues_sound env U steps :
  NoDup (nodeId <$> U) →
  (∀ n, n ∈ U → wfNode n ∧ ∀ m, m ∈ subnodes n → m ∈ U) →
  (∀ s, s ∈ steps → s.1 ∈ U) →
  ∀ cache values, cacheSound env U cache →
    stepValues steps env cache = OK values →
    Forall2 (λ s c, nodeValue env s.1 = Some c) steps values.
Proof.
  intros Hnd HU. induction steps as [|[n label] steps IH];
    intros Hsteps cache values Hc; cbn [stepValues].
  - intros [= <-]. constructor.
  - intros H. apply bind_OK in H as ([v c1] & Hcv & H).
    apply bind_OK in H as (rest & Hrest & [= <-]).
    pose proof (Hsteps (n, label) (list_elem_of_here _ _)) as Hn. simpl in Hn.
    destruct (HU n Hn) as [Hwf Hsub].
    destruct (computeValue_nodeValue env U n cache v c1 Hnd Hwf Hsub Hc Hcv) as [Hv Hc1].
    constructor; [done|].
    apply (IH (λ s Hs, Hsteps s (list_elem_of_further _ _ _ Hs)) c1); done.
Qed.

Lemma renderTable_inv_steps vars rpn opts tbl :
  renderTable vars rpn opts = OK tbl →
  ∃ steps,
    stepHeaders tbl = steps.*2
    ∧ (if showSteps opts
       then ∃ root, rpnToAst rpn = OK root ∧ collectSubexpressions root = OK steps
       else steps = [])
    ∧ ∀ (k : nat) row, bodyRows tbl !! k = Some row →
        if showSteps opts
        then stepValues steps (rowEnv (rowOrder opts) vars (Z.of_nat k)) ∅
             = OK (stepCells row)
        else stepCells row = [].
Proof.
  unfold renderTable. intros H.
  apply bind_OK in H as ([ast steps] & Hprep & H).
  apply bind_OK in H as (rows & Hrows & [= <-]). cbn [stepHeaders bodyRows fst snd] in *.
  apply renderRows_Forall2 in Hrows. exists steps. split; [done|]. split.
  - destruct (showSteps opts); [|by injection Hprep as _ <-].
    apply bind_OK in Hprep as (root & Hroot & Hprep).
    apply bind_OK in Hprep as (s & Hs & [= _ <-]). eauto.
  - intros k row Hk.
    destruct (Forall2_lookup_r _ _ _ _ _ Hrows Hk) as (i & Hi & Hrow).
    apply lookup_seqZ in Hi as [-> _]. rewrite Z.add_0_l in Hrow.
    unfold renderRow in Hrow. apply bind_OK in Hrow as (svals & Hsv & [= <-]).
    cbn [stepCells]. destruct (showSteps opts); [done | by injection Hsv as <-].
Qed.

Lemma renderTable_steps_sound vars rpn opts tbl :
  renderTable vars rpn opts = OK tbl → showSteps opts = true →
  ∃ root steps,
    rpnToAst rpn = OK root ∧ collectSubexpressions root = OK steps
    ∧ stepHeaders tbl = steps.*2
    ∧ ∀ (k : nat) row, bodyRows tbl !! k = Some row →
        Forall2 (λ s c, nodeValue (rowEnv (rowOrder opts) vars (Z.of_nat k)) s.1
                        = Some c)
                steps (stepCells row).
Proof.
  intros Htbl Hon.
  destruct (renderTable_inv_steps _ _ _ _ Htbl) as (steps & Hsteps & Hprep & Hcells).
  rewrite Hon in Hprep. destruct Hprep as (root & Hroot & Hcollect).
  exists root, steps. split; [done|]. split; [done|]. split; [done|].
  intros k row Hk. specialize (Hcells k row Hk). rewrite Hon in Hcells.
  destruct (rpnToAst_computeValue (rowEnv (rowOrder opts) vars (Z.of_nat k)) _ rpn root
              Hroot eq_refl) as (Hnd & Hwf & _).
  destruct (collectSubexpressions_nodes _ _ Hroot) as (steps' & Hc' & Hsub).
  rewrite Hcollect in Hc'. injection Hc' as <-.
  apply (stepValues_sound _ (subnodes root) steps Hnd) with (cache := ∅);
    [|done|apply cacheSound_empty|done].
  intros n Hn. split; [by eapply wfNode_subnodes|].
  intros m Hm. by eapply subnodes_trans.
Qed.

(** X12. A returned table is rectangular: every body row has one cell
    per variable header and one per step header.  With the step columns
    on, the step headers are the labels of [collectSubexpressions] on the
    tree of the postfix sequence, and each step cell of a row is the truth
    value of its sub-expression under the row's assignment, although all
    the step cells of a row are computed through one shared cache. *)
Theorem step_columns (vars : list jsstring) (rpn : list token) (opts : Options)
    (tbl : Table) :
  renderTable vars rpn opts = OK tbl →
  (∀ row, row ∈ bodyRows tbl →
     length (varCells row) = length (varHeaders tbl)
     ∧ length (stepCells row) = length (stepHeaders tbl))
  ∧ (showSteps opts = true →
     ∃ root steps,
       rpnToAst rpn = OK root ∧ collectSubexpressions root = OK steps
       ∧ stepHeaders tbl = steps.*2
       ∧ ∀ (k : nat) row, bodyRows tbl !! k = Some row →
           Forall2 (λ s c, nodeValue (rowEnv (rowOrder opts) vars (Z.of_nat k)) s.1
                           = Some c)
                   steps (stepCells row)).
Proof.
  intros Htbl. split; [|by apply renderTable_steps_sound].
  destruct (renderTable_inv _ _ _ _ Htbl) as (Hhead & _ & Hrow).
  intros row Hin. apply list_elem_of_lookup in Hin as [k Hk].
  destruct (Hrow k row Hk) as [-> _]. rewrite length_fmap, Hhead. split; [done|].
  destruct (showSteps opts) eqn:Hon.
  - destruct (renderTable_steps_sound _ _ _ _ Htbl Hon) as (root & steps & _ & _ & -> & HF).
    rewrite length_fmap. symmetry. apply (Forall2_length _ _ _ (HF k row Hk)).
  - destruct (renderTable_inv_steps _ _ _ _ Htbl) as (steps & -> & Hprep & Hcells).
    specialize (Hcells k row Hk). rewrite Hon in Hprep, Hcells.
    by rewrite Hcells, Hprep.
Qed.

Lemma step_columns_witness :
  let vars := [js "a"; js "b"] in
  let rpn := [TIdent (js "a"); TIdent (js "b"); TOp AND (js "&"); TOp NOT (js "!")] in
  let opts := mkOptions true true true F_FIRST in
  ∃ tbl, renderTable vars rpn opts = OK tbl
         ∧ ∀ row, row ∈ bodyRows tbl →
             length (varCells row) = length (varHeaders tbl)
             ∧ length (stepCells row) = length (stepHeaders tbl).
Proof.
  intros vars rpn opts.
  destruct (renderTable vars rpn opts) as [tbl|e] eqn:E; [|by vm_compute in E].
  exists tbl. split; [done|]. by destruct (step_columns vars rpn opts tbl E) as [H _].
Defined.

Lemma render_length_sub n m :
  m ∈ subnodes n → (length (render m) ≤ length (render n))%nat.
Proof.
  induction n as [id name|id value|id op a IHa|id op a IHa b IHb];
    cbn [subnodes]; intros Hm.
  - by apply list_elem_of_singleton in Hm as ->.
  - by apply list_elem_of_singleton in Hm as ->.
  - apply elem_of_cons in Hm as [->|Hm]; [done|]. specialize (IHa Hm).
    cbn [render]. destruct (isOpNode a); rewrite ?length_app; cbn [length js]; lia.
  - apply elem_of_cons in Hm as [->|Hm]; [done|]. cbn [render].
    rewrite !length_app.
    apply elem_of_app in Hm as [Hm|Hm]; [specialize (IHa Hm)|specialize (IHb Hm)]; lia.
Qed.

Lemma postorderOps_snoc n :
  isOpNode n = true →
  ∃ l, postorderOps n = l ++ [n]
       ∧ ∀ m, m ∈ l → (length (render m) < length (render n))%nat.
Proof.
  destruct n as [| |id op a|id op a b]; try discriminate; intros _; cbn [postorderOps].
  - exists (postorderOps a). split; [done|]. intros m Hm.
    pose proof (render_length_sub a m (postorderOps_subnodes _ _ Hm)).
    cbn [render]. destruct (isOpNode a); rewrite ?length_app;
      change (length (js "!")) with 1%nat; lia.
  - exists (postorderOps a ++ postorderOps b). split; [by rewrite app_assoc|].
    intros m Hm. cbn [render]. rewrite !length_app. change (length (js "(")) with 1%nat.
    apply elem_of_app in Hm as [Hm|Hm];
      [pose proof (render_length_sub a m (postorderOps_subnodes _ _ Hm))
      |pose proof (render_length_sub b m (postorderOps_subnodes _ _ Hm))]; lia.
Qed.

Lemma collectSubexpressions_last root steps :
  wfNode root → isOpNode root = true → collectSubexpressions root = OK steps →
  last steps = Some (root, render root).
Proof.
  intros Hwf Hop. unfold collectSubexpressions. rewrite visit_spec by done.
  cbn [mbind result_bind fst]. intros [= <-]. 
  destruct (postorderOps_snoc root Hop) as (l & Hl & Hin).
  rewrite Hl, labelled_app, firstOccurrences_app.
  cbn [labelled fmap list_fmap firstOccurrences snd].
  rewrite decide_False; [by rewrite last_snoc|].
  rewrite (right_id_L ∅ (∪)). unfold labelSet. rewrite elem_of_list_to_set.
  intros Hx. apply list_elem_of_fmap in Hx as ([m lab] & Hlab & Hx). simpl in Hlab.
  apply list_elem_of_fmap in Hx as (m' & [= -> ->] & Hm).
  specialize (Hin m' Hm). rewrite <- Hlab in Hin. lia.
Qed.

Lemma collectSubexpressions_leaf root :
  isOpNode root = false → collectSubexpressions root = OK [].
Proof. by destruct root. Qed.

Lemma postorderTokens_vars n x : TIdent x ∈ postorderTokens n → x ∈ nodeVars n.
Proof.
  induction n as [id name|id value|id op a IHa|id op a IHa b IHb];
    cbn [postorderTokens nodeVars]; intros Hx.
  - apply list_elem_of_singleton in Hx as [= ->]. apply list_elem_of_here.
  - by apply list_elem_of_singleton in Hx.
  - apply elem_of_app in Hx as [Hx|Hx]; [by apply IHa|].
    by apply list_elem_of_singleton in Hx.
  - rewrite !elem_of_app in Hx. apply elem_of_app.
    destruct Hx as [Hx|[Hx|Hx]]; [left; by apply IHa | right; by apply IHb|].
    by apply list_elem_of_singleton in Hx.
Qed.

Lemma rpnToAst_idents rpn root x :
  rpnToAst rpn = OK root → TIdent x ∈ rpn → x ∈ nodeVars root.
Proof.
  intros H Hx. apply rpnToAst_inv in H as [nid H].
  apply rpnToAstLoop_postorder in H. cbn in H. rewrite app_nil_r in H.
  apply postorderTokens_vars. rewrite H.
  apply list_elem_of_fmap. by exists (TIdent x).
Qed.

Lemma nodeValue_bound env n v x :
  nodeValue env n = Some v → x ∈ nodeVars n → is_Some (env !! x).
Proof.
  revert v. induction n as [id name|id value|id op a IHa|id op a IHa b IHb];
    intros v; cbn [nodeValue nodeVars]; intros Hv Hx.
  - apply list_elem_of_singleton in Hx as ->. eauto.
  - by apply elem_of_nil in Hx.
  - destruct (nodeValue env a) as [va|] eqn:Ha; [|done]. by eapply IHa.
  - destruct (nodeValue env a) as [va|] eqn:Ha; [|done].
    destruct (nodeValue env b) as [vb|] eqn:Hb; [|done].
    apply elem_of_app in Hx as [Hx|Hx]; [by eapply IHa | by eapply IHb].
Qed.

Lemma Forall2_last {A B} (P : A → B → Prop) l k x :
  Forall2 P l k → last l = Some x → ∃ y, last k = Some y ∧ P x y.
Proof.
  intros HF. induction HF as [|a b l k Hab HF IH]; [done|].
  destruct HF as [|a' b' l k Hab' HF].
  - intros [= <-]. by exists b.
  - intros Hl. apply IH. done.
Qed.

(** X13. With the step columns on, the last step column is the whole
    expression whenever the expression has a combinator at its root: its
    header is the label of the root, and in every row its cell, computed
    on the tree by [computeValue], equals the result cell, computed on the
    postfix sequence by [evalRPN].  An expression that is a lone variable
    or constant has no step columns. *)
Theorem last_step_is_result (vars : list jsstring) (rpn : list token) (opts : Options)
    (tbl : Table) (root : node) :
  renderTable vars rpn opts = OK tbl → showSteps opts = true →
  rpnToAst rpn = OK root →
  if isOpNode root
  then (∃ label, formatNode root = OK label ∧ last (stepHeaders tbl) = Some label)
       ∧ ∀ row, row ∈ bodyRows tbl → last (stepCells row) = Some (resultCell row)
  else stepHeaders tbl = [].
Proof.
  intros Htbl Hon Hroot.
  destruct (renderTable_steps_sound _ _ _ _ Htbl Hon)
    as (root' & steps & Hroot' & Hcollect & Hhead & Hcells).
  rewrite Hroot in Hroot'. injection Hroot' as <-.
  pose proof (rpnToAst_wf _ _ Hroot) as Hwf.
  destruct (isOpNode root) eqn:Hop.
  - pose proof (collectSubexpressions_last root steps Hwf Hop Hcollect) as Hlast.
    split.
    + exists (render root). split; [by apply formatNode_render|].
      rewrite Hhead, fmap_last, Hlast. done.
    + intros row Hin. apply list_elem_of_lookup in Hin as [k Hk].
      destruct (Forall2_last _ _ _ _ (Hcells k row Hk) Hlast) as (c & Hc & Hv).
      cbn [fst] in Hv. rewrite Hc. f_equal.
      destruct (renderTable_inv _ _ _ _ Htbl) as (_ & _ & Hrow).
      destruct (Hrow k row Hk) as [_ ->].
      set (env := rowEnv (rowOrder opts) vars (Z.of_nat k)) in *.
      destruct (rpnToAst_computeValue env _ rpn root Hroot eq_refl) as (_ & _ & Hcv).
      specialize (Hcv root ∅ (subnodes_self root) (cacheSound_empty _ _)).
      rewrite Hv in Hcv. destruct Hcv as (cache & Hcv & _).
      assert (evalRPN rpn env = OK c) as ->; [|done].
      apply strategies_agree_rpn; [|by exists root, cache].
      intros x Hx. apply (nodeValue_bound env root c x Hv).
      by apply (rpnToAst_idents rpn).
  - rewrite collectSubexpressions_leaf in Hcollect by done.
    injection Hcollect as <-. done.
Qed.

Lemma last_step_is_result_witness :
  let vars := [js "a"; js "b"] in
  let rpn := [TIdent (js "a"); TIdent (js "b"); TOp AND (js "&"); TOp NOT (js "!")] in
  let opts := mkOptions true true true F_FIRST in
  ∃ tbl root, renderTable vars rpn opts = OK tbl ∧ rpnToAst rpn = OK root
    ∧ ∀ row, row ∈ bodyRows tbl → last (stepCells row) = Some (resultCell row).
Proof.
  intros vars rpn opts.
  destruct (renderTable vars rpn opts) as [tbl|e] eqn:E; [|by vm_compute in E].
  destruct (rpnToAst rpn) as [root|e] eqn:R; [|by vm_compute in R].
  exists tbl, root. split; [done|]. split; [done|].
  pose proof (last_step_is_result vars rpn opts tbl root E eq_refl R) as H.
  assert (isOpNode root = true) as Hop by (vm_compute in R; by injection R as <-).
  rewrite Hop in H. apply H.
Defined.

(** ** Rows in which evalRPN raises *)





(** ** A submitted expression and its truth table *)

Lemma uniqueVariables_elems localeCompare tokens :
  NoDup (uniqueVariables localeCompare tokens)
  ∧ ∀ x, x ∈ uniqueVariables localeCompare tokens ↔ TIdent x ∈ tokens.
Proof.
  unfold uniqueVariables.
  destruct (collectIdents_spec tokens [] (NoDup_nil_2 : NoDup [])) as [Hnd Hin].
  split; [by rewrite merge_sort_Permutation|].
  intros x. rewrite merge_sort_Permutation, Hin, elem_of_nil. tauto.
Qed.

Lemma tokensOf_vars n x : TIdent x ∈ tokensOf n ↔ x ∈ nodeVars n.
Proof.
  induction n as [id name|id value|id op a IHa|id op a IHa b IHb];
    cbn [tokensOf nodeVars].
  - rewrite !list_elem_of_singleton. split; [by intros [= ->] | by intros ->].
  - rewrite list_elem_of_singleton, elem_of_nil. split; [done|tauto].
  - rewrite <- IHa. destruct (isOpNode a);
      rewrite ?elem_of_cons, ?elem_of_app, ?list_elem_of_singleton; naive_solver.
  - rewrite elem_of_cons, !elem_of_app, list_elem_of_singleton, <- IHa, <- IHb,
      list_elem_of_singleton. naive_solver.
Qed.

Lemma postfixOf_vars n x : TIdent x ∈ postfixOf n ↔ x ∈ nodeVars n.
Proof.
  induction n as [id name|id value|id op a IHa|id op a IHa b IHb];
    cbn [postfixOf nodeVars].
  - rewrite !list_elem_of_singleton. split; [by intros [= ->] | by intros ->].
  - rewrite list_elem_of_singleton, elem_of_nil. split; [done|tauto].
  - rewrite <- IHa, elem_of_app, list_elem_of_singleton. naive_solver.
  - rewrite !elem_of_app, list_elem_of_singleton, <- IHa, <- IHb. naive_solver.
Qed.

Lemma rpnToAst_postfixOf n : wfNode n → isOK (rpnToAst (postfixOf n)) = true.
Proof.
  intros Hwf.
  set (env := gset_to_gmap true (list_to_set (nodeVars n)) : gmap jsstring bool).
  assert (Hbound : ∀ x, x ∈ nodeVars n → is_Some (env !! x)).
  { intros x Hx. exists true. apply lookup_gset_to_gmap_Some. split; [|done].
    by apply elem_of_list_to_set. }
  destruct (nodeValue_is_Some env n Hbound) as [v Hv].
  pose proof (evalRPNLoop_sim env (postfixOf n)
                (λ x Hx, Hbound x (proj1 (postfixOf_vars n x) Hx))
                1 [] [] (List.Forall2_nil _)) as Hsim.
  rewrite (evalRPNLoop_postfix env n Hwf v Hv) in Hsim.
  unfold rpnToAst. destruct (rpnToAstLoop (postfixOf n) (1, [])) as [[nid nodes]|e].
  - destruct Hsim as (values & [= <-] & Hrel). cbn [snd] in *.
    apply Forall2_cons_inv_l in Hrel as (r & nodes' & _ & Hrel & ->).
    apply Forall2_nil_inv_l in Hrel as ->. done.
  - by destruct Hsim as (e' & [=]).
Qed.

(** X14. Submitting the label that [formatNode] gives a well-formed tree
    whose variables are identifiers: with at most 12 distinct variables the
    handler returns a table with one header per distinct variable, 2^n
    rows, and in every row the result cell is the truth value of the tree
    under the row's assignment; with more than 12 it reports the number of
    distinct variables and builds no table. *)
Theorem handleSubmit_truth_table (localeCompare : jsstring → jsstring → Z)
    (n : node) (label : jsstring) (opts : Options) :
  wfNode n → Forall (λ x, isIdentifier x = true) (nodeVars n) →
  formatNode n = OK label →
  let count := size (list_to_set (nodeVars n) : gset jsstring) in
  if decide (count ≤ 12)%nat
  then ∃ tbl, handleSubmit localeCompare label opts = OK tbl
         ∧ length (varHeaders tbl) = count
         ∧ length (bodyRows tbl) = (2 ^ count)%nat
         ∧ ∀ (k : nat) row, bodyRows tbl !! k = Some row →
             nodeValue (rowEnv (rowOrder opts) (varHeaders tbl) (Z.of_nat k)) n
             = Some (resultCell row)
  else handleSubmit localeCompare label opts
       = Err (TooManyVariables (Z.of_nat count)).
Proof.
  intros Hwf Hids Hlabel count. rewrite (formatNode_render n Hwf) in Hlabel.
  injection Hlabel as <-.
  destruct (render_ends n Hids) as (c & l & Hc & Hl & Hcs & Hls).
  pose proof (trim_id _ _ _ Hc Hl Hcs Hls) as Htrim.
  set (vars := uniqueVariables localeCompare (tokensOf n)).
  destruct (uniqueVariables_elems localeCompare (tokensOf n)) as [Hnd Hin].
  fold vars in Hnd, Hin.
  assert (Hcount : length vars = count).
  { unfold count. rewrite <- (size_list_to_set (C := gset jsstring) vars) by done.
    f_equal. apply set_eq. intros x.
    by rewrite !elem_of_list_to_set, Hin, tokensOf_vars. }
  assert (Hhandle : handleSubmit localeCompare (render n) opts
    = if Z.of_nat (length vars) >? 12
      then Err (TooManyVariables (Z.of_nat (length vars)))
      else renderTable vars (postfixOf n) opts).
  { unfold handleSubmit. cbv zeta. rewrite Htrim.
    rewrite decide_False by (intros E; by rewrite E in Hc).
    rewrite (tokenize_render n Hwf Hids). cbn [mbind result_bind]. fold vars.
    destruct (_ >? 12); [done|]. by rewrite (toRPN_render n Hwf). }
  rewrite Hhandle, Hcount. clear Hhandle.
  destruct (decide (count ≤ 12)%nat) as [Hle|Hgt].
  - destruct (Z.gtb_spec (Z.of_nat count) 12) as [?|_]; [lia|].
    assert (Hvars : ∀ x, TIdent x ∈ postfixOf n → x ∈ vars).
    { intros x Hx. by apply Hin, tokensOf_vars, postfixOf_vars. }
    destruct (renderTable_returns vars (postfixOf n) opts) as [tbl Htbl].
    { right. split; [by apply rpnToAst_postfixOf | done]. }
    exists tbl. split; [done|].
    destruct (renderTable_inv _ _ _ _ Htbl) as (Hhead & Hlen & Hrow).
    rewrite Hhead. split; [done|]. split.
    + rewrite Hlen, rowCount_small, Hcount by lia.
      rewrite <- (Nat2Z.id (2 ^ count)). f_equal. by rewrite Nat2Z.inj_pow.
    + intros k row Hk. destruct (Hrow k row Hk) as [_ ->].
      set (env := rowEnv (rowOrder opts) vars (Z.of_nat k)).
      destruct (nodeValue_is_Some env n) as [v Hv].
      { intros x Hx. apply rowEnv_dom, Hin. by apply tokensOf_vars. }
      by rewrite Hv, (evalRPN_postfix env n v Hwf Hv).
  - destruct (Z.gtb_spec (Z.of_nat count) 12) as [_|?]; [done|lia].
Qed.

Lemma handleSubmit_truth_table_witness :
  let n := NOp2 4 IMP (NVar 1 (js "p")) (NOp1 3 NOT (NVar 2 (js "q"))) in
  let opts := mkOptions true true true F_FIRST in
  ∃ tbl, handleSubmit codeUnitCompare (js "(p -> !q)") opts = OK tbl
    ∧ length (varHeaders tbl) = 2%nat
    ∧ length (bodyRows tbl) = 4%nat
    ∧ ∀ (k : nat) row, bodyRows tbl !! k = Some row →
        nodeValue (rowEnv F_FIRST (varHeaders tbl) (Z.of_nat k)) n
        = Some (resultCell row).
Proof.
  intros n opts.
  assert (wfNode n) as Hwf by (vm_compute; tauto).
  assert (Forall (λ x, isIdentifier x = true) (nodeVars n)) as Hids
    by (repeat constructor).
  exact (handleSubmit_truth_table codeUnitCompare n (js "(p -> !q)") opts
           Hwf Hids eq_refl).
Defined.

(** ** Postfix sequences that build no tree *)

Lemma rpnToAst_Err_evalRPN rpn e env :
  rpnToAst rpn = Err e → ∃ e', evalRPN rpn env = Err e'.
Proof.
  intros Hast. destruct (evalRPN rpn env) as [v|e'] eqn:Hev; [|by exists e'].
  assert (Hbound : ∀ x, TIdent x ∈ rpn → is_Some (env !! x)).
  { unfold evalRPN in Hev. apply bind_OK in Hev as (stack & Hloop & _).
    by eapply evalRPNLoop_bound. }
  apply (strategies_agree_rpn env rpn Hbound) in Hev as (root & cache & Hroot & _).
  congruence.
Qed.

(** X15. An expression whose tokens the parser orders but whose postfix
    sequence builds no tree (two operands in a row, an operator without
    its operands) is reported only when the step columns are on: the
    handler then fails with the error of [rpnToAst].  With the step
    columns off it returns a full table in which every result cell is
    false. *)
Theorem invalid_postfix_lenient (localeCompare : jsstring → jsstring → Z)
    (exprInput : jsstring) (opts : Options) (tokens rpn : list token) (e : error) :
  trim exprInput ≠ [] →
  tokenize (trim exprInput) = OK tokens →
  (length (uniqueVariables localeCompare tokens) ≤ 12)%nat →
  toRPN tokens = OK rpn →
  rpnToAst rpn = Err e →
  if showSteps opts
  then handleSubmit localeCompare exprInput opts = Err e
  else ∃ tbl, handleSubmit localeCompare exprInput opts = OK tbl
         ∧ length (bodyRows tbl)
           = (2 ^ length (uniqueVariables localeCompare tokens))%nat
         ∧ ∀ row, row ∈ bodyRows tbl → resultCell row = false.
Proof.
  intros Hne Htok Hlen Hrpn Hast.
  set (vars := uniqueVariables localeCompare tokens) in *.
  assert (Hhandle : handleSubmit localeCompare exprInput opts
                    = renderTable vars rpn opts).
  { unfold handleSubmit. cbv zeta. rewrite decide_False by done.
    rewrite Htok. cbn [mbind result_bind]. fold vars.
    destruct (Z.gtb_spec (Z.of_nat (length vars)) 12) as [?|_]; [lia|].
    by rewrite Hrpn. }
  rewrite Hhandle. destruct (showSteps opts) eqn:Hon.
  - unfold renderTable. by rewrite Hon, Hast.
  - destruct (renderTable_returns vars rpn opts (or_introl Hon)) as [tbl Htbl].
    exists tbl. split; [done|].
    destruct (renderTable_inv _ _ _ _ Htbl) as (_ & Hrows & Hrow). split.
    + rewrite Hrows, rowCount_small by lia.
      rewrite <- (Nat2Z.id (2 ^ length vars)). f_equal. by rewrite Nat2Z.inj_pow.
    + intros row Hin. apply list_elem_of_lookup in Hin as [k Hk].
      destruct (Hrow k row Hk) as [_ ->].
      by destruct (rpnToAst_Err_evalRPN rpn e
                     (rowEnv (rowOrder opts) vars (Z.of_nat k)) Hast) as [e' ->].
Qed.

Lemma invalid_postfix_lenient_witness :
  handleSubmit codeUnitCompare (js "a b") (mkOptions true true true F_FIRST)
  = Err CouldNotBuildAst
  ∧ ∃ tbl, handleSubmit codeUnitCompare (js "a b") (mkOptions true true false F_FIRST)
           = OK tbl
      ∧ length (bodyRows tbl) = 4%nat
      ∧ ∀ row, row ∈ bodyRows tbl → resultCell row = false.
Proof.
  assert (trim (js "a b") ≠ []) as Hne by done.
  assert (tokenize (trim (js "a b")) = OK [TIdent (js "a"); TIdent (js "b")])
    as Htok by reflexivity.
  assert (length (uniqueVariables codeUnitCompare [TIdent (js "a"); TIdent (js "b")])
          ≤ 12)%nat as Hlen by (vm_compute; lia).
  assert (toRPN [TIdent (js "a"); TIdent (js "b")]
          = OK [TIdent (js "a"); TIdent (js "b")]) as Hrpn by reflexivity.
  assert (rpnToAst [TIdent (js "a"); TIdent (js "b")] = Err CouldNotBuildAst)
    as Hast by reflexivity.
  split.
  - exact (invalid_postfix_lenient codeUnitCompare (js "a b")
             (mkOptions true true true F_FIRST) _ _ _ Hne Htok Hlen Hrpn Hast).
  - exact (invalid_postfix_lenient codeUnitCompare (js "a b")
             (mkOptions true true false F_FIRST) _ _ _ Hne Htok Hlen Hrpn Hast).
Defined.

(** ** The first and the last row *)

Lemma assignFrom_constant order n i b vars : ∀ j env v,
  (∀ k, j ≤ k < j + Z.of_nat (length vars) → assignedValue order n i k = b) →
  v ∈ vars → assignFrom order n i j vars env !! v = Some b.
Proof.
  induction vars as [|u vars IH]; intros j env v Hb Hv; [by apply elem_of_nil in Hv|].
  cbn [assignFrom]. cbn [length] in Hb.
  destruct (decide (v ∈ vars)) as [Hin|Hnin].
  - apply IH; [|done]. intros k Hk. apply Hb. lia.
  - apply elem_of_cons in Hv as [->|Hv]; [|done].
    rewrite assignFrom_notin by done. rewrite lookup_insert_eq. f_equal. apply Hb. lia.
Qed.

Lemma varCells_constant order vars i b :
  (∀ k, 0 ≤ k < Z.of_nat (length vars) →
        assignedValue order (Z.of_nat (length vars)) i k = b) →
  (λ v, default false (rowEnv order vars i !! v)) <$> vars = replicate (length vars) b.
Proof.
  intros Hb. apply list_eq. intros k. rewrite list_lookup_fmap.
  destruct (vars !! k) as [v|] eqn:Hv; cbn [fmap option_fmap option_map].
  - pose proof (lookup_lt_Some _ _ _ Hv) as Hlt.
    rewrite lookup_replicate_2 by done. f_equal. unfold rowEnv.
    rewrite (assignFrom_constant order _ i b vars 0 ∅ v); [done| |].
    + intros j Hj. apply Hb. lia.
    + by eapply list_elem_of_lookup_2.
  - apply lookup_ge_None in Hv. symmetry. apply lookup_replicate_None. lia.
Qed.

(** X16. In a table of at most 30 variables the first row gives every
    variable the value false under the order [F_FIRST] and true under
    [T_FIRST], and the last row gives every variable the opposite value. *)
Theorem first_and_last_row (vars : list jsstring) (rpn : list token) (opts : Options)
    (tbl : Table) :
  (length vars ≤ 30)%nat → renderTable vars rpn opts = OK tbl →
  let low := match rowOrder opts with F_FIRST => false | T_FIRST => true end in
  ∃ top bottom,
    head (bodyRows tbl) = Some top ∧ last (bodyRows tbl) = Some bottom
    ∧ varCells top = replicate (length vars) low
    ∧ varCells bottom = replicate (length vars) (negb low).
Proof.
  intros Hlen Htbl low.
  destruct (renderTable_inv _ _ _ _ Htbl) as (_ & Hrows & Hrow).
  rewrite rowCount_small in Hrows by done.
  set (n := Z.of_nat (length vars)) in *.
  assert (0 < 2 ^ n) as Hpos by (apply Z.pow_pos_nonneg; lia).
  destruct (bodyRows tbl !! 0%nat) as [top|] eqn:Htop;
    [|apply lookup_ge_None in Htop; lia].
  destruct (bodyRows tbl !! Z.to_nat (2 ^ n - 1)) as [bottom|] eqn:Hbot;
    [|apply lookup_ge_None in Hbot; lia].
  exists top, bottom. split; [by rewrite head_lookup|]. split.
  { rewrite last_lookup, Hrows. rewrite <- Hbot. f_equal. lia. }
  destruct (Hrow _ _ Htop) as [-> _]. destruct (Hrow _ _ Hbot) as [-> _].
  split; apply varCells_constant; intros k Hk; rewrite assignedValue_testbit;
    fold n; rewrite (Z.mod_small (n - k - 1) 32) by lia.
  - change (Z.of_nat 0) with 0. rewrite Z.testbit_0_l. unfold low.
    by destruct (rowOrder opts).
  - rewrite Z2Nat.id by lia.
    replace (2 ^ n - 1) with (2 ^ n - 1 - 0) by lia.
    rewrite testbit_mirror by lia. rewrite Z.testbit_0_l. unfold low.
    by destruct (rowOrder opts).
Qed.

Lemma first_and_last_row_witness :
  let vars := [js "p"; js "q"] in
  let rpn := [TIdent (js "p"); TIdent (js "q"); TOp OR (js "|")] in
  ∃ tbl top bottom,
    renderTable vars rpn (mkOptions true false false T_FIRST) = OK tbl
    ∧ head (bodyRows tbl) = Some top ∧ last (bodyRows tbl) = Some bottom
    ∧ varCells top = [true; true] ∧ varCells bottom = [false; false].
Proof.
  intros vars rpn.
  destruct (renderTable vars rpn (mkOptions true false false T_FIRST)) as [tbl|e] eqn:E;
    [|by vm_compute in E].
  assert (length vars ≤ 30)%nat as Hlen by (simpl; lia).
  destruct (first_and_last_row vars rpn _ tbl Hlen E) as (top & bottom & H).
  by exists tbl, top, bottom.
Defined.

(** ** escapeHtml *)

Lemma replaceAll_app pattern replacement s1 s2 :
  replaceAll pattern replacement (s1 ++ s2)
  = replaceAll pattern replacement s1 ++ replaceAll pattern replacement s2.
Proof.
  induction s1 as [|c s1 IH]; [done|]. cbn [replaceAll app].
  by rewrite IH, app_assoc.
Qed.

Lemma escapeHtml_app x y : escapeHtml (x ++ y) = escapeHtml x ++ escapeHtml y.
Proof. unfold escapeHtml. by rewrite !replaceAll_app. Qed.

Lemma escapeHtml_unit c : escapeHtml [c] = escapeUnit c.
Proof.
  unfold escapeHtml, escapeUnit. cbn [replaceAll].
  destruct (N.eqb_spec c (cu "&")) as [->|Hamp]; [reflexivity|].
  cbn [app replaceAll].
  destruct (N.eqb_spec c (cu "<")) as [->|Hlt]; [reflexivity|].
  cbn [app replaceAll].
  destruct (N.eqb_spec c (cu ">")) as [->|Hgt]; reflexivity.
Qed.

Lemma escapeHtml_cons c x : escapeHtml (c :: x) = escapeUnit c ++ escapeHtml x.
Proof.
  change (c :: x) with ([c] ++ x). by rewrite escapeHtml_app, escapeHtml_unit.
Qed.

Lemma escapeUnit_cases c :
  (c = cu "&" ∧ escapeUnit c = js "&amp;")
  ∨ (c = cu "<" ∧ escapeUnit c = js "&lt;")
  ∨ (c = cu ">" ∧ escapeUnit c = js "&gt;")
  ∨ (isMarkupUnit c = false ∧ escapeUnit c = [c]).
Proof.
  unfold escapeUnit, isMarkupUnit.
  destruct (N.eqb_spec c (cu "&")) as [->|?]; [by left|].
  destruct (N.eqb_spec c (cu "<")) as [->|?]; [right; by left|].
  destruct (N.eqb_spec c (cu ">")) as [->|?]; [right; right; by left|].
  by do 3 right.
Qed.

Lemma escapeHtml_bind x : escapeHtml x = x ≫= escapeUnit.
Proof.
  induction x as [|c x IH]; [done|].
  rewrite escapeHtml_cons. cbn [mbind list_bind]. by rewrite IH.
Qed.

Lemma escapeHtml_no_angle x : (cu "<" ∉ escapeHtml x) ∧ (cu ">" ∉ escapeHtml x).
Proof.
  induction x as [|c x [Hlt Hgt]]; [split; apply not_elem_of_nil|].
  rewrite escapeHtml_cons, !elem_of_app.
  assert ((cu "<" ∉ escapeUnit c) ∧ (cu ">" ∉ escapeUnit c)) as [Hl Hg]; [|tauto].
  destruct (escapeUnit_cases c) as [[_ ->]|[[_ ->]|[[_ ->]|[Hc ->]]]];
    [split; by apply (bool_decide_unpack _)..|].
  rewrite !list_elem_of_singleton. split; intros <-; discriminate Hc.
Qed.

(** X17. [escapeHtml] makes three passes, and the second and third see
    the ampersands that the earlier ones wrote; still no code unit is
    escaped twice: the result is the input with each ampersand, [<] and
    [>] replaced once by its entity and every other code unit kept.  The
    result holds neither [<] nor [>]. *)
Theorem escapeHtml_single_pass (x : jsstring) :
  escapeHtml x = (x ≫= escapeUnit)
  ∧ (cu "<" ∉ escapeHtml x) ∧ (cu ">" ∉ escapeHtml x).
Proof. split; [apply escapeHtml_bind | apply escapeHtml_no_angle]. Qed.

(** X18. [escapeHtml] loses nothing: two texts with the same escaped form
    are the same text. *)
Theorem escapeHtml_injective (x y : jsstring) :
  escapeHtml x = escapeHtml y → x = y.
Proof.
  revert y. induction x as [|c x IH]; intros [|d y].
  - done.
  - rewrite escapeHtml_cons.
    destruct (escapeUnit_cases d) as [[_ ->]|[[_ ->]|[[_ ->]|[_ ->]]]]; discriminate.
  - rewrite escapeHtml_cons.
    destruct (escapeUnit_cases c) as [[_ ->]|[[_ ->]|[[_ ->]|[_ ->]]]]; discriminate.
  - rewrite !escapeHtml_cons. intros H.
    destruct (escapeUnit_cases c) as [[-> Ec]|[[-> Ec]|[[-> Ec]|[Hc Ec]]]];
      destruct (escapeUnit_cases d) as [[-> Ed]|[[-> Ed]|[[-> Ed]|[Hd Ed]]]];
      rewrite ?Ec, ?Ed in H; try discriminate H.
    all: try (f_equal; apply IH; by simplify_list_eq).
    + injection H as <- _. discriminate Hd.
    + injection H as <- _. discriminate Hd.
    + injection H as <- _. discriminate Hd.
    + injection H as -> _. discriminate Hc.
    + injection H as -> _. discriminate Hc.
    + injection H as -> _. discriminate Hc.
    + injection H as -> H. f_equal. by apply IH.
Qed.

Lemma escapeHtml_injective_witness :
  escapeHtml (js "a&lt;b") = js "a&amp;lt;b" ∧ js "a&lt;b" = js "a&lt;b".
Proof.
  split; [reflexivity|].
  apply (escapeHtml_injective (js "a&lt;b") (js "a&lt;b")). reflexivity.
Defined.

(** ** updateSummary *)

Lemma join_Forall (P : N → Prop) sep l :
  Forall P sep → Forall (Forall P) l → Forall P (join sep l).
Proof.
  intros Hsep. induction l as [|x l IH]; intros Hl; [constructor|].
  apply Forall_cons in Hl as [Hx Hl]. cbn [join]. destruct l as [|y l]; [done|].
  apply Forall_app. split; [done|]. apply Forall_app. split; [done|]. by apply IH.
Qed.

Lemma join_head sep x l c : head x = Some c → head (join sep (x :: l)) = Some c.
Proof. destruct x as [|c' x]; [done|]. intros [= ->]. by destruct l. Qed.

Lemma isIdentPart_no_markup ch : isIdentPart ch = true → isMarkupUnit ch = false.
Proof. intros H. unfold isMarkupUnit. char_solve. Qed.

Lemma isIdentifier_no_markup x :
  isIdentifier x = true →
  Forall (λ c, isMarkupUnit c = false) x
  ∧ ∃ c, head x = Some c ∧ isIdentStart c = true.
Proof.
  intros H. apply isIdentifier_inv in H as (ch & tl & -> & Hch & Htl & _).
  split; [|by exists ch]. constructor.
  - by apply isIdentPart_no_markup, isIdentStart_part.
  - rewrite forallb_forall in Htl. apply Forall_forall. intros c Hc.
    apply isIdentPart_no_markup, Htl. by apply list_elem_of_In.
Qed.

(** X19. The summary line that the handler writes after a table: its row
    number is the number of body rows of the table; the variable text,
    which is put into the markup unescaped, holds no ampersand, [<] or
    [>], and is [(none)] exactly when the table has no variable column;
    the expression text, which is escaped, holds no [<] or [>]. *)
Theorem summary_of_submission (localeCompare : jsstring → jsstring → Z)
    (exprInput : jsstring) (opts : Options) (tbl : Table) :
  handleSubmit localeCompare exprInput opts = OK tbl →
  let summary := updateSummary (trim exprInput) (varHeaders tbl) in
  rowsNumber summary = Z.of_nat (length (bodyRows tbl))
  ∧ Forall (λ c, isMarkupUnit c = false) (variablesText summary)
  ∧ (variablesText summary = js "(none)" ↔ varHeaders tbl = [])
  ∧ (cu "<" ∉ expressionHtml summary) ∧ (cu ">" ∉ expressionHtml summary).
Proof.
  intros H summary.
  apply handleSubmit_inv in H as (tokens & rpn & Htok & Hlen & _ & Htbl).
  destruct (renderTable_inv _ _ _ _ Htbl) as (Hhead & Hrows & _).
  set (vars := uniqueVariables localeCompare tokens) in *.
  unfold summary, updateSummary. rewrite Hhead. cbv zeta.
  cbn [rowsNumber variablesText expressionHtml].
  assert (Hids : ∀ x, x ∈ vars → isIdentifier x = true).
  { intros x Hx. apply (tokenize_idents _ _ _ Htok).
    by apply (uniqueVariables_elems localeCompare tokens). }
  split; [|split; [|split]].
  - rewrite Hrows. fold (rowCount vars). rewrite rowCount_small by lia.
    rewrite Z2Nat.id; [done|]. apply Z.pow_nonneg. lia.
  - destruct (decide (join (js ", ") vars = [])); [by repeat constructor|].
    apply join_Forall; [by repeat constructor|].
    apply Forall_forall. intros x Hx. by apply isIdentifier_no_markup, Hids.
  - destruct vars as [|x vars'] eqn:Hvars; [done|].
    destruct (isIdentifier_no_markup x) as [_ (c & Hc & Hstart)];
      [apply Hids, list_elem_of_here|].
    pose proof (join_head (js ", ") x vars' c Hc) as Hjoin.
    split; [|done]. destruct (decide _) as [E|_]; [by rewrite E in Hjoin|].
    intros E. rewrite E in Hjoin. injection Hjoin as <-. discriminate Hstart.
  - apply escapeHtml_no_angle.
Qed.

Lemma summary_of_submission_witness :
  ∃ tbl, handleSubmit codeUnitCompare (js " q <-> p ") (mkOptions true true true F_FIRST)
         = OK tbl
    ∧ updateSummary (js "q <-> p") (varHeaders tbl)
      = mkSummary (js "p, q") 4 (js "q &lt;-&gt; p")
    ∧ rowsNumber (updateSummary (js "q <-> p") (varHeaders tbl))
      = Z.of_nat (length (bodyRows tbl)).
Proof.
  destruct (handleSubmit codeUnitCompare (js " q <-> p ")
              (mkOptions true true true F_FIRST)) as [tbl|e] eqn:E;
    [|by vm_compute in E].
  exists tbl. split; [done|].
  pose proof (summary_of_submission codeUnitCompare _ _ tbl E) as (Hrows & _).
  split; [|exact Hrows].
  vm_compute in E. injection E as <-. reflexivity.
Defined.

(** ** toRPN and an enclosing pair of parentheses *)

Lemma popOperators_under opInfo output ops base :
  popOperators opInfo output (ops ++ TLParen :: base)
  = let '(output', ops') := popOperators opInfo output ops in
    (output', ops' ++ TLParen :: base).
Proof.
  revert output. induction ops as [|t ops IH]; intros output; [done|].
  destruct t as [| |v r|v r|x]; try done.
  cbn [popOperators app]. destruct (popsBefore _ _); [apply IH | done].
Qed.

Lemma popToLeftParen_under output ops base output' ops' :
  popToLeftParen output ops = Some (output', ops') →
  popToLeftParen output (ops ++ TLParen :: base) = Some (output', ops' ++ TLParen :: base).
Proof.
  revert output. induction ops as [|t ops IH]; intros output; [done|].
  destruct t as [| |v r|v r|x]; cbn [popToLeftParen app];
    first [by intros [= <- <-] | apply IH].
Qed.

Lemma toRPNLoop_under tokens base : ∀ output ops st',
  toRPNLoop tokens (output, ops) = OK st' →
  toRPNLoop tokens (output, ops ++ TLParen :: base) = OK (st'.1, st'.2 ++ TLParen :: base).
Proof.
  induction tokens as [|tok tokens IH]; intros output ops st'; cbn [toRPNLoop].
  - by intros [= <-].
  - intros H. apply bind_OK in H as ([output1 ops1] & Hstep & Hloop).
    assert (toRPNStep (output, ops ++ TLParen :: base) tok
            = OK (output1, ops1 ++ TLParen :: base)) as ->; [|by apply IH].
    destruct tok as [| |v r|v r|x]; cbn [toRPNStep] in *.
    + by injection Hstep as <- <-.
    + destruct (popToLeftParen output ops) as [[o1 s1]|] eqn:Hpop; [|done].
      injection Hstep as <- <-. by rewrite (popToLeftParen_under _ _ base _ _ Hpop).
    + rewrite popOperators_under.
      destruct (popOperators (Operators v) output ops) as [o1 s1].
      by injection Hstep as <- <-.
    + by injection Hstep as <- <-.
    + by injection Hstep as <- <-.
Qed.

Lemma toRPNLoop_snoc tokens tok st :
  toRPNLoop (tokens ++ [tok]) st = toRPNLoop tokens st ≫= λ st', toRPNStep st' tok.
Proof.
  revert st. induction tokens as [|t tokens IH]; intros st; cbn [toRPNLoop app].
  - cbn [mbind result_bind]. by destruct (toRPNStep st tok).
  - destruct (toRPNStep st t) as [st1|e]; cbn [mbind result_bind]; [apply IH | done].
Qed.

Lemma drainOperators_closes output ops base rpn :
  drainOperators output ops = OK rpn →
  popToLeftParen output (ops ++ TLParen :: base) = Some (rpn, base).
Proof.
  revert output. induction ops as [|t ops IH]; intros output.
  - by intros [= <-].
  - destruct t as [| |v r|v r|x]; cbn [drainOperators popToLeftParen app];
      first [discriminate | apply IH].
Qed.

(** X20. A pair of parentheses around a whole, accepted token sequence
    changes nothing: the parser gives the same postfix sequence for the
    enclosed sequence as for the sequence itself. *)
Theorem toRPN_enclosed (tokens rpn : list token) :
  toRPN tokens = OK rpn → toRPN (TLParen :: tokens ++ [TRParen]) = OK rpn.
Proof.
  unfold toRPN. intros H. apply bind_OK in H as ([output ops] & Hloop & Hdrain).
  cbn [fst snd] in Hdrain.
  change (TLParen :: tokens ++ [TRParen]) with ((TLParen :: tokens) ++ [TRParen]).
  rewrite toRPNLoop_snoc. cbn [toRPNLoop toRPNStep mbind result_bind].
  pose proof (toRPNLoop_under tokens [] [] [] _ Hloop) as Hunder.
  cbn [app fst snd] in Hunder. rewrite Hunder. cbn [mbind result_bind toRPNStep].
  by rewrite (drainOperators_closes _ _ [] _ Hdrain).
Qed.

Lemma toRPN_enclosed_witness :
  let a := TIdent (js "a") in
  let b := TIdent (js "b") in
  let c := TIdent (js "c") in
  let amp := TOp AND (js "&") in
  let bar := TOp OR (js "|") in
  toRPN [TLParen; a; bar; b; amp; c; TRParen] = OK [a; b; c; amp; bar].
Proof.
  intros a b c amp bar.
  apply (toRPN_enclosed [a; bar; b; amp; c]). reflexivity.
Defined.

(** ** toRPN: precedence and associativity *)

Lemma emittedS_pendingS e : emittedS e ++ pendingS e = surfacePostfix e.
Proof.
  induction e as [tok|e IH|raw e IH|op raw l IHl r IHr];
    cbn [emittedS pendingS surfacePostfix].
  - done.
  - by rewrite app_nil_r.
  - by rewrite app_assoc, IH.
  - by rewrite <- IHr, <- !app_assoc.
Qed.

Lemma stackAdmits_mono l l' ops : l ≤ l' → stackAdmits l ops → stackAdmits l' ops.
Proof.
  intros Hle Hg t r Ht. destruct (Hg t r Ht) as [?|[? ?]]; [left; lia|].
  destruct (decide (l = l')) as [<-|?]; [by right | left; lia].
Qed.

Lemma stackAdmits_keeps l ops op output :
  stackAdmits l ops → l ≤ prec (Operators op) →
  popOperators (Operators op) output ops = (output, ops).
Proof.
  intros Hg Hle. destruct ops as [|[| |t r|v r|x] ops]; try done.
  cbn [popOperators]. destruct (popsBefore _ _) eqn:Hpop; [|done].
  exfalso. specialize (Hg t r eq_refl). unfold popsBefore in Hpop.
  destruct t, op; cbn in *; destruct Hg as [?|[? ?]]; try lia; done.
Qed.

Lemma popOperators_all_pending op output pending ops :
  Forall (λ tok, ∃ p r, tok = TOp p r
                        ∧ popsBefore (Operators p) (Operators op) = true) pending →
  popOperators (Operators op) (output ++ pending) ops
  = popOperators (Operators op) output (pending ++ ops).
Proof.
  revert output. induction pending as [|tok pending IH]; intros output Hp.
  - by rewrite app_nil_r.
  - apply Forall_cons in Hp as [(p & r & -> & Hpop) Hp].
    cbn [app popOperators]. rewrite Hpop, <- (IH _ Hp).
    by rewrite <- app_assoc.
Qed.

Lemma popToLeftParen_all_pending output pending ops :
  Forall (λ tok, ∃ p r, tok = TOp p r) pending →
  popToLeftParen output (pending ++ TLParen :: ops) = Some (output ++ pending, ops).
Proof.
  revert output. induction pending as [|tok pending IH]; intros output Hp.
  - by rewrite app_nil_r.
  - apply Forall_cons in Hp as [(p & r & ->) Hp].
    cbn [app popToLeftParen]. rewrite (IH _ Hp). by rewrite <- app_assoc.
Qed.

Lemma drainOperators_pending output pending :
  Forall (λ tok, ∃ p r, tok = TOp p r) pending →
  drainOperators output pending = OK (output ++ pending).
Proof.
  revert output. induction pending as [|tok pending IH]; intros output Hp.
  - by rewrite app_nil_r.
  - apply Forall_cons in Hp as [(p & r & ->) Hp].
    cbn [drainOperators]. rewrite (IH _ Hp). by rewrite <- app_assoc.
Qed.

Lemma pendingS_prec e :
  precedenceOk e →
  Forall (λ tok, ∃ p r, tok = TOp p r ∧ bindingLevel e ≤ prec (Operators p)) (pendingS e).
Proof.
  induction e as [tok|e IH|raw e IH|op raw l IHl r IHr];
    cbn [precedenceOk pendingS bindingLevel]; intros Hok; try by constructor.
  - destruct Hok as [Hle Hok]. apply Forall_app. split.
    + eapply Forall_impl; [by apply IH|]. intros tok (p & r & -> & Hp).
      exists p, r. split; [done | lia].
    + constructor; [|constructor]. by exists NOT, raw.
  - destruct Hok as (Hne & Hprec & Hl & Hr). apply Forall_app. split.
    + eapply Forall_impl; [by apply IHr|]. intros tok (p & r' & -> & Hp).
      exists p, r'. split; [done|]. destruct (assoc (Operators op)); lia.
    + constructor; [|constructor]. by exists op, raw.
Qed.

Lemma toRPNLoop_surface e :
  precedenceOk e → ∀ rest output ops,
  stackAdmits (bindingLevel e) ops →
  toRPNLoop (surfaceTokens e ++ rest) (output, ops)
  = toRPNLoop rest (output ++ emittedS e, pendingS e ++ ops).
Proof.
  induction e as [tok|e IH|raw e IH|op raw l IHl r IHr];
    cbn [precedenceOk]; intros Hok rest output ops Hg.
  - destruct tok as [| |v r|v r|x]; try discriminate; done.
  - cbn [surfaceTokens app toRPNLoop toRPNStep mbind result_bind].
    rewrite <- app_assoc, (IH Hok) by (intros t r [=]).
    cbn [app toRPNLoop toRPNStep].
    rewrite popToLeftParen_all_pending.
    + cbn [mbind result_bind emittedS pendingS app].
      by rewrite <- app_assoc, emittedS_pendingS.
    + eapply Forall_impl; [by apply pendingS_prec|]. intros tok (p & r & -> & _). eauto.
  - destruct Hok as [Hle Hok].
    cbn [surfaceTokens app toRPNLoop toRPNStep bindingLevel] in *.
    rewrite (stackAdmits_keeps _ ops NOT output Hg) by done.
    cbn [mbind result_bind]. rewrite (IH Hok).
    + cbn [emittedS pendingS]. by rewrite <- app_assoc.
    + intros t r [= <- <-].
      destruct (decide (bindingLevel e = prec (Operators NOT))) as [->|?];
        [by right | left; lia].
  - destruct Hok as (Hne & Hprec & Hl & Hr).
    cbn [surfaceTokens bindingLevel] in *. rewrite <- app_assoc.
    rewrite (IHl Hl).
    2:{ apply (stackAdmits_mono (prec (Operators op))); [|done].
        destruct (assoc (Operators op)); lia. }
    cbn [app toRPNLoop toRPNStep].
    rewrite <- popOperators_all_pending.
    2:{ eapply Forall_impl; [by apply pendingS_prec|].
        intros tok (p & r' & -> & Hp). exists p, r'. split; [done|].
        unfold popsBefore. destruct (assoc (Operators op)) eqn:Hassoc.
        - destruct (Z.gtb_spec (prec (Operators p)) (prec (Operators op))); [done|].
          cbn [orb]. rewrite bool_decide_eq_true_2 by done.
          rewrite andb_true_r. apply Z.eqb_eq. lia.
        - destruct (Z.gtb_spec (prec (Operators p)) (prec (Operators op))); [done|lia]. }
    rewrite (stackAdmits_keeps _ ops op _ Hg) by done.
    cbn [mbind result_bind]. rewrite (IHr Hr).
    + cbn [emittedS pendingS]. by rewrite <- (emittedS_pendingS l), <- !app_assoc.
    + intros t r' [= <- <-]. destruct (assoc (Operators op)) eqn:Hassoc; [left; lia|].
      destruct (decide (bindingLevel r = prec (Operators op))) as [->|?];
        [by right | left; lia].
Qed.


Lemma evalRPNLoop_surface env e :
  precedenceOk e → ∀ v, surfaceValue env e = Some v →
  ∀ stack, evalRPNLoop env (surfacePostfix e) stack = OK (v :: stack).
Proof.
  induction e as [tok|e IH|raw e IH|op raw l IHl r IHr];
    cbn [precedenceOk surfaceValue surfacePostfix]; intros Hok v Hv stack.
  - destruct tok as [| |w r|w r|x]; try discriminate; cbn.
    + by injection Hv as ->.
    + by rewrite Hv.
  - by apply IH.
  - destruct Hok as [_ Hok].
    destruct (surfaceValue env e) as [a|] eqn:Ea; [|done]. injection Hv as <-.
    by rewrite evalRPNLoop_app, (IH Hok a eq_refl).
  - destruct Hok as (Hne & _ & Hl & Hr).
    destruct (surfaceValue env l) as [a|] eqn:Ea; [|done].
    destruct (surfaceValue env r) as [b|] eqn:Eb; [|done].
    cbn [mbind option_bind] in Hv.
    rewrite evalRPNLoop_app, (IHl Hl a eq_refl). cbn [mbind result_bind].
    rewrite evalRPNLoop_app, (IHr Hr b eq_refl).
    destruct op; try done; injection Hv as <-; try reflexivity.
    cbn. by destruct a, b.
Qed.

(** X21. [toRPN] honours precedence and associativity: for an expression
    written with parentheses only where they are needed (or with more),
    that is, where every operand written without parentheses binds tighter
    than its operator, or as tight on the side to which the operator
    associates, the parser returns the postfix form of the expression, and
    [evalRPN] on it returns the truth value of the expression under every
    assignment that binds its variables. *)
Theorem toRPN_precedence (e : surface) :
  precedenceOk e →
  toRPN (surfaceTokens e) = OK (surfacePostfix e)
  ∧ ∀ env v, surfaceValue env e = Some v → evalRPN (surfacePostfix e) env = OK v.
Proof.
  intros Hok. split.
  - unfold toRPN.
    rewrite <- (app_nil_r (surfaceTokens e)), (toRPNLoop_surface e Hok)
      by (intros t r [=]).
    cbn [toRPNLoop mbind result_bind fst snd app]. rewrite app_nil_r.
    rewrite drainOperators_pending.
    + by rewrite emittedS_pendingS.
    + eapply Forall_impl; [by apply pendingS_prec|]. intros tok (p & r & -> & _). eauto.
  - intros env v Hv. unfold evalRPN.
    by rewrite (evalRPNLoop_surface env e Hok v Hv).
Qed.

Lemma toRPN_precedence_witness :
  let a := TIdent (js "a") in
  let b := TIdent (js "b") in
  let c := TIdent (js "c") in
  let d := TIdent (js "d") in
  let bar := TOp OR (js "|") in
  let amp := TOp AND (js "&") in
  let imp := TOp IMP (js "->") in
  let neg := TOp NOT (js "!") in
  toRPN [a; bar; neg; b; amp; c; imp; d; imp; a]
  = OK [a; b; neg; c; amp; bar; d; a; imp; imp].
Proof.
  intros a b c d bar amp imp neg.
  apply (toRPN_precedence
           (SBin IMP (js "->")
              (SBin OR (js "|") (SAtom a)
                 (SBin AND (js "&") (SNot (js "!") (SAtom b)) (SAtom c)))
              (SBin IMP (js "->") (SAtom d) (SAtom a)))).
  cbn. repeat split; done || lia.
Defined.

(** ** The errors that reach the user *)

Lemma toRPN_errors tokens e :
  toRPN tokens = Err e → e = MissingLeftParen ∨ e = MismatchedParentheses.
Proof.
  unfold toRPN.
  assert (Hloop : ∀ st, toRPNLoop tokens st = Err e → e = MissingLeftParen).
  { induction tokens as [|tok tokens IH]; intros [output ops]; [done|].
    cbn [toRPNLoop]. destruct (toRPNStep (output, ops) tok) as [st1|e1] eqn:Hstep.
    - apply IH.
    - intros [= <-]. destruct tok as [| |v r|v r|x]; cbn [toRPNStep] in Hstep;
        try discriminate.
      + destruct (popToLeftParen output ops); [discriminate | by injection Hstep].
      + by destruct (popOperators _ _ _). }
  assert (Hdrain : ∀ output ops, drainOperators output ops = Err e →
                                 e = MismatchedParentheses).
  { intros output ops. revert output.
    induction ops as [|t ops IH]; intros output; [done|].
    destruct t; cbn [drainOperators]; first [by intros [= <-] | apply IH]. }
  destruct (toRPNLoop tokens ([], [])) as [[output ops]|e1] eqn:Hl.
  - cbn [mbind result_bind fst snd]. intros H. right. by eapply Hdrain.
  - intros [= <-]. left. by eapply Hloop.
Qed.

Lemma toRPN_no_parens tokens rpn :
  toRPN tokens = OK rpn → Forall (λ t, isParenToken t = false) rpn.
Proof.
  unfold toRPN. intros H. apply bind_OK in H as ([output ops] & Hloop & Hdrain).
  cbn [fst snd] in Hdrain.
  destruct (toRPNLoop_rearranges tokens [] [] _ Hloop) as (_ & _ & _ & Hout);
    [done | apply not_elem_of_nil | constructor |].
  rewrite (drainOperators_app _ _ _ Hdrain). apply Forall_app. split; [done|].
  by eapply drainOperators_nonparen.
Qed.

Lemma rpnToAst_errors rpn e :
  Forall (λ t, isParenToken t = false) rpn → rpnToAst rpn = Err e →
  e = MissingUnaryOperand ∨ e = MissingBinaryOperands ∨ e = CouldNotBuildAst.
Proof.
  intros Hnp. unfold rpnToAst.
  assert (Hloop : ∀ st, rpnToAstLoop rpn st = Err e →
                        e = MissingUnaryOperand ∨ e = MissingBinaryOperands).
  { induction Hnp as [|tok rpn Htok Hnp IH]; intros [nid stack]; [done|].
    cbn [rpnToAstLoop]. destruct (rpnToAstStep (nid, stack) tok) as [st1|e1] eqn:Hstep.
    - apply IH.
    - intros [= <-]. destruct tok as [| |v r|v r|x]; cbn [rpnToAstStep] in Hstep;
        try discriminate.
      destruct (arity_cases v) as [[_ Har]|[_ Har]]; rewrite Har in Hstep;
        cbn [Nat.eqb] in Hstep.
      + destruct stack; [injection Hstep as <-; by left | discriminate].
      + destruct stack as [|b [|a stack]]; try discriminate;
          injection Hstep as <-; by right. }
  destruct (rpnToAstLoop rpn (1, [])) as [[nid stack]|e1] eqn:Hl.
  - cbn [mbind result_bind snd]. destruct stack as [|root [|]]; try discriminate;
      intros [= <-]; by do 2 right.
  - intros [= <-]. destruct (Hloop _ Hl) as [->| ->]; [by left | right; by left].
Qed.

Lemma renderTable_Err vars rpn opts e :
  (∀ x, TIdent x ∈ rpn → x ∈ vars) → renderTable vars rpn opts = Err e →
  showSteps opts = true ∧ rpnToAst rpn = Err e.
Proof.
  intros Hvars H. destruct (showSteps opts) eqn:Hon.
  - split; [done|]. destruct (rpnToAst rpn) as [root|e'] eqn:Hroot.
    + destruct (renderTable_returns vars rpn opts) as [tbl Htbl]; [|congruence].
      right. by rewrite Hroot.
    + unfold renderTable in H. rewrite Hon, Hroot in H. by injection H as <-.
  - destruct (renderTable_returns vars rpn opts (or_introl Hon)) as [tbl Htbl].
    congruence.
Qed.

(** X22. The handler reports only these errors: the empty expression, the
    two errors of [tokenize], too many variables (with a count above 12),
    the two parenthesis errors of [toRPN], and, when the step columns are
    on, a missing operand or a sequence that builds no tree from
    [rpnToAst].  No error of [formatNode], [computeValue] or [evalRPN]
    reaches the user, and the loop of [tokenize] never runs out. *)
Theorem handleSubmit_errors (localeCompare : jsstring → jsstring → Z)
    (exprInput : jsstring) (opts : Options) (e : error) :
  handleSubmit localeCompare exprInput opts = Err e →
  isReported (showSteps opts) e = true
  ∧ ∀ count, e = TooManyVariables count → 12 < count.
Proof.
  unfold handleSubmit. cbv zeta.
  destruct (decide (trim exprInput = [])); [by intros [= <-]|].
  destruct (tokenize (trim exprInput)) as [tokens|e1] eqn:Htok.
  2:{ intros [= <-]. split; [|intros count ->].
      - unfold tokenize in Htok.
        apply (tokenizeLoop_errors (trim (trim exprInput))) in Htok;
          [|done|done|done].
        by destruct Htok as [(numStr & -> & _)|(ch & pos & -> & _)].
      - unfold tokenize in Htok.
        apply (tokenizeLoop_errors (trim (trim exprInput))) in Htok;
          [|done|done|done].
        by destruct Htok as [(numStr & [=] & _)|(ch & pos & [=] & _)]. }
  cbn [mbind result_bind].
  set (vars := uniqueVariables localeCompare tokens).
  destruct (Z.gtb_spec (Z.of_nat (length vars)) 12) as [Hgt|Hle].
  { intros [= <-]. split; [done|]. by intros count [= <-]. }
  destruct (toRPN tokens) as [rpn|e1] eqn:Hrpn.
  2:{ intros [= <-]. by destruct (toRPN_errors _ _ Hrpn) as [-> | ->]. }
  cbn [mbind result_bind]. intros H.
  apply renderTable_Err in H as [Hon Hast].
  - rewrite Hon.
    by destruct (rpnToAst_errors _ _ (toRPN_no_parens _ _ Hrpn) Hast) as [->|[->| ->]].
  - intros x Hx. apply (uniqueVariables_elems localeCompare tokens).
    by apply (toRPN_tokens _ _ _ Hrpn).
Qed.

Lemma handleSubmit_errors_witness :
  handleSubmit codeUnitCompare (js "a & (b") (mkOptions true true false F_FIRST)
  = Err MismatchedParentheses
  ∧ isReported false MismatchedParentheses = true.
Proof.
  split; [reflexivity|].
  by apply (handleSubmit_errors codeUnitCompare (js "a & (b")
              (mkOptions true true false F_FIRST) MismatchedParentheses).
Defined.
